(** * AutoSite Lite pipeline: a shallow embedding of [pipeline/util.py],
    [pipeline/reddit.py], [pipeline/deepseek.py] and
    [pipeline/generate.py], with the properties of candidate selection,
    tokenisation, sanitisation, output parsing, related-article ranking,
    the helpers of the site build and the run controller.

    Conventions of the embedding.

    - A Python [str] is a [list ascii]; a character is a code point below
      256 (the Latin-1 range of Unicode), on which [str.lower],
      [str.isspace], the regular-expression classes [\s] and [\w] and the
      line boundaries of [str.splitlines] are the tables written out in
      [Module Text].
    - A Python [dict] with string keys and string values (a feed entry, an
      archived article) is a [gmap string str]; a [set[str]] is a
      [gset str].
    - The value of [inter / union] in [jaccard] is kept as the exact
      quotient in [Qc].  CPython rounds that quotient to the nearest
      binary64; the thresholds 0.78 and 0.05 are compared as the
      rationals 78/100 and 5/100, and [thresholds_binary64] checks, with
      the binary64 operations of [SpecFloat], that both give the same
      decisions on token sets of the size of a title.
    - The network (feed download, text generation), the clock, [slugify]
      and the template renderer are parameters of the run controller.
    - The image cache of the site build is the map from the name of a
      file below [og/] to its content; [urlparse] and the download of
      an image are parameters of [cache_og_image]. *)

From Stdlib Require Import Ascii String QArith Qcanon SpecFloat.
From stdpp Require Import base option list numbers gmap strings sorting.

Set Default Proof Using "Type".
Set Warnings "-clear-no-such-hyp".
Local Open Scope list_scope.

(** A Python string. *)
Abbreviation str := (list ascii).

Coercion list_ascii_of_string : string >-> list.

(* ===================================================================== *)
(** * Characters and strings                                              *)
(* ===================================================================== *)

Module Text.

Definition code (c : ascii) : N := N_of_ascii c.

Definition in_range (lo hi : N) (c : ascii) : bool :=
  ((lo <=? code c) && (code c <=? hi))%N.

(** [str.isspace] on one character, which is also the class [\s] and the
    separator set of [str.split()] and [str.strip()]. *)
Definition is_space (c : ascii) : bool :=
  in_range 9 13 c || in_range 28 32 c
  || (code c =? 133)%N || (code c =? 160)%N.

(** Line boundaries of [str.splitlines]. *)
Definition is_linebreak (c : ascii) : bool :=
  in_range 10 13 c || in_range 28 30 c || (code c =? 133)%N.

(** [str.lower] on one character: A-Z, and the upper-case letters
    U+00C0..U+00DE except the multiplication sign U+00D7. *)
Definition lower_char (c : ascii) : ascii :=
  if in_range 65 90 c
     || (in_range 192 222 c && negb (code c =? 215)%N)
  then ascii_of_N (code c + 32) else c.

Definition lower (s : str) : str := map lower_char s.

(** The class [\w] of a [str] pattern: alphanumeric or underscore. *)
Definition is_word (c : ascii) : bool :=
  in_range 48 57 c || in_range 65 90 c || in_range 97 122 c
  || (code c =? 95)%N
  || (code c =? 170)%N || (code c =? 178)%N || (code c =? 179)%N
  || (code c =? 181)%N || (code c =? 185)%N || (code c =? 186)%N
  || in_range 188 190 c
  || (in_range 192 255 c && negb (code c =? 215)%N
      && negb (code c =? 247)%N).

Definition nl : ascii := ascii_of_N 10.
Definition cr : ascii := ascii_of_N 13.

Definition ascii_eqb (a b : ascii) : bool := (code a =? code b)%N.

Fixpoint drop_while (p : ascii -> bool) (s : str) : str :=
  match s with
  | [] => []
  | c :: s' => if p c then drop_while p s' else s
  end.

Definition lstrip_by (p : ascii -> bool) (s : str) : str := drop_while p s.

Definition rstrip_by (p : ascii -> bool) (s : str) : str :=
  rev (drop_while p (rev s)).

(** [s.strip()], [s.rstrip()] and [s.rstrip(ch)]. *)
Definition strip (s : str) : str := lstrip_by is_space (rstrip_by is_space s).
Definition rstrip (s : str) : str := rstrip_by is_space s.
Definition rstrip_char (ch : ascii) (s : str) : str :=
  rstrip_by (ascii_eqb ch) s.

(** [s.split()]: the maximal runs of non-whitespace characters. *)
Fixpoint split (s : str) : list str :=
  match s with
  | [] => []
  | c :: s' =>
      if is_space c then split s'
      else match s' with
           | [] => [[c]]
           | c' :: _ =>
               if is_space c' then [c] :: split s'
               else match split s' with
                    | w :: ws => (c :: w) :: ws
                    | [] => [[c]]
                    end
           end
  end.

(** [s.splitlines()]: scan the text, close the current line at every
    line boundary (a CR LF pair is one boundary), and keep what is left
    at the end when it is not empty.  [cur] is the line being read. *)
Fixpoint lines_from (cur : str) (s : str) : list str :=
  match s with
  | [] => match cur with [] => [] | _ => [cur] end
  | c :: s' =>
      if is_linebreak c then
        cur :: match s' with
               | c' :: s'' =>
                   if ascii_eqb c cr && ascii_eqb c' nl
                   then lines_from [] s'' else lines_from [] s'
               | [] => []
               end
      else lines_from (cur ++ [c]) s'
  end.

Definition splitlines (s : str) : list str := lines_from [] s.

Fixpoint starts_with (p s : str) : bool :=
  match p, s with
  | [], _ => true
  | a :: p', b :: s' => ascii_eqb a b && starts_with p' s'
  | _ :: _, [] => false
  end.

(** [needle in hay]. *)
Fixpoint contains (needle hay : str) : bool :=
  starts_with needle hay
  || match hay with
     | [] => false
     | _ :: hay' => contains needle hay'
     end.

(** Truthiness of a string. *)
Definition nonempty (s : str) : bool :=
  match s with [] => false | _ => true end.

End Text.

(* ===================================================================== *)
(** * Regular expressions                                                 *)
(* ===================================================================== *)

(** The fragment of Python's [re] that the pipeline uses, with the
    priorities of its backtracking matcher: a greedy repetition tries the
    longest run first, a lazy one the shortest, and the first complete
    match wins. *)
Module Regex.
Import Text.

Inductive regex : Type :=
| REps                               (* the empty pattern *)
| RChar (p : ascii -> bool)          (* one character of a class *)
| RStar (p : ascii -> bool)          (* cls*  *)
| RPlus (p : ascii -> bool)          (* cls+  *)
| RPlusLazy (p : ascii -> bool)      (* cls+? *)
| RSeq (r1 r2 : regex)
| RGroup (r : regex)                 (* ( r ) *)
| RStart                             (* ^ without MULTILINE *)
| REnd                               (* $ without MULTILINE *)
| RWordB.                            (* \b *)

(** A literal character; under IGNORECASE a letter in either case.  On
    the alphabet of this file (code points below 256) that is all the
    flag does.  Beyond it Python's [re] also reads U+017F as [s], U+0130
    and U+0131 as [i] and U+212A as [k]: no text of this file holds such
    a character, and what is stated of [script_re] and [title_re] is
    stated of texts of this alphabet. *)
Definition chr (c : ascii) : regex := RChar (ascii_eqb c).
Definition chr_i (c : ascii) : regex :=
  RChar (fun x => ascii_eqb (lower_char c) (lower_char x)).

Definition lit_i (s : str) : regex :=
  foldr (fun c r => RSeq (chr_i c) r) REps s.

Fixpoint seq (rs : list regex) : regex :=
  match rs with
  | [] => REps
  | [r] => r
  | r :: rs' => RSeq r (seq rs')
  end.

Definition any (_ : ascii) : bool := true.           (* . with DOTALL *)
Definition not_nl (c : ascii) : bool := negb (ascii_eqb nl c).  (* . *)

Definition word_opt (c : option ascii) : bool :=
  match c with Some x => is_word x | None => false end.

Section Engine.
Context {R : Type}.

(** The matcher is in continuation-passing style: [k] is the rest of
    the pattern, and [None] from it makes the repetition give back or
    take one more character.  A position is the character before it
    (for [\b] and [^]) and the text after it. *)
Fixpoint star (p : ascii -> bool) (prev : option ascii) (s : str)
    (k : option ascii -> str -> option R) : option R :=
  match s with
  | c :: s' =>
      if p c then
        match star p (Some c) s' k with
        | Some r => Some r
        | None => k prev s
        end
      else k prev s
  | [] => k prev s
  end.

Fixpoint star_lazy (p : ascii -> bool) (prev : option ascii) (s : str)
    (k : option ascii -> str -> option R) : option R :=
  match k prev s with
  | Some r => Some r
  | None =>
      match s with
      | c :: s' => if p c then star_lazy p (Some c) s' k else None
      | [] => None
      end
  end.

Fixpoint run (r : regex) (prev : option ascii) (s : str)
    (caps : list str)
    (k : option ascii -> str -> list str -> option R) : option R :=
  match r with
  | REps => k prev s caps
  | RChar p =>
      match s with
      | c :: s' => if p c then k (Some c) s' caps else None
      | [] => None
      end
  | RStar p => star p prev s (fun pv s' => k pv s' caps)
  | RPlus p =>
      match s with
      | c :: s' =>
          if p c then star p (Some c) s' (fun pv s' => k pv s' caps)
          else None
      | [] => None
      end
  | RPlusLazy p =>
      match s with
      | c :: s' =>
          if p c then star_lazy p (Some c) s' (fun pv s' => k pv s' caps)
          else None
      | [] => None
      end
  | RSeq r1 r2 =>
      run r1 prev s caps (fun pv s' caps' => run r2 pv s' caps' k)
  | RGroup r1 =>
      run r1 prev s caps (fun pv s' caps' =>
        k pv s' (caps' ++ [take (length s - length s') s]))
  | RStart =>
      match prev with None => k prev s caps | Some _ => None end
  | REnd =>
      match s with
      | [] => k prev s caps
      | [c] => if ascii_eqb nl c then k prev s caps else None
      | _ => None
      end
  | RWordB =>
      if xorb (word_opt prev) (word_opt (head s)) then k prev s caps
      else None
  end.
End Engine.

(** What a pattern can match, without the priorities: [r] matches
    between the position [(prev, s)] and the position [(prev', s')], and
    extends the closed groups from [caps] to [caps']. *)
Definition last_of (prev : option ascii) (a : str) : option ascii :=
  match last a with Some c => Some c | None => prev end.

Fixpoint Matches (r : regex) (prev : option ascii) (s : str)
    (caps : list str) (prev' : option ascii) (s' : str)
    (caps' : list str) : Prop :=
  match r with
  | REps => prev' = prev /\ s' = s /\ caps' = caps
  | RChar p =>
      exists c, s = c :: s' /\ p c = true /\ prev' = Some c /\ caps' = caps
  | RStar p =>
      exists a, s = a ++ s' /\ forallb p a = true
                /\ prev' = last_of prev a /\ caps' = caps
  | RPlus p | RPlusLazy p =>
      exists a, a <> [] /\ s = a ++ s' /\ forallb p a = true
                /\ prev' = last_of prev a /\ caps' = caps
  | RSeq r1 r2 =>
      exists pm sm cm, Matches r1 prev s caps pm sm cm
                       /\ Matches r2 pm sm cm prev' s' caps'
  | RGroup r1 =>
      exists cm, Matches r1 prev s caps prev' s' cm
                 /\ caps' = cm ++ [take (length s - length s') s]
  | RStart => prev = None /\ prev' = prev /\ s' = s /\ caps' = caps
  | REnd => (s = [] \/ s = [nl]) /\ prev' = prev /\ s' = s /\ caps' = caps
  | RWordB =>
      xorb (word_opt prev) (word_opt (head s)) = true
      /\ prev' = prev /\ s' = s /\ caps' = caps
  end.

(** [re.match(r, s)]: the groups of the first match at the start. *)
Definition re_match (r : regex) (s : str) : option (list str) :=
  run r None s [] (fun _ _ caps => Some caps).

(** Length of the match of [r] at a position, if there is one. *)
Definition match_len (r : regex) (prev : option ascii) (s : str)
    : option nat :=
  run r prev s [] (fun _ s' _ => Some (length s - length s')).

(** [re.sub(r, repl, s)] for a pattern that matches no empty string:
    scan from the left, replace a match and resume after it.  [skip]
    counts the characters of the current match still to pass over. *)
Fixpoint sub_from (r : regex) (repl : str) (skip : nat)
    (prev : option ascii) (s : str) : str :=
  match s with
  | [] => []
  | c :: s' =>
      match skip with
      | S n => sub_from r repl n (Some c) s'
      | O =>
          match match_len r prev s with
          | Some (S n) => repl ++ sub_from r repl n (Some c) s'
          | _ => c :: sub_from r repl 0 (Some c) s'
          end
      end
  end.

Definition re_sub (r : regex) (repl : str) (s : str) : str :=
  sub_from r repl 0 None s.

(** A pattern whose matches do not depend on the character before the
    position (it begins with a character and looks back at nothing
    else). *)
Definition local_pattern (r : regex) : Prop :=
  forall prev prev' s, match_len r prev s = match_len r prev' s.

End Regex.

(* ===================================================================== *)
(** * pipeline/util.py                                                    *)
(* ===================================================================== *)

Module Util.
Import Text Regex.

(** [[?#].*$] *)
Definition query_re : regex :=
  seq [RChar (fun c => ascii_eqb "?" c || ascii_eqb "#" c);
       RStar not_nl; REnd].

Definition normalize_url (u : str) : str :=
  let u := strip u in
  let u := re_sub query_re [] u in
  rstrip_char "/" u.

Definition is_az09 (c : ascii) : bool :=
  in_range 97 122 c || in_range 48 57 c.

(** [[^a-z0-9\s]+] *)
Definition junk (c : ascii) : bool := negb (is_az09 c || is_space c).
Definition junk_re : regex := RPlus junk.

Definition simple_tokens (s : str) : gset str :=
  let s := lower s in
  let s := re_sub junk_re " "%string s in
  let parts := filter (fun p => nonempty p = true /\ 2 < length p) (split s) in
  list_to_set parts.

(** The score is the exact quotient; see the conventions above. *)
Definition jaccard (a b : gset str) : Qc :=
  if decide (a = ∅ /\ b = ∅) then 1%Qc
  else if decide (a = ∅ \/ b = ∅) then 0%Qc
  else
    let inter := size (a ∩ b) in
    let union := size (a ∪ b) in
    if decide (union = 0) then 0%Qc
    else (Q2Qc (inject_Z (Z.of_nat inter)) / Q2Qc (inject_Z (Z.of_nat union)))%Qc.

(** The same quotient as CPython computes it: the binary64 nearest to
    [inter / union]; the literals 0.78 and 0.05 are the binary64 nearest
    to 78/100 and 5/100. *)
Definition f64_of_nat (n : nat) : spec_float :=
  binary_normalize 53 1024 (Z.of_nat n) 0 false.

Definition f64_quot (i u : nat) : spec_float :=
  SFdiv 53 1024 (f64_of_nat i) (f64_of_nat u).

Definition quot (i u : nat) : Qc :=
  (Q2Qc (inject_Z (Z.of_nat i)) / Q2Qc (inject_Z (Z.of_nat u)))%Qc.

(** Whether binary64 and the exact quotient decide the two thresholds
    alike for an intersection of [i] and a union of [u] tokens. *)
Definition thresholds_agree (i u : nat) : bool :=
  eqb (SFleb (f64_quot 78 100) (f64_quot i u))
      (bool_decide (Q2Qc (78 # 100) <= quot i u)%Qc)
  && eqb (SFltb (f64_quot 5 100) (f64_quot i u))
         (bool_decide (Q2Qc (5 # 100) < quot i u)%Qc).

(** Whether they order two quotients alike. *)
Definition order_agrees (i u j v : nat) : bool :=
  eqb (SFltb (f64_quot i u) (f64_quot j v))
      (bool_decide (quot i u < quot j v)%Qc).

(** All pairs [(i, u)] with [1 <= u <= n] and [i <= u]. *)
Definition quotients_upto (n : nat) : list (nat * nat) :=
  u ← List.seq 1 n; i ← List.seq 0 (S u); [(i, u)].

(** [(?is)<\s*script\b] *)
Definition script_re : regex :=
  seq [chr "<"; RStar is_space; lit_i "script"%string; RWordB].

Definition sanitize_llm_html (s : str) : str :=
  re_sub script_re "&lt;script"%string s.

End Util.

(* ===================================================================== *)
(** * Exceptions, dictionaries                                            *)
(* ===================================================================== *)

Inductive exn : Type :=
| RuntimeError (msg : string)
| TransportError (what : string).   (* raised by requests / ElementTree *)

(** A fallible result: [inl] is a raised exception. *)
Abbreviation result A := (exn + A)%type.

(** A JSON object with string values. *)
Abbreviation dict := (gmap string str).

(** [d.get(k, dflt)] *)
Definition dget (d : dict) (k : string) (dflt : str) : str :=
  default dflt (d !! k).

(** [x or y] on strings. *)
Definition str_or (x y : str) : str :=
  match x with [] => y | _ => x end.

(* ===================================================================== *)
(** * pipeline/reddit.py                                                  *)
(* ===================================================================== *)

Module Reddit.
Import Text.

Definition _safe_image (url : str) : str :=
  match url with
  | [] => []
  | _ =>
      let u := strip url in
      if contains "i.redd.it/"%string u then u
      else if contains "preview.redd.it/"%string u then u
      else []
  end.

(** The conditional expression under the key [hero_image_kind]. *)
Definition hero_image_kind (img : str) : str :=
  if contains "i.redd.it/"%string img then "reddit_image"%string
  else if contains "preview.redd.it/"%string img then "reddit_preview"%string
  else "none"%string.

(** One [<entry>] of the Atom document as ElementTree hands it over:
    the text of an element is [None] when the element is absent or has
    no text.  [ent_img] is the image reference found by lines 94-103
    (first [<img src>] of the unescaped content or summary, else the
    [media:thumbnail] URL), before the allowlist. *)
Record RawEntry : Type := {
  ent_title : option str;
  ent_href : option str;
  ent_summary : option str;
  ent_published : option str;
  ent_img : str
}.

Definition text_of (t : option str) : str := strip (default [] t).

Definition make_entry (rss_url : str) (ent : RawEntry) : option dict :=
  let title := text_of (ent_title ent) in
  let link := text_of (ent_href ent) in
  let summary := text_of (ent_summary ent) in
  let published := text_of (ent_published ent) in
  let img := _safe_image (ent_img ent) in
  if negb (nonempty title) || negb (nonempty link) then None
  else Some (list_to_map
    [("title"%string, title); ("link"%string, link);
     ("summary"%string, summary); ("published"%string, published);
     ("rss"%string, rss_url); ("hero_image"%string, img);
     ("hero_image_kind"%string, hero_image_kind img)]).

(** The loop over [root.findall("a:entry")], with its [continue] and
    its [break]. *)
Fixpoint collect_entries (rss_url : str) (max_items : Z)
    (entries : list dict) (ents : list RawEntry) : list dict :=
  match ents with
  | [] => entries
  | ent :: rest =>
      match make_entry rss_url ent with
      | None => collect_entries rss_url max_items entries rest
      | Some d =>
          let entries' := entries ++ [d] in
          if (max_items <=? Z.of_nat (length entries'))%Z then entries'
          else collect_entries rss_url max_items entries' rest
      end
  end.

(** [fetch_rss_entries] after the download: [doc] is the outcome of
    [requests.get], [raise_for_status] and [ET.fromstring]. *)
Definition fetch_rss_entries (doc : result (list RawEntry))
    (rss_url : str) (max_items : Z) : result (list dict) :=
  match doc with
  | inl e => inl e
  | inr ents => inr (collect_entries rss_url max_items [] ents)
  end.

End Reddit.

(* ===================================================================== *)
(** * pipeline/generate.py                                                *)
(* ===================================================================== *)

Module Generate.
Import Text Regex Util.

(** ** Pure helpers *)

Definition is_blocked (title : str) (blocked_kw : list str) : bool :=
  let t := lower title in
  existsb (fun kw => contains (lower kw) t) blocked_kw.

(** [a.get("id") == current.get("id")]: two absent ids are equal. *)
Definition same_id (a current : dict) : bool :=
  bool_decide (a !! "id"%string = current !! "id"%string).

(** [list.sort(key=..., reverse=True)] is stable and keeps the original
    order of equal keys; insertion from the right computes that order. *)
Fixpoint insert_desc {A} (x : Qc * A) (l : list (Qc * A)) : list (Qc * A) :=
  match l with
  | [] => [x]
  | y :: l' =>
      if bool_decide (x.1 < y.1)%Qc then y :: insert_desc x l'
      else x :: l
  end.

Definition sort_desc {A} (l : list (Qc * A)) : list (Qc * A) :=
  foldr insert_desc [] l.

Definition title_tokens (a : dict) : gset str :=
  simple_tokens (dget a "title" []).

Definition related_articles (current : dict) (articles : list dict)
    (k : nat) : list dict :=
  let cur_tok := title_tokens current in
  let scored :=
    omap (fun a => if same_id a current then None
                   else Some (jaccard cur_tok (title_tokens a), a))
         articles in
  let scored := sort_desc scored in
  omap (fun sa : Qc * dict =>
          if bool_decide (Q2Qc (5 # 100) < sa.1)%Qc then Some sa.2 else None)
       (take k scored).

(** The pattern [^ \s* TITLE: \s* (.+?) \s* \n \s* \n ( .* ) $] under the
    flags [i] and [s], tokens spaced out for reading. *)
Definition title_re : regex :=
  seq [RStart; RStar is_space; lit_i "TITLE:"%string; RStar is_space;
       RGroup (RPlusLazy any); RStar is_space; chr nl; RStar is_space;
       chr nl; RGroup (RStar any); REnd].

(** The part of [title_re] after its first group: the separator, the
    body, the end. *)
Definition sep_re : regex :=
  seq [RStar is_space; chr nl; RStar is_space; chr nl;
       RGroup (RStar any); REnd].

(** Lines 232-240 of [deepseek_article]: [(llm_title, llm_html)]. *)
Definition split_title_body (title out : str) : str * str :=
  let out := strip out in
  match re_match title_re out with
  | Some groups =>
      (strip (default [] (groups !! 0%nat)),
       strip (default [] (groups !! 1%nat)))
  | None => (title, out)
  end.

(** Lines 232-243: the value [deepseek_article] returns for the text
    [out] that the chat call gave. *)
Definition article_of_output (title out : str) : str * str :=
  let '(llm_title, llm_html) := split_title_body title out in
  (llm_title, sanitize_llm_html (str_or llm_html [])).

(** ** Configuration *)

(** The keys of [config.json] that the run controller reads itself; a
    field is [None] when the key is absent or [null].  The other keys
    (brand name, description, contact e-mail, site directory, caching
    of images) are read by the site builder only. *)
Record Config : Type := {
  blocked_keywords : option (list str);   (* safety.blocked_keywords *)
  reddit_rss : option (list str);         (* feeds.reddit_rss *)
  pick_random : bool;                     (* generation.pick_random *)
  base_url : option str                   (* site.base_url *)
}.

(** [data/last_run.json] *)
Record LastRun : Type := {
  updated_utc : str;
  homepage_url : str;
  created : bool;
  article_url : str;
  article_path : option str;
  article_title : str;
  source_url : str;
  note : option str
}.

(** A reading of the clock: ISO-8601 to the second, the date, and the
    POSIX time in decimal. *)
Record Time : Type := { iso : str; ymd : str; epoch : str }.

Inductive Event : Type :=
| EvRead (path : string)
| EvWrite (path : string)
| EvHttpGet (url : str)
| EvChat (title : str)
| EvBuildSite.

Section Run.
(** The generated tree under the site directory, with the cached
    images. *)
Context {Site : Type}.

(** The world outside the process. *)
Variable http_feed : str -> result (list Reddit.RawEntry).
Variable chat_completion : str -> str -> str -> result str.
Variable clock : nat -> Time.
Variable slugify : str -> str.
Variable random_index : nat -> nat.
Variable render_site : Config -> list dict -> Site -> Site * result unit.

Record World : Type := {
  lite_ran : option str;              (* ROOT/.lite_ran *)
  config_json : option Config;        (* ROOT/config.json *)
  processed_txt : option str;         (* ROOT/processed_urls.txt *)
  articles_json : option (list dict); (* ROOT/data/articles.json *)
  last_run_json : option LastRun;     (* ROOT/data/last_run.json *)
  site : Site;
  ticks : nat;                        (* readings of the clock so far *)
  trace : list Event                  (* effects so far, oldest first *)
}.

(** State and exceptions: an exception keeps the effects done before
    it was raised. *)
Definition M (A : Type) : Type := World -> World * result A.

#[local] Instance M_ret : MRet M := fun A x w => (w, inr x).
#[local] Instance M_bind : MBind M := fun A B f m w =>
  match m w with
  | (w', inl e) => (w', inl e)
  | (w', inr x) => f x w'
  end.

Definition raise {A} (e : exn) : M A := fun w => (w, inl e).
Definition gets {A} (f : World -> A) : M A := fun w => (w, inr (f w)).
Definition modify (f : World -> World) : M unit := fun w => (f w, inr tt).
Definition lift {A} (r : result A) : M A := fun w => (w, r).

Definition add_events (evs : list Event) (w : World) : World :=
  {| lite_ran := lite_ran w; config_json := config_json w;
     processed_txt := processed_txt w; articles_json := articles_json w;
     last_run_json := last_run_json w; site := site w;
     ticks := ticks w; trace := trace w ++ evs |}.

Definition log (ev : Event) : M unit := modify (add_events [ev]).

Definition set_processed (s : str) (w : World) : World :=
  {| lite_ran := lite_ran w; config_json := config_json w;
     processed_txt := Some s; articles_json := articles_json w;
     last_run_json := last_run_json w; site := site w;
     ticks := ticks w; trace := trace w |}.

Definition set_articles (l : list dict) (w : World) : World :=
  {| lite_ran := lite_ran w; config_json := config_json w;
     processed_txt := processed_txt w; articles_json := Some l;
     last_run_json := last_run_json w; site := site w;
     ticks := ticks w; trace := trace w |}.

Definition set_last_run (r : LastRun) (w : World) : World :=
  {| lite_ran := lite_ran w; config_json := config_json w;
     processed_txt := processed_txt w; articles_json := articles_json w;
     last_run_json := Some r; site := site w;
     ticks := ticks w; trace := trace w |}.

Definition set_lite_ran (s : str) (w : World) : World :=
  {| lite_ran := Some s; config_json := config_json w;
     processed_txt := processed_txt w; articles_json := articles_json w;
     last_run_json := last_run_json w; site := site w;
     ticks := ticks w; trace := trace w |}.

Definition set_site (s : Site) (w : World) : World :=
  {| lite_ran := lite_ran w; config_json := config_json w;
     processed_txt := processed_txt w; articles_json := articles_json w;
     last_run_json := last_run_json w; site := s;
     ticks := ticks w; trace := trace w |}.

Definition tick (w : World) : World :=
  {| lite_ran := lite_ran w; config_json := config_json w;
     processed_txt := processed_txt w; articles_json := articles_json w;
     last_run_json := last_run_json w; site := site w;
     ticks := S (ticks w); trace := trace w |}.

Definition now : M Time :=
  t ← gets (fun w => clock (ticks w)); modify tick;; mret t.

Definition now_utc_iso : M str := t ← now; mret (iso t).

(** ** Files *)

Definition PROCESSED_PATH : string := "processed_urls.txt".
Definition CONFIG_PATH : string := "config.json".
Definition ARTICLES_PATH : string := "data/articles.json".
Definition LAST_RUN_PATH : string := "data/last_run.json".
Definition LITE_RAN_FLAG : string := ".lite_ran".

(** [read_text(PROCESSED_PATH)] *)
Definition read_processed_text : M str :=
  f ← gets processed_txt;
  match f with
  | Some s => log (EvRead PROCESSED_PATH);; mret s
  | None => mret []
  end.

Definition load_config : M Config :=
  f ← gets config_json;
  match f with
  | None => raise (RuntimeError "config.json not found")
  | Some c => log (EvRead CONFIG_PATH);; mret c
  end.

(** The set that [load_processed] builds from the lines of the file. *)
Definition processed_of_lines (lines : list str) : gset str :=
  list_to_set
    (map normalize_url
       (filter (fun x => nonempty (strip x) = true) lines)).

Definition processed_of_text (s : str) : gset str :=
  processed_of_lines (splitlines s).

Definition load_processed : M (gset str) :=
  s ← read_processed_text; mret (processed_of_text s).

Definition append_processed (url : str) : M unit :=
  let url := normalize_url url in
  existing ← load_processed;
  if bool_decide (url ∈ existing) then mret tt
  else
    current ← read_processed_text;
    let current := rstrip current in
    let current :=
      if nonempty (strip current) then current ++ [nl] else current in
    let current := current ++ url ++ [nl] in
    log (EvWrite PROCESSED_PATH);; modify (set_processed current).

(** [read_json(ARTICLES_PATH, default=[])] *)
Definition read_articles : M (list dict) :=
  f ← gets articles_json;
  match f with
  | Some l => log (EvRead ARTICLES_PATH);; mret l
  | None => mret []
  end.

(** ** Candidate picking *)

Definition fetch_rss_entries (rss : str) : M (list dict) :=
  log (EvHttpGet rss);;
  lift (Reddit.fetch_rss_entries (http_feed rss) rss 25).

(** The body of the inner loop for one entry: [None] is [continue]. *)
Definition consider (blocked_kw : list str) (processed : gset str)
    (prev_tok : list (gset str)) (e : dict) : option dict :=
  let link := normalize_url (dget e "link" []) in
  let title := dget e "title" [] in
  if negb (nonempty link) || bool_decide (link ∈ processed) then None
  else if is_blocked title blocked_kw then None
  else
    let tok := simple_tokens title in
    let too_similar :=
      existsb (fun pt => bool_decide (Q2Qc (78 # 100) <= jaccard tok pt)%Qc)
              prev_tok in
    if too_similar then None
    else
      let e := <["image_url"%string := str_or (dget e "hero_image" []) []]> e in
      let e := <["image_kind"%string :=
                   str_or (dget e "hero_image_kind" "none"%string)
                          "none"%string]> e in
      Some e.

Fixpoint scan_entries (blocked_kw : list str) (processed : gset str)
    (prev_tok : list (gset str)) (candidates : list dict)
    (es : list dict) : list dict :=
  match es with
  | [] => candidates
  | e :: es' =>
      match consider blocked_kw processed prev_tok e with
      | None => scan_entries blocked_kw processed prev_tok candidates es'
      | Some e' =>
          scan_entries blocked_kw processed prev_tok (candidates ++ [e']) es'
      end
  end.

Fixpoint scan_feeds (blocked_kw : list str) (processed : gset str)
    (prev_tok : list (gset str)) (candidates : list dict)
    (rss_list : list str) : M (list dict) :=
  match rss_list with
  | [] => mret candidates
  | rss :: rest =>
      es ← fetch_rss_entries rss;
      scan_feeds blocked_kw processed prev_tok
        (scan_entries blocked_kw processed prev_tok candidates es) rest
  end.

Definition pick_candidate (cfg : Config) (processed : gset str)
    (articles : list dict) : M (option dict) :=
  let blocked_kw := default [] (blocked_keywords cfg) in
  let rss_list := default [] (reddit_rss cfg) in
  match rss_list with
  | [] => raise (RuntimeError
            "config.feeds.reddit_rss is empty. Add at least one RSS URL.")
  | _ =>
      let prev_titles := map (fun a => dget a "title" []) articles in
      let prev_tok :=
        map simple_tokens
            (filter (fun t => nonempty t = true) prev_titles) in
      candidates ← scan_feeds blocked_kw processed prev_tok [] rss_list;
      match candidates with
      | [] => mret None
      | first :: _ =>
          if pick_random cfg then
            mret (candidates !! (random_index (length candidates)
                                  `mod` length candidates))
          else mret (Some first)
      end
  end.

(** ** Generation *)

(** [DeepSeekClient.chat] returns the stripped content. *)
Definition chat (title link summary : str) : M str :=
  log (EvChat title);;
  out ← lift (chat_completion title link summary);
  mret (strip out).

Definition deepseek_article (item : dict) : M (str * str) :=
  let title := strip (dget item "title" []) in
  let link := strip (dget item "link" []) in
  let summary := strip (str_or (dget item "summary" []) []) in
  out ← chat title link summary;
  mret (article_of_output title out).

(** ** Site build and run summary *)

Definition write_site (cfg : Config) (articles : list dict) : M unit :=
  fun w =>
    let '(s, r) := render_site cfg articles (site w) in
    (set_site s w, r).

Definition build_site (cfg : Config) (articles : list dict) : M unit :=
  log EvBuildSite;; write_site cfg articles.

Definition write_last_run (cfg : Config) (mk : str -> str -> LastRun)
    : M unit :=
  let base := rstrip_char "/" (default [] (base_url cfg)) in
  t ← now_utc_iso;
  log (EvWrite LAST_RUN_PATH);;
  modify (set_last_run (mk t (base ++ "/"%string))).

Definition write_flag : M unit :=
  t ← now_utc_iso;
  log (EvWrite LITE_RAN_FLAG);;
  modify (set_lite_ran (t ++ [nl])).

(** ** The run *)

Definition new_entry (cand : dict) (llm_title body_html : str)
    (ts : Time) (slug : str) : dict :=
  let path := "/articles/"%string ++ ymd ts ++ "-"%string ++ slug
              ++ ".html"%string in
  list_to_map
    [("id"%string, ymd ts ++ "-"%string ++ slug);
     ("title"%string, str_or llm_title (dget cand "title" []));
     ("path"%string, path);
     ("published_ts"%string, iso ts);
     ("source_url"%string, dget cand "link" []);
     ("rss"%string, dget cand "rss" []);
     ("summary"%string, dget cand "summary" []);
     ("body_html"%string, body_html);
     ("hero_image"%string, str_or (dget cand "image_url" []) []);
     ("hero_image_kind"%string,
      str_or (dget cand "image_kind" "none"%string) "none"%string)].

Definition no_candidate (cfg : Config) (articles : list dict) : M unit :=
  build_site cfg articles;;
  write_last_run cfg (fun t home =>
    {| updated_utc := t; homepage_url := home; created := false;
       article_url := []; article_path := None; article_title := [];
       source_url := [];
       note := Some ("No new candidate found. Site rebuilt."%string : str) |});;
  write_flag.

Definition main : M unit :=
  flag ← gets lite_ran;
  match flag with
  | Some _ =>
      raise (RuntimeError
        "Lite edition: this repository can only be executed once.")
  | None =>
      cfg ← load_config;
      let base := strip (str_or (default [] (base_url cfg)) []) in
      if negb (nonempty base) then
        raise (RuntimeError "config.site.base_url is missing")
      else
        processed ← load_processed;
        articles ← read_articles;
        cand ← pick_candidate cfg processed articles;
        match cand with
        | None => no_candidate cfg articles
        | Some cand =>
            if bool_decide (cand = ∅) then no_candidate cfg articles
            else
              '(llm_title, body_html) ← deepseek_article cand;
              ts ← now;
              let slug :=
                str_or (take 80 (slugify
                          (str_or llm_title (dget cand "title" []))))
                       ("post-"%string ++ epoch ts) in
              let path := "/articles/"%string ++ ymd ts ++ "-"%string
                          ++ slug ++ ".html"%string in
              let url := rstrip_char "/" base ++ path in
              let entry := new_entry cand llm_title body_html ts slug in
              append_processed (dget cand "link" []);;
              let articles := entry :: articles in
              log (EvWrite ARTICLES_PATH);;
              modify (set_articles articles);;
              build_site cfg articles;;
              write_last_run cfg (fun t home =>
                {| updated_utc := t; homepage_url := home; created := true;
                   article_url := url; article_path := Some path;
                   article_title := dget cand "title" [];
                   source_url := dget cand "link" []; note := None |});;
              write_flag
        end
  end.

End Run.

End Generate.

(* ===================================================================== *)
(** * Sample data                                                         *)
(* ===================================================================== *)

(** Concrete inputs on which the statements below are exercised. *)
Module Samples.
Import Text Reddit Generate.

Definition article (id title url : string) : dict :=
  list_to_map [("id"%string, (id : str)); ("title"%string, (title : str));
               ("source_url"%string, (url : str))].

Definition art_rocket : dict :=
  article "2024-01-01-rocket" "SpaceX launches new rocket today"
          "https://example.com/rocket".
Definition art_rocket2 : dict :=
  article "2024-01-02-rocket" "SpaceX launches new rocket this morning"
          "https://example.com/rocket2".
Definition art_pasta : dict :=
  article "2024-01-03-pasta" "Cooking pasta at home"
          "https://example.com/pasta".

Definition archive : list dict := [art_rocket; art_rocket2; art_pasta].

(** A feed with one post whose title has no token and an archive with
    one article that has no title. *)
Definition short_post : RawEntry :=
  {| ent_title := Some ("Hi"%string : str);
     ent_href := Some ("https://example.com/hi"%string : str);
     ent_summary := None; ent_published := None; ent_img := [] |}.

Definition feed_url : str := "https://www.reddit.com/r/x/.rss"%string.

Definition untitled : dict := {[ "id"%string := ("2024-01-01-x"%string : str) ]}.

Definition cfg_one_feed : Config :=
  {| blocked_keywords := None; reddit_rss := Some [feed_url];
     pick_random := false;
     base_url := Some ("https://me.github.io/site"%string : str) |}.

Definition cfg_no_feed : Config :=
  {| blocked_keywords := None; reddit_rss := Some [];
     pick_random := false;
     base_url := Some ("https://me.github.io/site"%string : str) |}.

Definition feed_of (ents : list RawEntry) (rss : str)
    : result (list RawEntry) := inr ents.

Definition first_index (n : nat) : nat := 0.

(** A first run on an empty deployment. *)
Definition fresh (cfg : Config) : World (Site:=unit) :=
  {| lite_ran := None; config_json := Some cfg; processed_txt := None;
     articles_json := None; last_run_json := None; site := tt;
     ticks := 0; trace := [] |}.

(** The deployment after a completed run. *)
Definition already_ran (cfg : Config) : World (Site:=unit) :=
  {| lite_ran := Some ("2024-01-01T12:00:00+00:00"%string : str);
     config_json := Some cfg; processed_txt := None;
     articles_json := None; last_run_json := None; site := tt;
     ticks := 0; trace := [] |}.

(** A post whose link has a blank before its query string. *)
Definition spaced_link : str := "https://example.com/post ?ref=rss"%string.

Definition spaced_post : RawEntry :=
  {| ent_title := Some ("A post about rockets"%string : str);
     ent_href := Some spaced_link;
     ent_summary := None; ent_published := None; ent_img := [] |}.

Definition reply (title link summary : str) : result str :=
  inr (("TITLE: Rockets"%string : str) ++ [nl; nl]
       ++ ("<p>Body</p>"%string : str)).

Definition noon (n : nat) : Time :=
  {| iso := "2024-01-01T12:00:00+00:00"%string;
     ymd := "2024-01-01"%string; epoch := "1704110400"%string |}.

Definition slug (s : str) : str := "rockets"%string.

Definition render_nothing (cfg : Config) (articles : list dict) (s : unit)
    : unit * result unit := (s, inr tt).

Definition first_run : World (Site:=unit) * result unit :=
  main (feed_of [spaced_post]) reply noon slug first_index render_nothing
       (fresh cfg_one_feed).

Definition sample_entry : RawEntry :=
  {| ent_title := Some ("A post"%string : str);
     ent_href := Some ("https://www.reddit.com/r/x/1/"%string : str);
     ent_summary := None; ent_published := None;
     ent_img := ("https://preview.redd.it/abc.jpg?width=640"%string : str) |}.

End Samples.

(* ===================================================================== *)
(** * The specification's vocabulary                                      *)
(* ===================================================================== *)

(** Definitions written from the words of the specification, against
    which the functions above are compared. *)
Module Spec.
Import Text Regex Util Generate.

(** [n] occurs in [h] as a substring. *)
Definition substring (n h : str) : Prop := exists a b, h = a ++ n ++ b.

(** Case-insensitive substring match. *)
Definition substring_ci (n h : str) : Prop := substring (lower n) (lower h).

(** Reference Jaccard similarity: 1 if both sets are empty, 0 if exactly
    one is, else |intersection| / |union|. *)
Definition jaccard_ref (a b : gset str) : Qc :=
  if decide (a = ∅ /\ b = ∅) then 1%Qc
  else if decide ((a = ∅ /\ b <> ∅) \/ (a <> ∅ /\ b = ∅)) then 0%Qc
  else (Q2Qc (inject_Z (Z.of_nat (size (a ∩ b))))
        / Q2Qc (inject_Z (Z.of_nat (size (a ∪ b)))))%Qc.

(** Token extraction: lowercase, every character outside [a-z0-9] and
    whitespace becomes a blank, split on whitespace, keep the tokens
    longer than 2, as a set. *)
Definition blank (c : ascii) : ascii :=
  if is_az09 c || is_space c then c else " "%char.

(** Whether a text is empty or begins with whitespace. *)
Definition sp_head (s : str) : bool :=
  match s with [] => true | c :: _ => is_space c end.

Definition tokens_ref (s : str) : gset str :=
  list_to_set (filter (fun p => 2 < length p) (split (map blank (lower s)))).

(** The host of a URL: what stands between [://] and the next [/], [?]
    or [#]. *)
Fixpoint after_scheme (u : str) : str :=
  match u with
  | [] => []
  | c :: u' => if starts_with "://"%string u then drop 3 u else after_scheme u'
  end.

Fixpoint take_host (u : str) : str :=
  match u with
  | [] => []
  | c :: u' =>
      if ascii_eqb "/" c || ascii_eqb "?" c || ascii_eqb "#" c then []
      else c :: take_host u'
  end.

Definition url_host (u : str) : str := take_host (after_scheme u).

Definition trusted_host (u : str) : Prop :=
  url_host u = ("i.redd.it"%string : str)
  \/ url_host u = ("preview.redd.it"%string : str).

Definition is_Some_b {A} (o : option A) : bool :=
  match o with Some _ => true | None => false end.

(** A script tag opener as the sanitiser understands it: [<], optional
    whitespace, the word [script] in any letter case, and then the end
    of the text or a character that is not a word character. *)
Definition at_boundary (s : str) : Prop :=
  match s with [] => True | c :: _ => is_word c = false end.

Definition script_opener (m : str) : Prop :=
  exists ws w, m = "<"%char :: ws ++ w
               /\ Forall (fun c => is_space c = true) ws
               /\ lower w = ("script"%string : str).

Definition opener_at_head (s : str) : Prop :=
  exists m b, s = m ++ b /\ script_opener m /\ at_boundary b.

Definition has_script_opener (s : str) : Prop :=
  exists a m b, s = a ++ m ++ b /\ script_opener m /\ at_boundary b.

(** The same, decided by trying the pattern at every position. *)
Fixpoint any_opener (s : str) : bool :=
  match s with
  | [] => false
  | _ :: s' => is_Some_b (match_len script_re None s) || any_opener s'
  end.

(** A text that neither begins nor ends with whitespace. *)
Definition trimmed (t : str) : Prop :=
  match t with [] => True | c :: _ => is_space c = false end
  /\ match last t with None => True | Some c => is_space c = false end.

(** The two-part format of the model output, with the latitude the
    parser gives it: optional leading whitespace, [TITLE:] in any letter
    case, a non-empty title text, and a separator of two line feeds that
    only whitespace may surround. *)
Definition all_space (w : str) : Prop := Forall (fun c => is_space c = true) w.

Definition two_part (s title body : str) : Prop :=
  exists w0 h w1 w2 w3,
    s = w0 ++ h ++ w1 ++ title ++ w2 ++ [nl] ++ w3 ++ [nl] ++ body
    /\ all_space w0 /\ lower h = ("title:"%string : str)
    /\ all_space w1 /\ title <> [] /\ all_space w2 /\ all_space w3.

Definition has_two_part_format (s : str) : Prop :=
  exists title body, two_part s title body.

(** The exact format: the line [TITLE: <text>], an empty line, the
    body. *)
Definition exact_format (text body : str) : str :=
  ("TITLE: "%string : str) ++ text ++ [nl; nl] ++ body.

Definition single_line (t : str) : Prop := nl ∉ t.

Definition in_exact_format (out : str) : Prop :=
  exists text body, single_line text /\ out = exact_format text body.

(** Exclusion of a feed entry, after the list of the specification. *)
Definition near_duplicate (title : str) (articles : list dict) : Prop :=
  exists a, a ∈ articles
    /\ (Q2Qc (78 # 100) <= jaccard (simple_tokens title) (title_tokens a))%Qc.

Definition near_duplicate_titled (title : str) (articles : list dict) : Prop :=
  exists a, a ∈ articles /\ dget a "title" [] <> []
    /\ (Q2Qc (78 # 100) <= jaccard (simple_tokens title) (title_tokens a))%Qc.

Definition link_seen (processed : gset str) (e : dict) : Prop :=
  normalize_url (dget e "link" []) = []
  \/ normalize_url (dget e "link" []) ∈ processed.

Definition keyword_blocked (cfg : Config) (e : dict) : Prop :=
  exists kw, kw ∈ default [] (blocked_keywords cfg)
    /\ substring_ci kw (dget e "title" []).

(** Exclusion as the specification lists it. *)
Definition excluded_spec (cfg : Config) (processed : gset str)
    (articles : list dict) (e : dict) : Prop :=
  link_seen processed e \/ keyword_blocked cfg e
  \/ near_duplicate (dget e "title" []) articles.

(** Exclusion as the code decides it: past articles with an empty or
    absent title take no part in the comparison. *)
Definition excluded (cfg : Config) (processed : gset str)
    (articles : list dict) (e : dict) : Prop :=
  link_seen processed e \/ keyword_blocked cfg e
  \/ near_duplicate_titled (dget e "title" []) articles.

(** The first element of [l], in order, that is not excluded. *)
Definition first_surviving (P : dict -> Prop) (l : list dict)
    (r : option dict) : Prop :=
  (r = None /\ Forall P l)
  \/ (exists pre e post, l = pre ++ e :: post /\ Forall P pre
                         /\ ~ P e /\ r = Some e).

(** The two keys [pick_candidate] adds to the entry it keeps. *)
Definition with_image (e : dict) : dict :=
  let e := <["image_url"%string := dget e "hero_image" []]> e in
  <["image_kind"%string :=
      str_or (dget e "hero_image_kind" "none"%string) "none"%string]> e.

(** Similarity of an archived article to the current one. *)
Definition similarity (current a : dict) : Qc :=
  jaccard (title_tokens current) (title_tokens a).

(** Ranking order on archive positions: higher similarity first, and
    among equals the earlier position first. *)
Definition ranked_before (current : dict) (articles : list dict)
    (i j : nat) : Prop :=
  exists a b, articles !! i = Some a /\ articles !! j = Some b
    /\ ((similarity current b < similarity current a)%Qc
        \/ (similarity current a = similarity current b /\ i < j)).

(** The same ranking with every article paired with its position in
    the archive. *)
Fixpoint indexed_from (n : nat) (l : list dict) : list (nat * dict) :=
  match l with
  | [] => []
  | a :: l' => (n, a) :: indexed_from (S n) l'
  end.

Definition score_indexed (current : dict) (ia : nat * dict)
    : option (Qc * (nat * dict)) :=
  if same_id ia.2 current then None
  else Some (similarity current ia.2, ia).

Definition keep_indexed (x : Qc * (nat * dict)) : option (nat * dict) :=
  if bool_decide (Q2Qc (5 # 100) < x.1)%Qc then Some x.2 else None.

Definition related_indexed (current : dict) (articles : list dict)
    (k : nat) : list (nat * dict) :=
  omap keep_indexed
    (take k (sort_desc (omap (score_indexed current)
                             (indexed_from 0 articles)))).

Definition forget_index (x : Qc * (nat * dict)) : Qc * dict := (x.1, x.2.2).

(** Order of the scored and indexed articles. *)
Definition scored_before (x y : Qc * (nat * dict)) : Prop :=
  (y.1 < x.1)%Qc \/ (x.1 = y.1 /\ x.2.1 < y.2.1).

(** The text that [append_processed] writes for a normalized [url]
    that is not in the set yet. *)
Definition appended_text (current url : str) : str :=
  let current := rstrip current in
  let current :=
    if nonempty (strip current) then current ++ [nl] else current in
  current ++ url ++ [nl].

(** A normalized link that the processed file can hold on one line and
    give back unchanged. *)
Definition storable (n : str) : Prop :=
  Forall (fun c => is_linebreak c = false) n
  /\ strip n <> [] /\ normalize_url n = n.

(** The invariant of the processed-link set on the persisted state. *)
Definition links_recorded (articles : list dict) (processed_text : str)
    : Prop :=
  forall a, a ∈ articles ->
    normalize_url (dget a "source_url" []) ∈ processed_of_text processed_text.

End Spec.

(* ===================================================================== *)
(** * pipeline/generate.py: the helpers of the site build                 *)
(* ===================================================================== *)

Module SiteBuild.
Import Text Regex Util Generate.

(** Python's order on [str]: lexicographic on the code points, a proper
    prefix first. *)
Fixpoint str_ltb (a b : str) : bool :=
  match a, b with
  | _, [] => false
  | [], _ :: _ => true
  | x :: a', y :: b' =>
      (code x <? code y)%N || ((code x =? code y)%N && str_ltb a' b')
  end.

(** The sort key [a.get("published_ts", "")]. *)
Definition published_ts (a : dict) : str := dget a "published_ts" [].

(** [sorted(articles, key=..., reverse=True)]: stable, like the sort of
    [related_articles], on string keys. *)
Fixpoint insert_recent (x : dict) (l : list dict) : list dict :=
  match l with
  | [] => [x]
  | y :: l' =>
      if str_ltb (published_ts x) (published_ts y) then y :: insert_recent x l'
      else x :: l
  end.

Definition compute_rankings (articles : list dict) : list dict :=
  foldr insert_recent [] articles.

(** The articles of the feed, [sorted(...)[:limit]] in [write_rss_feed],
    which is also what [build_site] lists as ranking and as new
    articles with the limit 10. *)
Definition feed_items (articles : list dict) (limit : nat) : list dict :=
  take limit (compute_rankings articles).

(** [s.endswith(suffix)] *)
Definition ends_with (suffix s : str) : bool :=
  starts_with (rev suffix) (rev s).

Definition image_exts : list str :=
  [(".jpg"%string : str); (".jpeg"%string : str); (".png"%string : str);
   (".webp"%string : str)].

(** [get_site_dir], as the path that is joined to [ROOT]: [site_dir] is
    the value of [cfg.site.site_dir], [None] when the key is absent or
    null.  The empty path stands for [ROOT] itself. *)
Definition get_site_dir (site_dir : option str) : str :=
  let site_dir_str := strip (str_or (default [] site_dir) "docs"%string) in
  lstrip_by (fun c => ascii_eqb "." c || ascii_eqb "/" c) site_dir_str.

(** The files below [site_dir/og], by name, and what the function did to
    the disk and the network. *)
Inductive OgEvent : Type :=
| OgMkdir (name : str)          (* out_path.parent.mkdir(...) *)
| OgDownload (url : str)
| OgWrite (name : str).

Record OgDisk : Type := {
  og_files : gmap str str;
  og_trace : list OgEvent
}.

Section Og.
(** [urlparse(u).path], or [None] when [urlparse] raises; and the
    download of an image, which gives its bytes or raises. *)
Variable url_path : str -> option str.
Variable urlopen : str -> result str.

Definition _guess_ext_from_url (u : str) : str :=
  let path := match url_path u with Some p => lower p | None => [] end in
  default (".jpg"%string : str)
          (List.find (fun ext => ends_with ext path) image_exts).

Definition og_log (ev : OgEvent) (d : OgDisk) : OgDisk :=
  {| og_files := og_files d; og_trace := og_trace d ++ [ev] |}.

Definition og_write (name data : str) (d : OgDisk) : OgDisk :=
  {| og_files := <[name := data]> (og_files d);
     og_trace := og_trace d ++ [OgWrite name] |}.

(** [cache_og_image]; the file [out_path] is [og/<id><ext>] below the
    site directory, and [name] is its name [<id><ext>].  The user agent
    of the request, which [cfg] gives, has no part in the result. *)
Definition cache_og_image (base_url src_url article_id : str) (d : OgDisk)
    : OgDisk * str :=
  let src_url := strip (str_or src_url []) in
  if negb (nonempty src_url) then (d, [])
  else
    let ext := _guess_ext_from_url src_url in
    let rel := ("/og/"%string : str) ++ article_id ++ ext in
    let name := article_id ++ ext in
    let d := og_log (OgMkdir name) d in
    match og_files d !! name with
    | Some _ => (d, rstrip_char "/" base_url ++ rel)
    | None =>
        let d := og_log (OgDownload src_url) d in
        match urlopen src_url with
        | inl _ => (d, [])
        | inr data =>
            ((if nonempty data then og_write name data d else d),
             rstrip_char "/" base_url ++ rel)
        end
    end.
End Og.

(** [(?is)<[^>]+>] and [\s+] *)
Definition tag_re : regex :=
  seq [chr "<"; RPlus (fun c => negb (ascii_eqb ">" c)); chr ">"].

Definition ws_re : regex := RPlus is_space.

(** The description of a feed item, lines 273-275 of [write_rss_feed]:
    the summary of the article, or else the text of its body without
    tags, at most 240 characters of it. *)
Definition feed_summary (a : dict) : str :=
  let summary := str_or (dget a "summary" []) [] in
  if nonempty summary then summary
  else
    take 240 (strip (re_sub ws_re " "%string
                       (re_sub tag_re " "%string (dget a "body_html" [])))).

End SiteBuild.

(* ===================================================================== *)
(** * pipeline/deepseek.py                                                *)
(* ===================================================================== *)

Module Deepseek.
Import Text.

(** [DeepSeekClient]: the key given or else the one of the environment,
    and the base URL without its final slashes. *)
Record DeepSeekClient : Type := { api_key : str; ds_base_url : str }.

Definition new_client (key env_key : option str) (base_url : str)
    : DeepSeekClient :=
  {| api_key := str_or (default [] key) (default [] env_key);
     ds_base_url := rstrip_char "/" base_url |}.

(** [DeepSeekClient.chat]: [post url] is the outcome of the request, of
    [raise_for_status] and of the look-up of the content in the reply
    ([None] for a null content).  The first component lists the URLs
    requested. *)
Definition client_chat (post : str -> result (option str))
    (c : DeepSeekClient) : list str * result str :=
  if negb (nonempty (api_key c)) then
    ([], inl (RuntimeError
       "Missing DEEPSEEK_API_KEY (set GitHub Secrets: DEEPSEEK_API_KEY)"))
  else
    let url := ds_base_url c ++ ("/chat/completions"%string : str) in
    match post url with
    | inl e => ([url], inl e)
    | inr content => ([url], inr (strip (str_or (default [] content) [])))
    end.

End Deepseek.

(* ===================================================================== *)
(** * Terms of the further properties                                     *)
(* ===================================================================== *)

Module Terms.
Import Text Regex Util Reddit Generate SiteBuild Spec.

(** The two characters that start the part [normalize_url] removes. *)
Definition is_query_start (c : ascii) : bool :=
  ascii_eqb "?" c || ascii_eqb "#" c.

(** A text without whitespace, and one that has no [?] or [#] either. *)
Definition no_space (u : str) : Prop := Forall (fun c => is_space c = false) u.

Definition no_query (u : str) : Prop :=
  Forall (fun c => is_query_start c = false) u.

(** The keys of a feed entry. *)
Definition entry_keys : gset string :=
  {[ "title"; "link"; "summary"; "published"; "rss"; "hero_image";
     "hero_image_kind" ]}%string.

(** The number of entries the loop of [fetch_rss_entries] can return:
    the length is tested after an entry is added, so a bound below 1
    still lets one entry through. *)
Definition entry_limit (max_items : Z) : nat := Z.to_nat (Z.max 1 max_items).


(** No article comes before one with a later timestamp. *)
Definition recent_first (x y : dict) : Prop :=
  str_ltb (published_ts x) (published_ts y) = false.

(** A text in which whitespace only occurs as single blanks between
    other characters or at the end. *)
Fixpoint single_spaced (s : str) : bool :=
  match s with
  | [] => true
  | c :: s' =>
      (if is_space c
       then ascii_eqb " " c
            && negb (match s' with [] => false | d :: _ => is_space d end)
       else true)
      && single_spaced s'
  end.

Section Outcome.
Context {Site : Type}.
Variable render_site : Config -> list dict -> Site -> Site * result unit.
Implicit Types (w : World (Site:=Site)).


(** The set that [load_processed] reads in a world. *)
Definition processed_in w : gset str :=
  processed_of_text (default [] (processed_txt w)).






End Outcome.

End Terms.

(* ===================================================================== *)
(** * More sample data                                                    *)
(* ===================================================================== *)

Module Cases.
Import Text Reddit Generate Samples.

(** The link of the specification's example of normalization. *)
Definition query_link : str := "https://x.com/a/?q=1#frag"%string.

(** A feed that cannot be fetched, after one that can. *)
Definition broken_url : str := "https://www.reddit.com/r/gone/.rss"%string.

Definition flaky_feed (rss : str) : result (list RawEntry) :=
  if bool_decide (rss = broken_url) then inl (TransportError "503")
  else inr [short_post].

Definition cfg_two_feeds : Config :=
  {| blocked_keywords := None; reddit_rss := Some [feed_url; broken_url];
     pick_random := false;
     base_url := Some ("https://me.github.io/site"%string : str) |}.

Definition cfg_random : Config :=
  {| blocked_keywords := None; reddit_rss := Some [feed_url];
     pick_random := true;
     base_url := Some ("https://me.github.io/site"%string : str) |}.


(** A reply of the generation service that is blank. *)
Definition blank_reply (title link summary : str) : result str :=
  inr (" "%char :: [nl]).

Definition post_item : dict :=
  {[ "title"%string := ("A post about rockets"%string : str) ]}.

(** An archived article without a summary. *)
Definition plain_article : dict :=
  {[ "body_html"%string := ("<p>Hello   world</p>"%string : str) ]}.

Definition ordinary_link : str :=
  "https://example.com/post/?ref=rss#top"%string.

End Cases.

(* ===================================================================== *)
(** * The alphabet, and the readings of the two-part format              *)
(* ===================================================================== *)

Module Reading.
Import Text Regex Util Generate Spec.

(** The alphabet of the texts of this file: code points below 256. *)
Definition latin1 (s : str) : Prop := Forall (fun c => (code c < 256)%N) s.

(** A reading of a text in the two-part format: [w1] is the whitespace
    between the header and the title. *)
Definition reading (s w1 title body : str) : Prop :=
  exists w0 h w2 w3,
    s = w0 ++ h ++ w1 ++ title ++ w2 ++ [nl] ++ w3 ++ [nl] ++ body
    /\ all_space w0 /\ lower h = ("title:"%string : str)
    /\ all_space w1 /\ title <> [] /\ all_space w2 /\ all_space w3.

(** The reading that the parser takes: after the header the longest
    whitespace that leaves a reading, and then the shortest title. *)
Definition first_reading (s title body : str) : Prop :=
  exists w1, reading s w1 title body
    /\ forall w1' title' body', reading s w1' title' body' ->
         length w1' < length w1
         \/ (length w1' = length w1 /\ length title <= length title').

End Reading.

(* ===================================================================== *)
(** * Facts about strings                                                 *)
(* ===================================================================== *)

Module TextFacts.
Import Text Spec.

Lemma ascii_eqb_eq (a b : ascii) : ascii_eqb a b = true <-> a = b.
Proof.
  unfold ascii_eqb, code. rewrite N.eqb_eq. split; [|by intros ->].
  intros H. rewrite <- (ascii_N_embedding a), <- (ascii_N_embedding b).
  by rewrite H.
Qed.

Lemma ascii_eqb_refl (a : ascii) : ascii_eqb a a = true.
Proof. by apply ascii_eqb_eq. Qed.

Lemma ascii_eqb_neq (a b : ascii) : ascii_eqb a b = false <-> a <> b.
Proof.
  rewrite <- ascii_eqb_eq. destruct (ascii_eqb a b); split; congruence.
Qed.

Lemma starts_with_spec (p s : str) :
  starts_with p s = true <-> exists b, s = p ++ b.
Proof.
  revert s. induction p as [|a p IH]; intros s; simpl.
  - split; [eauto|done].
  - destruct s as [|c s].
    + split; [done|]. intros [b Hb]. discriminate.
    + rewrite andb_true_iff, ascii_eqb_eq, IH. split.
      * intros [-> [b ->]]. eauto.
      * intros [b Hb]. injection Hb as -> ->. eauto.
Qed.

Lemma contains_spec (n h : str) :
  contains n h = true <-> substring n h.
Proof.
  unfold substring. induction h as [|c h IH]; simpl.
  - rewrite orb_false_r, starts_with_spec. split.
    + intros [b Hb]. exists [], b. done.
    + intros (a & b & Hab). symmetry in Hab.
      apply app_eq_nil in Hab as [-> Hab]. apply app_eq_nil in Hab as [-> ->].
      by exists [].
  - rewrite orb_true_iff, starts_with_spec, IH. split.
    + intros [[b Hb]|(a & b & ->)].
      * exists [], b. done.
      * exists (c :: a), b. done.
    + intros (a & b & Hab). destruct a as [|c' a].
      * left. exists b. done.
      * right. injection Hab as -> ->. eauto.
Qed.

Lemma drop_while_app_all (p : ascii -> bool) (a b : str) :
  forallb p a = true -> drop_while p (a ++ b) = drop_while p b.
Proof.
  induction a as [|c a IH]; simpl; [done|].
  intros [Hc Ha]%andb_true_iff. rewrite Hc. auto.
Qed.

Lemma drop_while_stop (p : ascii -> bool) (c : ascii) (s : str) :
  p c = false -> drop_while p (c :: s) = c :: s.
Proof. simpl. by intros ->. Qed.

Lemma drop_while_split (p : ascii -> bool) (s : str) :
  exists a, s = a ++ drop_while p s /\ forallb p a = true.
Proof.
  induction s as [|c s (a & Ha & Hp)]; simpl.
  - by exists [].
  - destruct (p c) eqn:Hc.
    + exists (c :: a). simpl. rewrite Hc, Hp. split; [congruence|done].
    + by exists [].
Qed.

Lemma drop_while_head (p : ascii -> bool) (s : str) :
  match drop_while p s with [] => True | c :: _ => p c = false end.
Proof.
  induction s as [|c s IH]; simpl; [done|].
  destruct (p c) eqn:Hc; [done|]. done.
Qed.

Lemma drop_while_length (p : ascii -> bool) (s : str) :
  length (drop_while p s) <= length s.
Proof.
  induction s as [|c s IH]; simpl; [done|]. destruct (p c); simpl; lia.
Qed.


(** ** Stripping *)

Lemma rstrip_snoc (p : ascii -> bool) (s : str) (c : ascii) :
  rstrip_by p (s ++ [c]) = if p c then rstrip_by p s else s ++ [c].
Proof.
  unfold rstrip_by. rewrite rev_unit. simpl.
  destruct (p c); [done|]. simpl. by rewrite rev_involutive.
Qed.

Lemma rstrip_app_spaces (p : ascii -> bool) (s w : str) :
  forallb p w = true -> rstrip_by p (s ++ w) = rstrip_by p s.
Proof.
  induction w as [|c w IH] using rev_ind; [by rewrite app_nil_r|].
  rewrite forallb_app. simpl. intros [Hw [Hc _]%andb_true_iff]%andb_true_iff.
  rewrite app_assoc, rstrip_snoc, Hc. auto.
Qed.

Lemma rstrip_split (p : ascii -> bool) (s : str) :
  exists w, s = rstrip_by p s ++ w /\ forallb p w = true.
Proof.
  induction s as [|c s (w & Hs & Hw)] using rev_ind; [by exists []|].
  rewrite rstrip_snoc. destruct (p c) eqn:Hc.
  - exists (w ++ [c]). rewrite app_assoc, <- Hs. split; [done|].
    rewrite forallb_app. simpl. by rewrite Hw, Hc.
  - exists []. by rewrite app_nil_r.
Qed.

Lemma rstrip_last (p : ascii -> bool) (s : str) (c : ascii) :
  last (rstrip_by p s) = Some c -> p c = false.
Proof.
  induction s as [|d s IH] using rev_ind; [done|].
  rewrite rstrip_snoc. destruct (p d) eqn:Hd; [done|].
  rewrite last_snoc. by intros [= <-].
Qed.

Lemma rstrip_fixed (p : ascii -> bool) (s : str) :
  match last s with None => True | Some c => p c = false end ->
  rstrip_by p s = s.
Proof.
  destruct s as [|d s _] using rev_ind; [done|].
  rewrite last_snoc, rstrip_snoc. by intros ->.
Qed.

Lemma rstrip_app_l (p : ascii -> bool) (w t : str) :
  rstrip_by p (w ++ t) =
    match rstrip_by p t with
    | [] => rstrip_by p w
    | _ => w ++ rstrip_by p t
    end.
Proof.
  induction t as [|c t IH] using rev_ind.
  - by rewrite app_nil_r.
  - rewrite app_assoc, !rstrip_snoc. destruct (p c); [done|].
    destruct (t ++ [c]) eqn:E; [by destruct t|]. by rewrite <- E, app_assoc.
Qed.

Lemma strip_decompose (t : str) :
  exists w w', t = w ++ strip t ++ w'
    /\ forallb is_space w = true /\ forallb is_space w' = true.
Proof.
  destruct (rstrip_split is_space t) as (w' & Ht & Hw').
  destruct (drop_while_split is_space (rstrip_by is_space t)) as (w & Hr & Hw).
  exists w, w'. split; [|done].
  unfold strip, lstrip_by. rewrite app_assoc, <- Hr. done.
Qed.

Lemma strip_trimmed (t : str) : trimmed (strip t).
Proof.
  split; [apply drop_while_head|].
  destruct (last (strip t)) as [c|] eqn:Hl; [|done].
  destruct (drop_while_split is_space (rstrip_by is_space t)) as (w & Hr & Hw).
  apply (rstrip_last is_space t). rewrite Hr.
  fold (lstrip_by is_space (rstrip_by is_space t)). fold (strip t).
  destruct (strip t) as [|d u] eqn:E; [done|].
  rewrite last_app, Hl. done.
Qed.

Lemma trimmed_strip (t : str) : trimmed t -> strip t = t.
Proof.
  intros [Hh Hl]. unfold strip, lstrip_by. rewrite rstrip_fixed by done.
  destruct t as [|c t]; [done|]. simpl. by rewrite Hh.
Qed.

Lemma strip_idem (t : str) : strip (strip t) = strip t.
Proof. apply trimmed_strip, strip_trimmed. Qed.

Lemma rstrip_nil_iff (p : ascii -> bool) (t : str) :
  rstrip_by p t = [] <-> forallb p t = true.
Proof.
  split.
  - intros E. destruct (rstrip_split p t) as (w & Ht & Hw).
    rewrite E in Ht. simpl in Ht. by subst.
  - intros H. by rewrite <- (app_nil_l t), rstrip_app_spaces.
Qed.

Lemma strip_pad (w t w' : str) :
  forallb is_space w = true -> forallb is_space w' = true ->
  strip (w ++ t ++ w') = strip t.
Proof.
  intros Hw Hw'. unfold strip, lstrip_by.
  rewrite app_assoc, rstrip_app_spaces, rstrip_app_l by done.
  destruct (rstrip_by is_space t) as [|c u] eqn:E.
  - simpl. apply rstrip_nil_iff in Hw. by rewrite Hw.
  - by rewrite drop_while_app_all.
Qed.

Lemma strip_nil_iff (t : str) : strip t = [] <-> forallb is_space t = true.
Proof.
  split.
  - intros E. destruct (strip_decompose t) as (w & w' & Ht & Hw & Hw').
    rewrite E in Ht. rewrite Ht, forallb_app. simpl. by rewrite Hw, Hw'.
  - intros H. unfold strip, lstrip_by.
    apply rstrip_nil_iff in H. by rewrite H.
Qed.

Lemma trimmed_last (t : str) (c : ascii) :
  trimmed (t ++ [c]) -> is_space c = false.
Proof. intros [_ H]. by rewrite last_snoc in H. Qed.

Lemma Forall_forallb (p : ascii -> bool) (l : str) :
  Forall (fun c => p c = true) l <-> forallb p l = true.
Proof.
  rewrite Forall_forall, forallb_forall. split; intros H x Hx; apply H;
    by apply list_elem_of_In.
Qed.

End TextFacts.

(* ===================================================================== *)
(** * Jaccard similarity                                                  *)
(* ===================================================================== *)

Module JaccardFacts.
Import Text Util Spec.

Lemma union_nonempty_size (a b : gset str) : a <> ∅ -> size (a ∪ b) <> 0.
Proof.
  intros Ha Hs. apply size_empty_iff in Hs. apply Ha.
  apply leibniz_equiv. set_solver.
Qed.

(** C9. [jaccard] is the reference definition: 1 when both sets are
    empty, 0 when exactly one is, |intersection| / |union| otherwise; in
    particular the similarity of {x, y} and {y, z}, for distinct x, y
    and z, is 1/3. *)
Theorem jaccard_is_reference :
  (forall a b : gset str, jaccard a b = jaccard_ref a b)
  /\ (forall x y z : str, x <> y -> y <> z -> x <> z ->
        jaccard {[x; y]} {[y; z]} = Q2Qc (1 # 3)).
Proof.
  split.
  - intros a b. unfold jaccard, jaccard_ref.
    destruct (decide (a = ∅ /\ b = ∅)) as [|Hne]; [done|].
    destruct (decide (a = ∅ \/ b = ∅)) as [Hor|Hnor].
    + rewrite decide_True; [done|].
      destruct (decide (a = ∅)), (decide (b = ∅)); tauto.
    + destruct (decide ((a = ∅ /\ b <> ∅) \/ (a <> ∅ /\ b = ∅))) as [Hx|_];
        [exfalso; naive_solver|].
      destruct (decide (size (a ∪ b) = 0)) as [Hs|_]; [|done].
      exfalso. revert Hs. apply union_nonempty_size. naive_solver.
  - intros x y z Hxy Hyz Hxz. unfold jaccard.
    rewrite decide_False by (intros [H _]; set_solver).
    rewrite decide_False by (intros [H|H]; set_solver).
    assert (Hi : ({[x; y]} ∩ {[y; z]} : gset str) = {[y]}) by set_solver.
    assert (Hu : size ({[x; y]} ∪ {[y; z]} : gset str) = 3).
    { replace ({[x; y]} ∪ {[y; z]} : gset str)
        with ({[x]} ∪ ({[y]} ∪ {[z]}) : gset str) by set_solver.
      rewrite size_union by set_solver.
      rewrite size_union by set_solver.
      by rewrite !size_singleton. }
    rewrite Hi, Hu, size_singleton. simpl.
    apply Qc_is_canon. reflexivity.
Qed.

(** On token sets whose union has at most 64 elements, binary64 decides
    the thresholds 0.78 and 0.05 as the exact quotient does, and on
    unions of at most 12 elements it orders two scores as the exact
    quotients are ordered. *)
Lemma thresholds_binary64 :
  forallb (fun p => thresholds_agree p.1 p.2) (quotients_upto 64) = true.
Proof. vm_compute; reflexivity. Qed.

Lemma order_binary64 :
  forallb (fun p => forallb (fun q => order_agrees p.1 p.2 q.1 q.2)
                            (quotients_upto 12))
          (quotients_upto 12) = true.
Proof. vm_compute; reflexivity. Qed.

Lemma third_binary64 :
  f64_quot 1 3 = S754_finite false 6004799503160661 (-54).
Proof. vm_compute; reflexivity. Qed.

Lemma jaccard_is_reference_witness :
  jaccard {[ ("a"%string : str); ("b"%string : str) ]}
          {[ ("b"%string : str); ("c"%string : str) ]} = Q2Qc (1 # 3).
Proof. apply (proj2 jaccard_is_reference); discriminate. Defined.

End JaccardFacts.

(* ===================================================================== *)
(** * The image allowlist of the feed reader                              *)
(* ===================================================================== *)

Module RedditFacts.
Import Text Reddit Spec Samples TextFacts.

Lemma contains_nil_false (n : str) : n <> [] -> contains n [] = false.
Proof. destruct n; [done|]. done. Qed.

Lemma safe_image_cases (url : str) :
  _safe_image url =
    if contains "i.redd.it/"%string (strip url)
       || contains "preview.redd.it/"%string (strip url)
    then strip url else [].
Proof.
  unfold _safe_image. destruct url as [|c url]; [done|].
  destruct (contains "i.redd.it/"%string (strip (c :: url))); [done|].
  by destruct (contains "preview.redd.it/"%string (strip (c :: url))).
Qed.

Lemma make_entry_image (rss : str) (ent : RawEntry) (d : dict) :
  make_entry rss ent = Some d ->
  d !! "hero_image"%string = Some (_safe_image (ent_img ent))
  /\ d !! "hero_image_kind"%string
     = Some (hero_image_kind (_safe_image (ent_img ent))).
Proof.
  unfold make_entry. destruct (negb _ || negb _); [done|].
  intros [= <-]. split; reflexivity.
Qed.

Lemma kind_cases (img : str) :
  hero_image_kind img =
    if contains "i.redd.it/"%string img then ("reddit_image"%string : str)
    else if contains "preview.redd.it/"%string img
         then ("reddit_preview"%string : str)
         else ("none"%string : str).
Proof. reflexivity. Qed.

(** C3, as the code has it.  The allowlist is a substring test on the
    stripped URL: the image is kept, stripped, exactly when the text
    [i.redd.it/] or [preview.redd.it/] occurs in it, and is empty
    otherwise; the kind is [reddit_image] when [i.redd.it/] occurs,
    [reddit_preview] when only [preview.redd.it/] does, and [none]
    exactly for the empty image; an entry of the feed carries this image
    and this kind. *)
Theorem safe_image_substring_allowlist (url : str) :
  let u := strip url in
  let img := _safe_image url in
  (img <> [] <->
     substring "i.redd.it/"%string u \/ substring "preview.redd.it/"%string u)
  /\ (img <> [] -> img = u)
  /\ (hero_image_kind img = ("reddit_image"%string : str) <->
        substring "i.redd.it/"%string u)
  /\ (hero_image_kind img = ("reddit_preview"%string : str) <->
        ~ substring "i.redd.it/"%string u
        /\ substring "preview.redd.it/"%string u)
  /\ (hero_image_kind img = ("none"%string : str) <-> img = [])
  /\ (forall rss ent d, ent_img ent = url -> make_entry rss ent = Some d ->
        d !! "hero_image"%string = Some img
        /\ d !! "hero_image_kind"%string = Some (hero_image_kind img)).
Proof.
  intros u img.
  assert (Hent : forall rss ent d, ent_img ent = url ->
    make_entry rss ent = Some d ->
    d !! "hero_image"%string = Some img
    /\ d !! "hero_image_kind"%string = Some (hero_image_kind img)).
  { intros rss ent d <-. apply make_entry_image. }
  assert (Himg : img = if contains "i.redd.it/"%string u
                          || contains "preview.redd.it/"%string u
                       then u else []) by apply safe_image_cases.
  clearbody img. rewrite <- !contains_spec.
  destruct (contains "i.redd.it/"%string u) eqn:Hi;
    [|destruct (contains "preview.redd.it/"%string u) eqn:Hp];
    simpl in Himg; subst img;
    (split; [|split; [|split; [|split; [|split; [|exact Hent]]]]]);
    rewrite ?kind_cases, ?Hi, ?Hp;
    change (contains "i.redd.it/"%string []) with false;
    change (contains "preview.redd.it/"%string []) with false;
    try assert (u <> []) by (intros E; rewrite E in Hi; done);
    try assert (u <> []) by (intros E; rewrite E in Hp; done);
    try done; try tauto;
    try (split; intros; try discriminate; try done; tauto).
  split; [done|]. intros [?|?]; discriminate.
Qed.

Lemma safe_image_substring_allowlist_witness :
  exists d, make_entry "feed"%string sample_entry = Some d
    /\ d !! "hero_image"%string
       = Some ("https://preview.redd.it/abc.jpg?width=640"%string : str)
    /\ d !! "hero_image_kind"%string = Some ("reddit_preview"%string : str).
Proof.
  destruct (safe_image_substring_allowlist (ent_img sample_entry))
    as (_ & _ & _ & _ & _ & H).
  eexists. split; [reflexivity|].
  apply (H ("feed"%string : str) sample_entry); reflexivity.
Defined.

(** C3 as stated fails: an image on another host whose path mentions a
    trusted host name passes the allowlist and is classified as a direct
    image. *)
Lemma safe_image_other_host_accepted :
  ~ (forall url, _safe_image url <> [] -> trusted_host url).
Proof.
  intros H.
  specialize (H ("https://evil.example/i.redd.it/x.png"%string : str)).
  destruct H as [H|H]; [vm_compute; discriminate|..];
    vm_compute in H; discriminate.
Qed.

End RedditFacts.

(* ===================================================================== *)
(** * The backtracking matcher                                            *)
(* ===================================================================== *)

Module RegexFacts.
Import Text Regex TextFacts.

Lemma last_of_nil (prev : option ascii) : last_of prev [] = prev.
Proof. reflexivity. Qed.

Lemma last_of_cons (prev : option ascii) (c : ascii) (a : str) :
  last_of prev (c :: a) = last_of (Some c) a.
Proof. unfold last_of. destruct a as [|d a]; [done|]. rewrite last_cons_cons. by destruct (last (d :: a)) eqn:E; [|apply last_None in E]. Qed.

Lemma last_of_snoc (prev : option ascii) (a : str) (c : ascii) :
  last_of prev (a ++ [c]) = Some c.
Proof. unfold last_of. by rewrite last_snoc. Qed.

Section Star.
Context {R : Type}.
Implicit Types (k : option ascii -> str -> option R).

(** Whatever a repetition returns, the rest of the pattern returned at
    the end of some run of the class. *)
Lemma star_sound p prev s k x :
  star p prev s k = Some x ->
  exists a s', s = a ++ s' /\ forallb p a = true
               /\ k (last_of prev a) s' = Some x.
Proof.
  revert prev. induction s as [|c s IH]; intros prev; simpl.
  - intros H. by exists [], [].
  - destruct (p c) eqn:Hc.
    + destruct (star p (Some c) s k) as [r|] eqn:Hs.
      * intros [= <-]. destruct (IH _ Hs) as (a & s' & -> & Ha & Hk).
        exists (c :: a), s'. simpl. rewrite Hc, Ha, last_of_cons. done.
      * intros H. by exists [], (c :: s).
    + intros H. by exists [], (c :: s).
Qed.

Lemma star_complete p prev a s' k :
  forallb p a = true -> is_Some (k (last_of prev a) s') ->
  is_Some (star p prev (a ++ s') k).
Proof.
  revert prev. induction a as [|c a IH]; intros prev; simpl.
  - intros _ Hk. destruct s' as [|c s']; simpl; [done|].
    destruct (p c); [|done]. by destruct (star p (Some c) s' k).
  - intros [Hc Ha]%andb_true_iff Hk. rewrite Hc.
    rewrite last_of_cons in Hk.
    destruct (IH (Some c) Ha Hk) as [r ->]. eauto.
Qed.

(** Greedy: the longest run is tried first. *)
Lemma star_first p prev a s' k x :
  forallb p a = true ->
  match s' with [] => True | c :: _ => p c = false end ->
  k (last_of prev a) s' = Some x ->
  star p prev (a ++ s') k = Some x.
Proof.
  revert prev. induction a as [|c a IH]; intros prev; simpl.
  - intros _ Hs Hk. destruct s' as [|c s']; simpl; [done|]. by rewrite Hs.
  - intros [Hc Ha]%andb_true_iff Hs Hk. rewrite Hc.
    rewrite last_of_cons in Hk. by rewrite (IH (Some c) Ha Hs Hk).
Qed.

(** When the rest of the pattern cannot start with a character of the
    class, giving characters back never helps. *)
Lemma star_no_backtrack p prev s k :
  (forall pv c t, p c = true -> k pv (c :: t) = None) ->
  exists a, s = a ++ drop_while p s /\ forallb p a = true
            /\ star p prev s k = k (last_of prev a) (drop_while p s).
Proof.
  intros Hk. revert prev. induction s as [|c s IH]; intros prev; simpl.
  - by exists [].
  - destruct (p c) eqn:Hc.
    + destruct (IH (Some c)) as (a & Hs & Ha & Hst).
      exists (c :: a). simpl. rewrite Hc, Ha, last_of_cons, Hst.
      split; [congruence|]. split; [done|].
      destruct (k (last_of (Some c) a) (drop_while p s)); [done|].
      by apply Hk.
    + by exists [].
Qed.

Lemma star_lazy_sound p prev s k x :
  star_lazy p prev s k = Some x ->
  exists a s', s = a ++ s' /\ forallb p a = true
               /\ k (last_of prev a) s' = Some x.
Proof.
  revert prev. induction s as [|c s IH]; intros prev; simpl.
  - destruct (k prev []) eqn:Hk; [|done]. intros [= <-]. by exists [], [].
  - destruct (k prev (c :: s)) eqn:Hk.
    + intros [= <-]. by exists [], (c :: s).
    + destruct (p c) eqn:Hc; [|done]. intros Hs.
      destruct (IH _ Hs) as (a & s' & -> & Ha & Hk').
      exists (c :: a), s'. simpl. rewrite Hc, Ha, last_of_cons. done.
Qed.

Lemma star_lazy_complete p prev a s' k :
  forallb p a = true -> is_Some (k (last_of prev a) s') ->
  is_Some (star_lazy p prev (a ++ s') k).
Proof.
  revert prev. induction a as [|c a IH]; intros prev; simpl.
  - intros _ [x Hk]. rewrite last_of_nil in Hk.
    destruct s'; simpl; rewrite Hk; eauto.
  - intros [Hc Ha]%andb_true_iff Hk.
    destruct (k prev (c :: a ++ s')); [eauto|]. rewrite Hc.
    rewrite last_of_cons in Hk. by apply IH.
Qed.

(** Lazy: the shortest run after which the rest of the pattern
    succeeds is the one taken. *)
Lemma star_lazy_first p prev a s' k x :
  forallb p a = true ->
  (forall a1 a2, a = a1 ++ a2 -> a2 <> [] ->
                 k (last_of prev a1) (a2 ++ s') = None) ->
  k (last_of prev a) s' = Some x ->
  star_lazy p prev (a ++ s') k = Some x.
Proof.
  revert prev. induction a as [|c a IH]; intros prev; simpl.
  - intros _ _ Hk. change (last_of prev []) with prev in Hk.
    destruct s' as [|c s']; simpl; by rewrite Hk.
  - intros [Hc Ha]%andb_true_iff Hmin Hk.
    pose proof (Hmin [] (c :: a) eq_refl ltac:(done)) as H0.
    rewrite last_of_nil in H0. simpl in H0. rewrite H0, Hc.
    rewrite last_of_cons in Hk.
    apply IH; [done| |done]. intros a1 a2 -> Ha2.
    rewrite <- (last_of_cons prev). apply (Hmin (c :: a1) a2); done.
Qed.

(** Greedy: no longer run of the class lets the rest of the pattern
    succeed. *)
Lemma star_longest p prev s k x :
  star p prev s k = Some x ->
  exists a s', s = a ++ s' /\ forallb p a = true
    /\ k (last_of prev a) s' = Some x
    /\ forall a' s'', s = a' ++ s'' -> forallb p a' = true ->
         length a < length a' -> k (last_of prev a') s'' = None.
Proof.
  revert prev. induction s as [|c s IH]; intros prev; simpl.
  - intros H. exists [], []. repeat split; [done|].
    intros a' s'' E _ Hl. symmetry in E. apply app_eq_nil in E as [-> _].
    simpl in Hl. lia.
  - destruct (p c) eqn:Hc.
    + destruct (star p (Some c) s k) as [r|] eqn:Hs.
      * intros [= <-]. destruct (IH _ Hs) as (a & s' & -> & Ha & Hk & Hmax).
        exists (c :: a), s'. simpl. rewrite Hc, Ha, last_of_cons.
        repeat split; [done|].
        intros a' s'' E Ha' Hl. destruct a' as [|c' a']; [simpl in Hl; lia|].
        simpl in E. injection E as <- E. rewrite last_of_cons.
        simpl in Ha'. apply andb_true_iff in Ha' as [_ Ha'].
        apply (Hmax a' s'' E Ha'). simpl in Hl. lia.
      * intros H. exists [], (c :: s). repeat split; [done|].
        intros a' s'' E Ha' Hl. destruct a' as [|c' a']; [simpl in Hl; lia|].
        simpl in E. injection E as <- E. rewrite last_of_cons.
        simpl in Ha'. apply andb_true_iff in Ha' as [_ Ha'].
        destruct (k (last_of (Some c) a') s'') as [y|] eqn:Hy; [|done].
        exfalso. subst s.
        destruct (star_complete p (Some c) a' s'' k Ha') as [z Hz];
          [by rewrite Hy|]. congruence.
    + intros H. exists [], (c :: s). repeat split; [done|].
      intros a' s'' E Ha' Hl. destruct a' as [|c' a']; [simpl in Hl; lia|].
      simpl in E. injection E as <- E. simpl in Ha'. by rewrite Hc in Ha'.
Qed.

(** Lazy: no shorter run lets the rest of the pattern succeed. *)
Lemma star_lazy_shortest p prev s k x :
  star_lazy p prev s k = Some x ->
  exists a s', s = a ++ s' /\ forallb p a = true
    /\ k (last_of prev a) s' = Some x
    /\ forall a' s'', s = a' ++ s'' -> length a' < length a ->
         k (last_of prev a') s'' = None.
Proof.
  revert prev. induction s as [|c s IH]; intros prev; simpl.
  - destruct (k prev []) eqn:Hk; [|done]. intros [= <-].
    exists [], []. repeat split; [done|]. intros a' s'' _ Hl. simpl in Hl. lia.
  - destruct (k prev (c :: s)) eqn:Hk.
    + intros [= <-]. exists [], (c :: s). repeat split; [done|].
      intros a' s'' _ Hl. simpl in Hl. lia.
    + destruct (p c) eqn:Hc; [|done]. intros Hs.
      destruct (IH _ Hs) as (a & s' & -> & Ha & Hk' & Hmin).
      exists (c :: a), s'. simpl. rewrite Hc, Ha, last_of_cons.
      repeat split; [done|].
      intros a' s'' E Hl. destruct a' as [|c' a'].
      * simpl in E. subst s''. done.
      * simpl in E. injection E as <- E. rewrite last_of_cons.
        apply (Hmin a' s'' E). simpl in Hl. lia.
Qed.
End Star.

Section Matcher.
Context {R : Type}.
Implicit Types (k : option ascii -> str -> list str -> option R).

(** Soundness: the matcher only returns what the rest of the pattern
    returned at the end of a match. *)
Lemma run_sound r : forall prev s caps k x,
  run r prev s caps k = Some x ->
  exists prev' s' caps',
    Matches r prev s caps prev' s' caps' /\ k prev' s' caps' = Some x.
Proof.
  induction r as [|p|p|p|p|r1 IH1 r2 IH2|r1 IH1| | |];
    intros prev s caps k x; simpl.
  - intros H. by exists prev, s, caps.
  - destruct s as [|c s]; [done|]. destruct (p c) eqn:Hc; [|done].
    intros H. exists (Some c), s, caps. split; [|done]. by exists c.
  - intros (a & s' & -> & Ha & Hk)%star_sound.
    exists (last_of prev a), s', caps. split; [|done]. by exists a.
  - destruct s as [|c s]; [done|]. destruct (p c) eqn:Hc; [|done].
    intros (a & s' & -> & Ha & Hk)%star_sound.
    exists (last_of (Some c) a), s', caps. split; [|done].
    exists (c :: a). simpl. by rewrite Hc, Ha, last_of_cons.
  - destruct s as [|c s]; [done|]. destruct (p c) eqn:Hc; [|done].
    intros (a & s' & -> & Ha & Hk)%star_lazy_sound.
    exists (last_of (Some c) a), s', caps. split; [|done].
    exists (c :: a). simpl. by rewrite Hc, Ha, last_of_cons.
  - intros (pm & sm & cm & H1 & H2)%IH1.
    apply IH2 in H2 as (prev' & s' & caps' & H2 & Hk).
    exists prev', s', caps'. split; [|done]. by exists pm, sm, cm.
  - intros (prev' & s' & cm & H1 & Hk)%IH1.
    exists prev', s', (cm ++ [take (length s - length s') s]).
    split; [|done]. by exists cm.
  - destruct prev; [done|]. intros H. by exists None, s, caps.
  - destruct s as [|c [|d s]]; [| |done].
    + intros H. exists prev, [], caps. split; [|done]. split; [by left|done].
    + destruct (ascii_eqb nl c) eqn:Hc; [|done]. apply ascii_eqb_eq in Hc as <-.
      intros H. exists prev, [nl], caps. split; [|done]. split; [by right|done].
  - destruct (xorb _ _) eqn:Hx; [|done].
    intros H. by exists prev, s, caps.
Qed.

(** Completeness: when the pattern can match and the rest of the
    pattern succeeds there, the matcher finds some match. *)
Lemma run_complete r : forall prev s caps prev' s' caps' k,
  Matches r prev s caps prev' s' caps' ->
  is_Some (k prev' s' caps') ->
  is_Some (run r prev s caps k).
Proof.
  induction r as [|p|p|p|p|r1 IH1 r2 IH2|r1 IH1| | |];
    intros prev s caps prev' s' caps' k; simpl.
  - by intros (-> & -> & ->).
  - intros (c & -> & Hc & -> & ->). by rewrite Hc.
  - intros (a & -> & Ha & -> & ->) Hk. by apply star_complete.
  - intros (a & Hne & -> & Ha & -> & ->) Hk.
    destruct a as [|c a]; [done|]. simpl in Ha |- *.
    apply andb_true_iff in Ha as [Hc Ha]. rewrite Hc.
    rewrite last_of_cons in Hk. by apply star_complete.
  - intros (a & Hne & -> & Ha & -> & ->) Hk.
    destruct a as [|c a]; [done|]. simpl in Ha |- *.
    apply andb_true_iff in Ha as [Hc Ha]. rewrite Hc.
    rewrite last_of_cons in Hk. by apply star_lazy_complete.
  - intros (pm & sm & cm & H1 & H2) Hk.
    eapply IH1; [exact H1|]. eapply IH2; [exact H2|done].
  - intros (cm & H1 & ->) Hk. eapply IH1; [exact H1|done].
  - by intros (-> & -> & -> & ->).
  - intros ([->| ->] & -> & -> & ->); [done|].
    by rewrite ascii_eqb_refl.
  - intros (Hx & -> & -> & ->). by rewrite Hx.
Qed.

(** A match consumes a prefix of the text. *)
Lemma Matches_suffix r : forall prev s caps prev' s' caps',
  Matches r prev s caps prev' s' caps' -> exists a, s = a ++ s'.
Proof.
  induction r as [|p|p|p|p|r1 IH1 r2 IH2|r1 IH1| | |];
    intros prev s caps prev' s' caps'; simpl.
  - intros (_ & -> & _). by exists [].
  - intros (c & -> & _). by exists [c].
  - intros (a & -> & _). by exists a.
  - intros (a & _ & -> & _). by exists a.
  - intros (a & _ & -> & _). by exists a.
  - intros (pm & sm & cm & [a ->]%IH1 & [b ->]%IH2).
    exists (a ++ b). by rewrite <- app_assoc.
  - intros (cm & H1 & _). by eapply IH1.
  - intros (_ & _ & -> & _). by exists [].
  - intros (_ & _ & -> & _). by exists [].
  - intros (_ & _ & -> & _). by exists [].
Qed.
End Matcher.

Lemma re_match_sound (r : regex) (s : str) (groups : list str) :
  re_match r s = Some groups ->
  exists prev' s', Matches r None s [] prev' s' groups.
Proof.
  unfold re_match. intros (prev' & s' & caps' & H & [= <-])%run_sound.
  eauto.
Qed.

Lemma re_match_complete (r : regex) (s : str) prev' s' groups :
  Matches r None s [] prev' s' groups -> is_Some (re_match r s).
Proof. intros H. unfold re_match. eapply run_complete; [exact H|eauto]. Qed.


(** ** Substitution *)

Lemma match_len_sound r prev s n :
  match_len r prev s = Some n ->
  exists a s' prev' caps', s = a ++ s' /\ n = length a
                           /\ Matches r prev s [] prev' s' caps'.
Proof.
  unfold match_len.
  intros (prev' & s' & caps' & H & [= <-])%run_sound.
  destruct (Matches_suffix _ _ _ _ _ _ _ H) as [a ->].
  exists a, s', prev', caps'. split; [done|]. split; [|done].
  rewrite length_app. lia.
Qed.

Lemma match_len_complete r prev s prev' s' caps' :
  Matches r prev s [] prev' s' caps' -> is_Some (match_len r prev s).
Proof. intros H. unfold match_len. eapply run_complete; [exact H|eauto]. Qed.

Section Sub.
Variable r : regex.
Variable repl : str.
Hypothesis Hlocal : local_pattern r.

Lemma sub_from_prev n prev prev' s :
  sub_from r repl n prev s = sub_from r repl n prev' s.
Proof using Hlocal.
  destruct s as [|c s]; [done|]. simpl.
  destruct n; [|done]. by rewrite (Hlocal prev prev').
Qed.

Lemma sub_from_skip n prev s :
  n <= length s ->
  sub_from r repl n prev s = re_sub r repl (drop n s).
Proof using Hlocal.
  revert n prev. induction s as [|c s IH]; intros n prev Hn; simpl in *.
  - by destruct n.
  - destruct n as [|n].
    + unfold re_sub. simpl. by rewrite (Hlocal prev None).
    + simpl. apply IH. lia.
Qed.

Lemma re_sub_nil : re_sub r repl [] = [].
Proof. reflexivity. Qed.

(** A match at the head is replaced, and the scan resumes after it. *)
Lemma re_sub_match a s' :
  a <> [] ->
  match_len r None (a ++ s') = Some (length a) ->
  re_sub r repl (a ++ s') = repl ++ re_sub r repl s'.
Proof using Hlocal.
  intros Ha Hm. destruct a as [|c a]; [done|].
  unfold re_sub at 1. simpl sub_from. simpl in Hm. rewrite Hm. f_equal.
  rewrite sub_from_skip by (rewrite length_app; lia).
  by rewrite drop_app_length.
Qed.

(** No match at the head: the character is kept. *)
Lemma re_sub_keep c s :
  match_len r None (c :: s) = None ->
  re_sub r repl (c :: s) = c :: re_sub r repl s.
Proof using Hlocal.
  intros Hm. unfold re_sub at 1. simpl. rewrite Hm. f_equal.
  apply sub_from_prev.
Qed.
End Sub.

End RegexFacts.

(* ===================================================================== *)
(** * Sanitisation of the generated body                                  *)
(* ===================================================================== *)

Module SanitizeFacts.
Import Text Regex Util Spec Reading TextFacts RegexFacts.

Local Ltac by_cases c :=
  destruct c as [[] [] [] [] [] [] [] []]; vm_compute; intuition congruence.

(** A character that lower-cases to a letter a-z is a word character,
    and is none of whitespace, [<] and [&]. *)
Lemma letter_facts (c : ascii) :
  in_range 97 122 (lower_char c) = true ->
  is_word c = true /\ is_space c = false
  /\ c <> "<"%char /\ c <> "&"%char.
Proof. by_cases c. Qed.

Lemma space_facts (c : ascii) :
  is_space c = true ->
  c <> "<"%char /\ c <> "&"%char /\ in_range 97 122 (lower_char c) = false.
Proof. by_cases c. Qed.

Lemma lt_not_word : is_word "<" = false.
Proof. reflexivity. Qed.

Lemma amp_not_word : is_word "&" = false.
Proof. reflexivity. Qed.

Lemma Matches_lit_i (w0 : str) : forall prev s caps prev' s' caps',
  Matches (lit_i w0) prev s caps prev' s' caps' <->
  exists w, s = w ++ s' /\ lower w = lower w0
            /\ prev' = last_of prev w /\ caps' = caps.
Proof.
  induction w0 as [|c0 w0 IH]; intros prev s caps prev' s' caps'; simpl.
  - split.
    + intros (-> & -> & ->). by exists [].
    + intros (w & -> & Hw & -> & ->). destruct w; [done|discriminate].
  - split.
    + intros (pm & sm & cm & (c & -> & Hc & -> & ->) & H2).
      apply IH in H2 as (w & -> & Hw & -> & ->).
      exists (c :: w). simpl. rewrite last_of_cons, Hw.
      apply ascii_eqb_eq in Hc. by rewrite Hc.
    + intros (w & -> & Hw & -> & ->). destruct w as [|c w]; [done|].
      simpl in Hw. injection Hw as Hc Hw.
      exists (Some c), (w ++ s'), caps. split.
      * exists c. rewrite Hc. by rewrite ascii_eqb_refl.
      * apply IH. exists w. by rewrite last_of_cons.
Qed.

(** The characters of a word that lower-cases to [script]. *)
Lemma script_letters (w : str) :
  lower w = ("script"%string : str) ->
  length w = 6
  /\ Forall (fun c => in_range 97 122 (lower_char c) = true) w
  /\ last_of None w <> None.
Proof.
  intros H. assert (Hl : length w = 6).
  { apply (f_equal length) in H. unfold lower in H.
    by rewrite length_map in H. }
  do 7 (destruct w as [|? w]; try discriminate).
  simpl in H. injection H as H1 H2 H3 H4 H5 H6.
  split; [done|]. split; [|done].
  repeat constructor; by rewrite ?H1, ?H2, ?H3, ?H4, ?H5, ?H6.
Qed.

Lemma script_last_word (w : str) (prev : option ascii) :
  lower w = ("script"%string : str) ->
  word_opt (last_of prev w) = true.
Proof.
  intros H. destruct (script_letters w H) as (Hl & Hall & _).
  do 7 (destruct w as [|? w]; try discriminate).
  unfold last_of. simpl.
  rewrite !Forall_cons in Hall. destruct Hall as (_&_&_&_&_&Hc&_).
  by apply letter_facts in Hc as [-> _].
Qed.

Lemma boundary_word_opt (s : str) :
  word_opt (head s) = false <-> at_boundary s.
Proof. by destruct s. Qed.

(** The pattern of the sanitiser matches exactly a script opener at a
    boundary. *)
Lemma script_re_matches prev s prev' s' caps' :
  Matches script_re prev s [] prev' s' caps' ->
  exists m, s = m ++ s' /\ script_opener m /\ at_boundary s'.
Proof.
  unfold script_re. simpl seq.
  intros (p1 & s1 & c1 & (c & -> & Hc & -> & ->)
          & p2 & s2 & c2 & (ws & -> & Hws & -> & ->)
          & p3 & s3 & c3 & Hlit & (Hx & -> & -> & ->)).
  apply (proj1 (Matches_lit_i ("script"%string : str) _ _ _ _ _ _)) in Hlit
    as (w & -> & Hw & -> & ->).
  apply ascii_eqb_eq in Hc as <-.
  change (lower ("script"%string : str)) with ("script"%string : str) in Hw.
  exists ("<"%char :: ws ++ w). split; [simpl; by rewrite <- app_assoc|].
  split.
  - exists ws, w. split; [done|]. split; [|done].
    apply Forall_forall. intros x Hx'.
    rewrite forallb_forall in Hws. apply Hws. by apply list_elem_of_In.
  - apply boundary_word_opt. rewrite script_last_word in Hx by done.
    by destruct (word_opt (head s3)).
Qed.

Lemma script_re_matches_inv prev m b :
  script_opener m -> at_boundary b ->
  exists prev' caps', Matches script_re prev (m ++ b) [] prev' b caps'.
Proof.
  intros (ws & w & -> & Hws & Hw) Hb.
  exists (last_of (last_of (Some "<"%char) ws) w), [].
  unfold script_re. simpl seq.
  exists (Some "<"%char), (ws ++ w ++ b), []. split.
  { exists "<"%char. simpl. by rewrite <- app_assoc. }
  exists (last_of (Some "<"%char) ws), (w ++ b), []. split.
  { exists ws. split; [done|]. split; [|done].
    apply forallb_forall. intros x Hx. rewrite Forall_forall in Hws.
    apply Hws. by apply list_elem_of_In. }
  exists (last_of (last_of (Some "<"%char) ws) w), b, []. split.
  { apply (proj2 (Matches_lit_i ("script"%string : str) _ _ _ _ _ _)).
    by exists w. }
  split; [|done]. rewrite script_last_word by done.
  apply boundary_word_opt in Hb. by rewrite Hb.
Qed.


Lemma span_unique (p : ascii -> bool) (a a' t t' : str) :
  a ++ t = a' ++ t' ->
  forallb p a = true -> forallb p a' = true ->
  match t with [] => True | c :: _ => p c = false end ->
  match t' with [] => True | c :: _ => p c = false end ->
  a = a' /\ t = t'.
Proof.
  revert a'. induction a as [|c a IH]; intros [|c' a'] E Ha Ha' Ht Ht';
    simpl in *.
  - done.
  - subst t. apply andb_true_iff in Ha' as [Hc _]. congruence.
  - subst t'. apply andb_true_iff in Ha as [Hc _]. congruence.
  - injection E as -> E.
    apply andb_true_iff in Ha as [_ Ha]. apply andb_true_iff in Ha' as [_ Ha'].
    destruct (IH a' E Ha Ha' Ht Ht') as [-> ->]. done.
Qed.

Lemma script_opener_unique (m m' b b' : str) :
  m ++ b = m' ++ b' -> script_opener m -> script_opener m' ->
  m = m' /\ b = b'.
Proof.
  intros E (ws & w & -> & Hws & Hw) (ws' & w' & -> & Hws' & Hw').
  destruct (script_letters w Hw) as (Hl & Hall & _).
  destruct (script_letters w' Hw') as (Hl' & Hall' & _).
  simpl in E. injection E as E. rewrite <- !app_assoc in E.
  apply (span_unique is_space) in E as [-> E].
  - apply app_inj_1 in E as [-> ->]; [done|congruence].
  - apply forallb_forall. intros x Hx. rewrite Forall_forall in Hws.
    apply Hws. by apply list_elem_of_In.
  - apply forallb_forall. intros x Hx. rewrite Forall_forall in Hws'.
    apply Hws'. by apply list_elem_of_In.
  - destruct w as [|c w]; [done|]. simpl.
    apply Forall_cons in Hall as [Hc _].
    by destruct (letter_facts _ Hc) as (_ & ? & _).
  - destruct w' as [|c w']; [done|]. simpl.
    apply Forall_cons in Hall' as [Hc _].
    by destruct (letter_facts _ Hc) as (_ & ? & _).
Qed.

Lemma script_opener_head (m : str) :
  script_opener m -> exists m', m = "<"%char :: m'.
Proof. intros (ws & w & -> & _). eauto. Qed.

Lemma script_re_local : local_pattern script_re.
Proof.
  intros prev prev' s. unfold match_len, script_re. simpl seq.
  destruct s as [|c s]; [done|]. reflexivity.
Qed.

Lemma match_len_opener (s : str) :
  match match_len script_re None s with
  | Some n => exists m b, s = m ++ b /\ n = length m
                          /\ script_opener m /\ at_boundary b
  | None => ~ opener_at_head s
  end.
Proof.
  destruct (match_len script_re None s) as [n|] eqn:Hm.
  - apply match_len_sound in Hm as (a & s' & prev' & caps' & -> & -> & H).
    apply script_re_matches in H as (m & E & Hm & Hb).
    apply app_inv_tail in E as ->. by exists m, s'.
  - intros (m & b & -> & Hm' & Hb).
    destruct (script_re_matches_inv None m b Hm' Hb) as (prev' & caps' & H).
    apply match_len_complete in H as [n Hn]. congruence.
Qed.

(** An opener is rewritten and the scan resumes after it. *)
Lemma sanitize_opener (m b : str) :
  script_opener m -> at_boundary b ->
  sanitize_llm_html (m ++ b)
  = ("&lt;script"%string : str) ++ sanitize_llm_html b.
Proof.
  intros Hm Hb. unfold sanitize_llm_html.
  apply re_sub_match; [apply script_re_local| |].
  - destruct (script_opener_head m Hm) as [m' ->]. done.
  - pose proof (match_len_opener (m ++ b)) as H.
    destruct (match_len script_re None (m ++ b)) as [n|].
    + destruct H as (m1 & b1 & E & -> & Hm1 & Hb1).
      by destruct (script_opener_unique _ _ _ _ E Hm Hm1) as [-> _].
    + exfalso. apply H. by exists m, b.
Qed.

(** Elsewhere the character is kept. *)
Lemma sanitize_keep (c : ascii) (s : str) :
  ~ opener_at_head (c :: s) ->
  sanitize_llm_html (c :: s) = c :: sanitize_llm_html s.
Proof.
  intros Hno. unfold sanitize_llm_html.
  apply re_sub_keep; [apply script_re_local|].
  pose proof (match_len_opener (c :: s)) as H.
  destruct (match_len script_re None (c :: s)) as [n|]; [|done].
  destruct H as (m & b & E & _ & Hm & Hb). exfalso. apply Hno.
  by exists m, b.
Qed.

Lemma opener_at_head_dec (s : str) :
  opener_at_head s \/ ~ opener_at_head s.
Proof.
  pose proof (match_len_opener s) as H.
  destruct (match_len script_re None s) as [n|]; [|by right].
  left. destruct H as (m & b & E & _ & Hm & Hb). by exists m, b.
Qed.

Lemma opener_at_head_lt (c : ascii) (s : str) :
  opener_at_head (c :: s) -> c = "<"%char.
Proof.
  intros (m & b & E & Hm & _).
  destruct (script_opener_head m Hm) as [m' ->]. by injection E.
Qed.

Lemma sanitize_keep_other (c : ascii) (s : str) :
  c <> "<"%char -> sanitize_llm_html (c :: s) = c :: sanitize_llm_html s.
Proof.
  intros Hc. apply sanitize_keep. by intros ->%opener_at_head_lt.
Qed.

Lemma sanitize_keep_prefix (a s : str) :
  "<"%char ∉ a -> sanitize_llm_html (a ++ s) = a ++ sanitize_llm_html s.
Proof.
  induction a as [|c a IH]; [done|]. intros Hno. simpl.
  rewrite sanitize_keep_other, IH; [done|set_solver|set_solver].
Qed.


Lemma sanitize_boundary (s : str) :
  at_boundary (sanitize_llm_html s) <-> at_boundary s.
Proof.
  destruct s as [|c s]; [done|].
  destruct (opener_at_head_dec (c :: s)) as [Ho|Hno].
  - pose proof (opener_at_head_lt _ _ Ho) as ->.
    destruct Ho as (m & b & -> & Hm & Hb). rewrite sanitize_opener by done.
    destruct (script_opener_head m Hm) as [m' ->]. done.
  - by rewrite sanitize_keep.
Qed.

Lemma sanitize_cons_inv (t : str) (c : ascii) (X : str) :
  sanitize_llm_html t = c :: X -> c <> "&"%char ->
  exists t', t = c :: t' /\ sanitize_llm_html t' = X.
Proof.
  intros E Hc. destruct t as [|d t]; [done|].
  destruct (opener_at_head_dec (d :: t)) as [(m & b & Et & Hm & Hb)|Hno].
  - rewrite Et, sanitize_opener in E by done. injection E as <-. done.
  - rewrite sanitize_keep in E by done. injection E as -> <-. eauto.
Qed.

Lemma sanitize_app_inv (a : str) : forall t X,
  sanitize_llm_html t = a ++ X -> "&"%char ∉ a ->
  exists t', t = a ++ t' /\ sanitize_llm_html t' = X.
Proof.
  induction a as [|c a IH]; intros t X E Ha; simpl in *; [eauto|].
  apply sanitize_cons_inv in E as (t1 & -> & E); [|set_solver].
  apply IH in E as (t' & -> & E); [|set_solver]. eauto.
Qed.

Lemma opener_no_amp (m m' : str) :
  script_opener m -> m = "<"%char :: m' -> "&"%char ∉ m'.
Proof.
  intros (ws & w & -> & Hws & Hw) [= <-].
  destruct (script_letters w Hw) as (_ & Hall & _).
  rewrite not_elem_of_app. split; intros Hin.
  - rewrite Forall_forall in Hws. apply Hws in Hin.
    by destruct (space_facts _ Hin) as (_ & ? & _).
  - rewrite Forall_forall in Hall. apply Hall in Hin.
    by destruct (letter_facts _ Hin) as (_ & _ & _ & ?).
Qed.

(** No opener is formed by the rewriting of a later one. *)
Lemma opener_after_sanitize (c : ascii) (t : str) :
  opener_at_head (c :: sanitize_llm_html t) -> opener_at_head (c :: t).
Proof.
  intros (m & b & E & Hm & Hb).
  destruct (script_opener_head m Hm) as [m' ->].
  simpl in E. injection E as -> E.
  apply sanitize_app_inv in E as (t' & -> & E);
    [|by eapply opener_no_amp].
  exists ("<"%char :: m'), t'. split; [done|]. split; [done|].
  apply sanitize_boundary. by rewrite E.
Qed.

Lemma has_opener_nil : ~ has_script_opener [].
Proof.
  intros (a & m & b & E & Hm & _).
  destruct (script_opener_head m Hm) as [m' ->].
  symmetry in E. apply app_eq_nil in E as [_ E]. done.
Qed.

Lemma has_opener_cons (c : ascii) (s : str) :
  has_script_opener (c :: s) <->
  opener_at_head (c :: s) \/ has_script_opener s.
Proof.
  split.
  - intros ([|c' a] & m & b & E & Hm & Hb).
    + left. by exists m, b.
    + right. injection E as -> ->. by exists a, m, b.
  - intros [(m & b & E & Hm & Hb)|(a & m & b & -> & Hm & Hb)].
    + by exists [], m, b.
    + by exists (c :: a), m, b.
Qed.

Lemma has_opener_skip (a s : str) :
  "<"%char ∉ a -> has_script_opener (a ++ s) -> has_script_opener s.
Proof.
  induction a as [|c a IH]; [done|]. intros Hno. simpl.
  intros [Ho|H]%has_opener_cons.
  - apply opener_at_head_lt in Ho. set_solver.
  - apply IH; [set_solver|done].
Qed.

Lemma any_opener_spec (s : str) :
  any_opener s = true <-> has_script_opener s.
Proof.
  induction s as [|c s IH]; simpl.
  - split; [done|]. by intros ?%has_opener_nil.
  - rewrite orb_true_iff, IH, has_opener_cons.
    pose proof (match_len_opener (c :: s)) as H.
    destruct (match_len script_re None (c :: s)) as [n|]; simpl.
    + destruct H as (m & b & E & _ & Hm & Hb).
      split; intros _; left; [by exists m, b|done].
    + split; intros [?|?]; try done; by right.
Qed.

Lemma sanitize_clean_aux (n : nat) : forall s,
  length s <= n -> ~ has_script_opener (sanitize_llm_html s).
Proof.
  induction n as [|n IH]; intros s Hn.
  - destruct s; [|simpl in Hn; lia]. apply has_opener_nil.
  - destruct s as [|c s]; [apply has_opener_nil|].
    destruct (opener_at_head_dec (c :: s)) as [(m & b & E & Hm & Hb)|Hno].
    + rewrite E, sanitize_opener by done.
      intros H%has_opener_skip; [|vm_compute; set_solver].
      revert H. apply IH.
      destruct (script_opener_head m Hm) as [m' ->].
      apply (f_equal length) in E. simpl in *. rewrite length_app in E. lia.
    + rewrite sanitize_keep by done.
      intros [Ho|H]%has_opener_cons.
      * by apply opener_after_sanitize in Ho.
      * revert H. apply IH. simpl in Hn. lia.
Qed.

Lemma sanitize_unchanged (s : str) :
  ~ has_script_opener s -> sanitize_llm_html s = s.
Proof.
  induction s as [|c s IH]; [done|]. intros Hno.
  rewrite has_opener_cons in Hno.
  rewrite sanitize_keep, IH; tauto.
Qed.

(** Every text of this file is on the alphabet. *)
Lemma latin1_all (s : str) : latin1 s.
Proof.
  apply Forall_forall. intros c _. unfold code.
  destruct c as [[] [] [] [] [] [] [] []]; vm_compute; reflexivity.
Qed.

(** The pattern matches at a position exactly when an opener begins
    there. *)
Lemma match_len_opener_iff (prev : option ascii) (s : str) :
  is_Some (match_len script_re prev s) <-> opener_at_head s.
Proof.
  rewrite (script_re_local prev None).
  pose proof (match_len_opener s) as H.
  destruct (match_len script_re None s) as [n|].
  - destruct H as (m & b & E & _ & Hm & Hb).
    split; [intros _; by exists m, b|eauto].
  - split; [by intros [? ?]|done].
Qed.

(** The three equations of the scan determine the sanitiser. *)
Lemma sanitize_unique (f : str -> str) :
  f [] = [] ->
  (forall m b, script_opener m -> at_boundary b ->
     f (m ++ b) = ("&lt;script"%string : str) ++ f b) ->
  (forall c s, ~ opener_at_head (c :: s) -> f (c :: s) = c :: f s) ->
  forall s, f s = sanitize_llm_html s.
Proof.
  intros Hnil Hop Hkeep s.
  remember (length s) as n eqn:Hn. revert s Hn.
  induction n as [n IH] using lt_wf_ind. intros s ->.
  destruct s as [|c s]; [done|].
  destruct (opener_at_head_dec (c :: s)) as [(m & b & E & Hm & Hb)|Hno].
  - rewrite E, Hop, sanitize_opener by done. f_equal.
    apply (IH (length b)); [|done].
    destruct (script_opener_head m Hm) as [m' ->].
    apply (f_equal length) in E. simpl in E. rewrite length_app in E.
    simpl. lia.
  - rewrite Hkeep, sanitize_keep by done. f_equal.
    apply (IH (length s)); [simpl; lia|done].
Qed.

(** C4, as the code has it, for bodies on the alphabet of this file
    (code points below 256, first conjunct).  A script opener is what
    the pattern matches: [<], optional whitespace, [script] in any
    letter case, then a word boundary (second conjunct).  The sanitiser
    scans the body from the left: at the end it stops, an opener at the
    head is rewritten to [&lt;script] and the scan resumes after it, any
    other character is copied; these three equations hold of every
    body, and they determine the function.  Hence the output contains no
    opener, a body without an opener is returned unchanged, and an
    opener is rewritten whatever stands before it, the text before the
    first one being kept.  Beyond this alphabet the flag [i] also reads
    U+017F as [s] and U+0130, U+0131 as [i]; of such bodies nothing is
    stated. *)
Theorem sanitize_llm_html_openers :
  (forall s : str, latin1 s)
  /\ (forall prev s,
        is_Some (match_len script_re prev s) <-> opener_at_head s)
  /\ sanitize_llm_html [] = []
  /\ (forall m b, script_opener m -> at_boundary b ->
        sanitize_llm_html (m ++ b)
        = ("&lt;script"%string : str) ++ sanitize_llm_html b)
  /\ (forall c s, ~ opener_at_head (c :: s) ->
        sanitize_llm_html (c :: s) = c :: sanitize_llm_html s)
  /\ (forall f : str -> str,
        f [] = [] ->
        (forall m b, script_opener m -> at_boundary b ->
           f (m ++ b) = ("&lt;script"%string : str) ++ f b) ->
        (forall c s, ~ opener_at_head (c :: s) -> f (c :: s) = c :: f s) ->
        forall s, f s = sanitize_llm_html s)
  /\ (forall s, ~ has_script_opener (sanitize_llm_html s))
  /\ (forall s, ~ has_script_opener s -> sanitize_llm_html s = s)
  /\ (forall a m b, "<"%char ∉ a -> script_opener m -> at_boundary b ->
        sanitize_llm_html (a ++ m ++ b)
        = a ++ ("&lt;script"%string : str) ++ sanitize_llm_html b).
Proof.
  split; [exact latin1_all|]. split; [exact match_len_opener_iff|].
  split; [reflexivity|]. split; [exact sanitize_opener|].
  split; [exact sanitize_keep|]. split; [exact sanitize_unique|].
  split; [|split].
  - intros s. by apply (sanitize_clean_aux (length s)).
  - apply sanitize_unchanged.
  - intros a m b Ha Hm Hb.
    by rewrite sanitize_keep_prefix, sanitize_opener.
Qed.

Lemma sanitize_llm_html_openers_witness :
  sanitize_llm_html ("<p>a</p>"%string : str) = ("<p>a</p>"%string : str)
  /\ sanitize_llm_html ("x < ScRiPt>y"%string : str)
     = ("x &lt;script>y"%string : str)
  /\ sanitize_llm_html ("<p>a</p><script>b"%string : str)
     = ("<p>a</p>&lt;script>b"%string : str).
Proof.
  destruct sanitize_llm_html_openers
    as (_ & _ & _ & H4 & _ & _ & _ & H8 & H9).
  split; [|split].
  - apply H8. rewrite <- any_opener_spec. vm_compute. discriminate.
  - apply (H9 ("x "%string : str) ("< ScRiPt"%string : str)
              (">y"%string : str)).
    + vm_compute. set_solver.
    + exists (" "%string : str), ("ScRiPt"%string : str).
      split; [reflexivity|]. split; [|reflexivity].
      repeat constructor.
    + reflexivity.
  - vm_compute. reflexivity.
Defined.

(** C4 as stated fails: a body without the text [<script] is changed
    when it has the opener in another spelling. *)
Lemma sanitize_changes_spaced_opener :
  ~ (forall s, contains "<script"%string s = false ->
               sanitize_llm_html s = s).
Proof.
  intros H. specialize (H ("< script>"%string : str) eq_refl).
  vm_compute in H. discriminate.
Qed.

End SanitizeFacts.

(* ===================================================================== *)
(** * Token extraction                                                    *)
(* ===================================================================== *)

Module TokenFacts.
Import Text Regex Util Spec TextFacts RegexFacts.

Lemma split_space (c : ascii) (s : str) :
  is_space c = true -> split (c :: s) = split s.
Proof. simpl. by intros ->. Qed.

Lemma split_spaces (a s : str) :
  forallb is_space a = true -> split (a ++ s) = split s.
Proof.
  induction a as [|c a IH]; [done|]. simpl app.
  intros [Hc Ha]%andb_true_iff. rewrite split_space by done. auto.
Qed.

Lemma split_cons (c : ascii) (s : str) :
  is_space c = false ->
  split (c :: s) =
    if sp_head s then [c] :: split s
    else match split s with
         | w :: ws => (c :: w) :: ws
         | [] => [[c]]
         end.
Proof.
  intros Hc. destruct s as [|d s]; simpl; rewrite Hc; [done|].
  by destruct (is_space d).
Qed.

Lemma junk_blank (c : ascii) : junk c = true -> blank c = " "%char.
Proof. unfold junk, blank. by destruct (is_az09 c || is_space c). Qed.

Lemma keep_blank (c : ascii) : junk c = false -> blank c = c.
Proof. unfold junk, blank. by destruct (is_az09 c || is_space c). Qed.

Lemma junk_re_len (prev : option ascii) (c : ascii) (s : str) :
  match_len junk_re prev (c :: s) =
    if junk c then Some (length (c :: s) - length (drop_while junk s))
    else None.
Proof.
  unfold match_len, junk_re. simpl run.
  destruct (junk c); [|done].
  destruct (drop_while_split junk s) as (a & Hs & Ha).
  rewrite Hs at 1. apply star_first; [done|apply drop_while_head|done].
Qed.

Lemma junk_re_local : local_pattern junk_re.
Proof.
  intros prev prev' [|c s]; [done|]. by rewrite !junk_re_len.
Qed.

(** A run of junk becomes one blank. *)
Lemma sub_junk (c : ascii) (s : str) (repl : str) :
  junk c = true ->
  re_sub junk_re repl (c :: s)
  = repl ++ re_sub junk_re repl (drop_while junk s).
Proof.
  intros Hc. destruct (drop_while_split junk s) as (a & Hs & Ha).
  rewrite Hs at 1.
  apply (re_sub_match junk_re repl junk_re_local (c :: a)); [done|].
  simpl app. rewrite <- Hs, junk_re_len, Hc. f_equal.
  apply (f_equal length) in Hs. rewrite length_app in Hs. simpl. lia.
Qed.

Lemma sub_keep (c : ascii) (s : str) (repl : str) :
  junk c = false ->
  re_sub junk_re repl (c :: s) = c :: re_sub junk_re repl s.
Proof.
  intros Hc. apply re_sub_keep; [apply junk_re_local|].
  by rewrite junk_re_len, Hc.
Qed.

Lemma blank_run (a : str) :
  forallb junk a = true -> forallb is_space (map blank a) = true.
Proof.
  induction a as [|c a IH]; [done|]. simpl.
  intros [Hc Ha]%andb_true_iff. by rewrite (junk_blank c Hc), IH.
Qed.

(** Replacing each run by one blank or each character by a blank gives
    the same words. *)
Lemma split_sub_blank (n : nat) : forall t,
  length t <= n ->
  split (re_sub junk_re " "%string t) = split (map blank t)
  /\ sp_head (re_sub junk_re " "%string t) = sp_head (map blank t).
Proof.
  induction n as [|n IH]; intros t Hn.
  - destruct t; [done|simpl in Hn; lia].
  - destruct t as [|c t]; [done|]. simpl in Hn.
    destruct (junk c) eqn:Hc.
    + rewrite sub_junk by done. simpl map. rewrite (junk_blank c Hc).
      split; [|done].
      change (split (" "%char :: re_sub junk_re " "%string (drop_while junk t))
              = split (" "%char :: map blank t)).
      rewrite !split_space by done.
      destruct (drop_while_split junk t) as (a & Ht & Ha).
      rewrite Ht at 2. rewrite map_app, split_spaces by by apply blank_run.
      apply IH. pose proof (drop_while_length junk t). lia.
    + rewrite sub_keep by done. simpl map. rewrite (keep_blank c Hc).
      destruct (IH t ltac:(lia)) as [Hs Hh]. split; [|done].
      destruct (is_space c) eqn:Hsp.
      * by rewrite !split_space.
      * by rewrite !split_cons, Hs, Hh.
Qed.

Lemma simple_tokens_ref (s : str) : simple_tokens s = tokens_ref s.
Proof.
  unfold simple_tokens, tokens_ref.
  destruct (split_sub_blank (length (lower s)) (lower s) ltac:(done))
    as [-> _].
  f_equal. apply list_filter_iff. intros p. split; [tauto|].
  intros Hp. split; [|done]. destruct p; [simpl in Hp; lia|done].
Qed.

Lemma sample_tokens :
  simple_tokens ("The Big-Bad Test 2024"%string : str)
  = {[ ("the"%string : str); ("big"%string : str); ("bad"%string : str);
       ("test"%string : str); ("2024"%string : str) ]}.
Proof.
  unfold simple_tokens.
  set (l := filter _ _). vm_compute in l. subst l.
  apply set_eq. intros x. set_solver.
Qed.

(** C2, as the code has it.  Token extraction is the reference
    extraction (lowercase, blank out what is outside [a-z0-9] and
    whitespace, split, keep the tokens longer than 2, as a set), and the
    tokens of [The Big-Bad Test 2024] are the, big, bad, test and
    2024. *)
Theorem simple_tokens_reference :
  (forall s, simple_tokens s = tokens_ref s)
  /\ simple_tokens ("The Big-Bad Test 2024"%string : str)
     = {[ ("the"%string : str); ("big"%string : str); ("bad"%string : str);
          ("test"%string : str); ("2024"%string : str) ]}.
Proof. split; [apply simple_tokens_ref|apply sample_tokens]. Qed.

(** C2 as stated fails: the three-letter token [the] is kept. *)
Lemma simple_tokens_keeps_the :
  simple_tokens ("The Big-Bad Test 2024"%string : str)
  <> {[ ("big"%string : str); ("bad"%string : str);
        ("test"%string : str); ("2024"%string : str) ]}.
Proof.
  rewrite sample_tokens. intros H.
  assert (Hin : ("the"%string : str) ∈
    ({[ ("big"%string : str); ("bad"%string : str);
        ("test"%string : str); ("2024"%string : str) ]} : gset str)).
  { rewrite <- H. set_solver. }
  rewrite !elem_of_union, !elem_of_singleton in Hin.
  destruct Hin as [[[?|?]|?]|?]; discriminate.
Qed.

End TokenFacts.

(* ===================================================================== *)
(** * Parsing of the model output                                         *)
(* ===================================================================== *)

Module ParseFacts.
Import Text Regex Util Generate Spec Reading TextFacts RegexFacts
  SanitizeFacts.

Lemma take_app_diff (a b : str) :
  take (length (a ++ b) - length b) (a ++ b) = a.
Proof.
  rewrite length_app. replace (length a + length b - length b) with (length a) by lia.
  by rewrite take_app_length.
Qed.

Lemma forallb_any (a : str) : forallb any a = true.
Proof. by induction a. Qed.

(** What the pattern of the parser can match: the two-part format, with
    the two groups as title and body. *)
Lemma title_re_matches (s : str) prev' s' caps' :
  Matches title_re None s [] prev' s' caps' ->
  exists g1 g2,
    two_part s g1 (g2 ++ s') /\ (s' = [] \/ s' = [nl]) /\ caps' = [g1; g2].
Proof.
  unfold title_re. simpl seq.
  intros (p1 & s1 & c1 & (_ & -> & -> & ->)
        & p2 & s2 & c2 & (w0 & -> & Hw0 & -> & ->)
        & p3 & s3 & c3 & Hlit
        & p4 & s4 & c4 & (w1 & E4 & Hw1 & -> & ->)
        & p5 & s5 & c5 & (c5' & (g1 & Hg1 & E5 & _ & -> & ->) & ->)
        & p6 & s6 & c6 & (w2 & E6 & Hw2 & -> & ->)
        & p7 & s7 & c7 & (n1 & E7 & Hn1 & -> & ->)
        & p8 & s8 & c8 & (w3 & E8 & Hw3 & -> & ->)
        & p9 & s9 & c9 & (n2 & E9 & Hn2 & -> & ->)
        & p10 & s10 & c10 & (c10' & (g2 & E10 & _ & -> & ->) & ->)
        & (Hend & -> & -> & ->)).
  apply (proj1 (Matches_lit_i ("TITLE:"%string : str) _ _ _ _ _ _)) in Hlit
    as (h & -> & Hh & -> & ->).
  apply ascii_eqb_eq in Hn1 as <-. apply ascii_eqb_eq in Hn2 as <-.
  subst s3 s4 s5 s6 s7 s8 s9.
  rewrite !take_app_diff.
  exists g1, g2. split; [|done].
  exists w0, h, w1, w2, w3.
  split; [done|]. unfold all_space.
  rewrite !(Forall_forallb is_space). done.
Qed.

Lemma title_re_matches_inv (s g1 g2 : str) :
  two_part s g1 g2 ->
  exists prev', Matches title_re None s [] prev' [] [g1; g2].
Proof.
  intros (w0 & h & w1 & w2 & w3 & -> & Hw0 & Hh & Hw1 & Hg1 & Hw2 & Hw3).
  rewrite !(Forall_forallb is_space) in *.
  eexists. unfold title_re. simpl seq.
  eexists _, _, _. split; [done|].
  eexists _, _, _. split; [by exists w0|].
  eexists _, _, _. split.
  { apply (proj2 (Matches_lit_i ("TITLE:"%string : str) _ _ _ _ _ _)).
    by exists h. }
  eexists _, _, _. split; [by exists w1|].
  eexists _, _, _. split.
  { exists []. split.
    - exists g1. split; [done|]. split; [reflexivity|].
      split; [apply forallb_any|done].
    - reflexivity. }
  rewrite take_app_diff.
  eexists _, _, _. split; [by exists w2|].
  eexists _, _, _. split; [exists nl; by rewrite ascii_eqb_refl|].
  eexists _, _, _. split; [by exists w3|].
  eexists _, _, _. split; [exists nl; by rewrite ascii_eqb_refl|].
  eexists _, _, _. split.
  { exists [g1]. split.
    - exists g2. split; [by rewrite app_nil_r|].
      split; [apply forallb_any|done].
    - simpl. by rewrite Nat.sub_0_r, firstn_all. }
  split; [by left|done].
Qed.


Lemma title_re_unfold :
  title_re =
    RSeq RStart (RSeq (RStar is_space) (RSeq (lit_i ("TITLE:"%string : str))
      (RSeq (RStar is_space) (RSeq (RGroup (RPlusLazy any)) sep_re)))).
Proof. reflexivity. Qed.

Lemma sep_re_matches prev (s : str) caps prev' s' caps' :
  Matches sep_re prev s caps prev' s' caps' ->
  exists w2 w3 g2,
    s = w2 ++ [nl] ++ w3 ++ [nl] ++ g2 ++ s'
    /\ forallb is_space w2 = true /\ forallb is_space w3 = true
    /\ (s' = [] \/ s' = [nl]) /\ caps' = caps ++ [g2].
Proof.
  unfold sep_re. simpl seq.
  intros (p6 & s6 & c6 & (w2 & E6 & Hw2 & -> & ->)
        & p7 & s7 & c7 & (n1 & E7 & Hn1 & -> & ->)
        & p8 & s8 & c8 & (w3 & E8 & Hw3 & -> & ->)
        & p9 & s9 & c9 & (n2 & E9 & Hn2 & -> & ->)
        & p10 & s10 & c10 & (c10' & (g2 & E10 & _ & -> & ->) & ->)
        & (Hend & -> & -> & ->)).
  apply ascii_eqb_eq in Hn1 as <-. apply ascii_eqb_eq in Hn2 as <-.
  subst s s6 s7 s8 s9. rewrite take_app_diff.
  by exists w2, w3, g2.
Qed.

Lemma sep_re_matches_inv prev (w2 w3 g2 : str) caps :
  forallb is_space w2 = true -> forallb is_space w3 = true ->
  exists prev',
    Matches sep_re prev (w2 ++ [nl] ++ w3 ++ [nl] ++ g2) caps
            prev' [] (caps ++ [g2]).
Proof.
  intros Hw2 Hw3. eexists. unfold sep_re. simpl seq.
  eexists _, _, _. split; [by exists w2|].
  eexists _, _, _. split; [exists nl; by rewrite ascii_eqb_refl|].
  eexists _, _, _. split; [by exists w3|].
  eexists _, _, _. split; [exists nl; by rewrite ascii_eqb_refl|].
  eexists _, _, _. split.
  { exists caps. split.
    - exists g2. split; [by rewrite app_nil_r|].
      split; [apply forallb_any|done].
    - simpl. by rewrite Nat.sub_0_r, firstn_all. }
  split; [by left|done].
Qed.

Lemma prefix_without (c : ascii) (a rest w t : str) :
  a ++ rest = w ++ c :: t -> c ∉ a -> exists w', w = a ++ w'.
Proof.
  revert w. induction a as [|d a IH]; intros w E Hc; [by exists w|].
  destruct w as [|d' w]; simpl in E.
  - injection E as -> _. set_solver.
  - injection E as -> E. destruct (IH w E) as [w' ->]; [set_solver|].
    by exists w'.
Qed.

Lemma prefix_spaces (p : ascii -> bool) (P X Q Y : str) :
  P ++ X = Q ++ Y -> forallb p P = true ->
  match Y with [] => True | c :: _ => p c = false end ->
  exists Q', Q = P ++ Q' /\ X = Q' ++ Y.
Proof.
  revert Q. induction P as [|c P IH]; intros Q E HP HY; [by exists Q|].
  simpl in HP. apply andb_true_iff in HP as [Hc HP].
  destruct Q as [|d Q]; simpl in E.
  - subst Y. congruence.
  - injection E as -> E. destruct (IH Q E HP HY) as (Q' & -> & ->).
    by exists Q'.
Qed.

(** Inside the title line the separator cannot start. *)
Lemma sep_fail {R} prev (a rest : str) caps
    (k : option ascii -> str -> list str -> option R) (c : ascii) u :
  a = u ++ [c] -> is_space c = false -> nl ∉ a ->
  run sep_re prev (a ++ rest) caps k = None.
Proof.
  intros -> Hc Hnl.
  destruct (run sep_re prev ((u ++ [c]) ++ rest) caps k) as [x|] eqn:Hr;
    [|done].
  apply run_sound in Hr as (prev' & s' & caps' & Hm & _).
  apply sep_re_matches in Hm as (w2 & w3 & g2 & E & Hw2 & _).
  apply prefix_without in E as [w' ->]; [|done].
  rewrite !forallb_app in Hw2. simpl in Hw2. rewrite Hc in Hw2.
  by rewrite andb_false_r in Hw2.
Qed.

(** After the title line the separator matches, and the second group
    is the body up to leading whitespace. *)
Lemma sep_ok prev (Q B : str) caps :
  forallb is_space Q = true -> trimmed B -> B <> [] ->
  (exists w2 w3 g2, Q ++ B = w2 ++ [nl] ++ w3 ++ [nl] ++ g2
      /\ forallb is_space w2 = true /\ forallb is_space w3 = true) ->
  exists g2, run sep_re prev (Q ++ B) caps (fun _ _ caps' => Some caps')
             = Some (caps ++ [g2])
             /\ strip g2 = B.
Proof.
  intros HQ HB HBne (w2 & w3 & g & E & Hw2 & Hw3).
  destruct (sep_re_matches_inv prev w2 w3 g caps Hw2 Hw3) as [pv Hm].
  rewrite <- E in Hm.
  destruct (run_complete sep_re _ _ _ _ _ _ (fun _ _ caps' => Some caps')
              Hm ltac:(eauto)) as [x Hx].
  rewrite Hx. apply run_sound in Hx as (prev' & s' & caps' & Hm' & [= <-]).
  apply sep_re_matches in Hm' as (v2 & v3 & g2 & E' & Hv2 & Hv3 & He & ->).
  exists g2. split; [done|].
  assert (E2 : (v2 ++ [nl] ++ v3 ++ [nl]) ++ (g2 ++ s') = Q ++ B).
  { rewrite E'. by rewrite <- !app_assoc. }
  destruct HB as [HBh HBl].
  apply (prefix_spaces is_space) in E2 as (Q' & -> & E2); [| |done].
  2:{ rewrite !forallb_app. simpl. by rewrite Hv2, Hv3. }
  rewrite !forallb_app in HQ. apply andb_true_iff in HQ as [_ HQ'].
  destruct He as [-> | ->].
  - rewrite app_nil_r in E2. subst g2.
    rewrite <- (app_nil_r B) at 1. rewrite strip_pad by done.
    by apply trimmed_strip.
  - exfalso. assert (Hl : last (g2 ++ [nl]) = last (Q' ++ B)) by by rewrite E2.
    rewrite last_snoc, last_app in Hl.
    destruct (last B) as [c|] eqn:HlB.
    + injection Hl as <-. done.
    + apply last_None in HlB. done.
Qed.


Lemma run_title_prefix {R} (X : str)
    (k : option ascii -> str -> list str -> option R) :
  run title_re None (("TITLE:"%string : str) ++ X) [] k
  = star is_space (Some ":"%char) X
      (fun pv s' => run (RSeq (RGroup (RPlusLazy any)) sep_re) pv s' [] k).
Proof. reflexivity. Qed.

Lemma run_group_lazy {R} (c1 : ascii) (t : str) pv
    (k : option ascii -> str -> list str -> option R) :
  run (RSeq (RGroup (RPlusLazy any)) sep_re) pv (c1 :: t) [] k
  = star_lazy any (Some c1) t
      (fun pv' s'' =>
         run sep_re pv' s''
             [take (length (c1 :: t) - length s'') (c1 :: t)] k).
Proof. reflexivity. Qed.

Lemma strip_core (text body : str) :
  strip text <> [] -> strip body <> [] ->
  exists wT wT' wB,
    text = wT ++ strip text ++ wT'
    /\ forallb is_space wT = true /\ forallb is_space wT' = true
    /\ forallb is_space wB = true
    /\ strip (exact_format text body)
       = ("TITLE:"%string : str) ++ (" "%char :: wT)
         ++ strip text ++ (wT' ++ [nl; nl] ++ wB) ++ strip body.
Proof.
  intros HT HB.
  destruct (strip_decompose text) as (wT & wT' & Ht & HwT & HwT').
  destruct (strip_decompose body) as (wB & wB' & Hb & HwB & HwB').
  exists wT, wT', wB. split; [done|]. do 3 (split; [done|]).
  unfold exact_format. rewrite Ht at 1. rewrite Hb at 1.
  set (core := ("TITLE:"%string : str) ++ (" "%char :: wT)
         ++ strip text ++ (wT' ++ [nl; nl] ++ wB) ++ strip body).
  replace (("TITLE: "%string : str) ++ (wT ++ strip text ++ wT') ++ [nl; nl]
           ++ wB ++ strip body ++ wB')
    with ([] ++ core ++ wB').
  2:{ subst core. simpl. by rewrite <- !app_assoc. }
  rewrite strip_pad by done. apply trimmed_strip.
  split; [done|]. subst core.
  destruct (strip_trimmed body) as [_ Hl].
  rewrite !last_app.
  destruct (last (strip body)) as [c|] eqn:E; [done|].
  by apply last_None in E.
Qed.

(** The exact format is split at its empty line. *)
Lemma split_exact (title text body : str) :
  single_line text -> strip text <> [] -> strip body <> [] ->
  split_title_body title (exact_format text body)
  = (strip text, strip body).
Proof.
  intros Hline HT HB.
  destruct (strip_core text body HT HB)
    as (wT & wT' & wB & Ht & HwT & HwT' & HwB & Hs).
  unfold split_title_body. rewrite Hs. clear Hs.
  pose proof (strip_trimmed text) as [HTh HTl].
  pose proof (strip_trimmed body) as HBt.
  set (T2 := strip text) in *. set (B2 := strip body) in *.
  set (rest := (wT' ++ [nl; nl] ++ wB) ++ B2).
  assert (Hnl : nl ∉ T2).
  { intros Hin. apply Hline. rewrite Ht. set_solver. }
  assert (Hrun : exists g2, re_match title_re
    (("TITLE:"%string : str) ++ (" "%char :: wT) ++ T2 ++ rest)
    = Some [T2; g2] /\ strip g2 = B2).
  { destruct T2 as [|c1 T2'] eqn:ET; [done|].
    destruct (sep_ok (last_of (Some c1) T2') (wT' ++ [nl; nl] ++ wB)
                B2 [c1 :: T2']) as (g & Hr & Hg);
      [by rewrite !forallb_app, HwT', HwB|done|done| |].
    { exists wT', [], (wB ++ B2). simpl. by rewrite <- !app_assoc. }
    fold rest in Hr. exists g. split; [|done].
    unfold re_match. rewrite run_title_prefix.
    apply (star_first is_space _ (" "%char :: wT)).
    - simpl. by rewrite HwT.
    - done.
    - simpl app. rewrite run_group_lazy.
      apply (star_lazy_first any _ T2').
      + apply forallb_any.
      + intros a1 a2 -> Ha2.
        destruct a2 as [|d a2 _] using rev_ind; [done|].
        apply (sep_fail _ (a2 ++ [d]) rest _ _ d a2); [done| |].
        * rewrite app_comm_cons, app_assoc, last_snoc in HTl. done.
        * set_solver.
      + change (c1 :: T2' ++ rest) with ((c1 :: T2') ++ rest).
        rewrite take_app_diff. exact Hr. }
  destruct Hrun as (g2 & Hrun & Hg2).
  rewrite Hrun. simpl. by rewrite Hg2, (trimmed_strip T2).
Qed.


Lemma no_match_no_format (s : str) :
  re_match title_re s = None -> ~ has_two_part_format s.
Proof.
  intros Hn (g1 & g2 & H).
  destruct (title_re_matches_inv s g1 g2 H) as [prev' Hm].
  apply re_match_complete in Hm as [x Hx]. congruence.
Qed.

(** Without the format the parser falls back. *)
Lemma split_fallback (title out : str) :
  ~ has_two_part_format (strip out) ->
  split_title_body title out = (title, strip out).
Proof.
  intros Hno. unfold split_title_body.
  destruct (re_match title_re (strip out)) as [groups|] eqn:Hm; [|done].
  exfalso. apply Hno.
  apply re_match_sound in Hm as (prev' & s' & Hm).
  apply title_re_matches in Hm as (g1 & g2 & H & _). by exists g1, (g2 ++ s').
Qed.

(** With the format the result is one of its readings. *)
Lemma split_match (title out : str) :
  has_two_part_format (strip out) ->
  exists t b, two_part (strip out) t b
              /\ split_title_body title out = (strip t, strip b).
Proof.
  intros (g1 & g2 & H). unfold split_title_body.
  destruct (title_re_matches_inv _ g1 g2 H) as [prev' Hm].
  apply re_match_complete in Hm as [groups Hg]. rewrite Hg.
  apply re_match_sound in Hg as (pv & s' & Hm).
  apply title_re_matches in Hm as (t & b & Htb & He & ->).
  exists t, (b ++ s'). split; [done|]. simpl. f_equal.
  rewrite <- (strip_pad [] b s'); [done|done|].
  by destruct He as [-> | ->].
Qed.

(** ** The reading that the parser takes *)

Lemma two_part_reading (s t b : str) :
  two_part s t b <-> exists w1, reading s w1 t b.
Proof.
  split.
  - intros (w0 & h & w1 & w2 & w3 & H). by exists w1, w0, h, w2, w3.
  - intros (w1 & w0 & h & w2 & w3 & H). by exists w0, h, w1, w2, w3.
Qed.

(** The header is not whitespace. *)
Lemma header_letters (h : str) :
  lower h = ("title:"%string : str) ->
  length h = 6 /\ match h with [] => True | c :: _ => is_space c = false end.
Proof.
  intros H. assert (Hl : length h = 6).
  { apply (f_equal length) in H. unfold lower in H.
    by rewrite length_map in H. }
  split; [done|]. destruct h as [|c h]; [done|].
  simpl in H. injection H as Hc _.
  apply (letter_facts c). by rewrite Hc.
Qed.

(** Every reading of a text has the header at the same place. *)
Lemma reading_inv (w0 h rest w1 t b : str) :
  forallb is_space w0 = true -> lower h = ("title:"%string : str) ->
  reading (w0 ++ h ++ rest) w1 t b ->
  exists w2 w3,
    rest = w1 ++ t ++ w2 ++ [nl] ++ w3 ++ [nl] ++ b
    /\ all_space w1 /\ t <> [] /\ all_space w2 /\ all_space w3.
Proof.
  intros Hw0 Hh (w0' & h' & w2 & w3 & E & Hw0' & Hh' & Hw1 & Ht & Hw2 & Hw3).
  exists w2, w3. split; [|done].
  destruct (header_letters h Hh) as [Hl Hc].
  destruct (header_letters h' Hh') as [Hl' Hc'].
  unfold all_space in Hw0'. rewrite (Forall_forallb is_space) in Hw0'.
  apply (span_unique is_space) in E as [_ E]; [|done|done| |].
  - apply app_inj_1 in E as [_ E]; [done|congruence].
  - destruct h as [|c h]; [done|]. done.
  - destruct h' as [|c h']; [done|]. done.
Qed.

(** The pattern after the header and its whitespace: the title group
    and the separator. *)
Lemma group_sep_matches_inv pv (t w2 w3 b : str) :
  t <> [] -> all_space w2 -> all_space w3 ->
  exists prev',
    Matches (RSeq (RGroup (RPlusLazy any)) sep_re) pv
            (t ++ w2 ++ [nl] ++ w3 ++ [nl] ++ b) [] prev' [] [t; b].
Proof.
  intros Ht Hw2 Hw3. unfold all_space in *.
  rewrite (Forall_forallb is_space) in Hw2, Hw3.
  destruct (sep_re_matches_inv (last_of pv t) w2 w3 b [t] Hw2 Hw3)
    as [prev' Hm].
  exists prev'. simpl Matches.
  exists (last_of pv t), (w2 ++ [nl] ++ w3 ++ [nl] ++ b), [t]. split.
  - exists []. split.
    + exists t. split; [done|]. split; [reflexivity|].
      split; [apply forallb_any|done].
    + by rewrite take_app_diff.
  - exact Hm.
Qed.

Lemma title_re_unfold_run {R} (s : str)
    (k : option ascii -> str -> list str -> option R) :
  run title_re None s [] k
  = star is_space None s (fun pv1 s1 =>
      run (lit_i ("TITLE:"%string : str)) pv1 s1 []
        (fun pv2 s2 c2 =>
           star is_space pv2 s2 (fun pv3 s3 =>
             run (RSeq (RGroup (RPlusLazy any)) sep_re) pv3 s3 c2 k))).
Proof. reflexivity. Qed.

(** What the parser's pattern returns is the first reading. *)
Lemma re_match_first (s : str) (groups : list str) :
  re_match title_re s = Some groups ->
  exists t g2 e, groups = [t; g2] /\ (e = [] \/ e = [nl])
                 /\ first_reading s t (g2 ++ e).
Proof.
  unfold re_match. rewrite title_re_unfold_run.
  intros (w0 & s1 & -> & Hw0 & H1)%star_sound.
  apply run_sound in H1 as (p2 & s2 & c2 & Hlit & H2).
  apply (proj1 (Matches_lit_i ("TITLE:"%string : str) _ _ _ _ _ _)) in Hlit
    as (h & -> & Hh & -> & ->).
  change (lower ("TITLE:"%string : str)) with ("title:"%string : str) in Hh.
  apply star_longest in H2 as (w1 & s3 & -> & Hw1 & H3 & Hmax).
  destruct s3 as [|c1 s3]; [done|].
  rewrite run_group_lazy in H3.
  apply star_lazy_shortest in H3 as (a & s4 & -> & _ & H4 & Hmin).
  change (c1 :: a ++ s4) with ((c1 :: a) ++ s4) in H4.
  rewrite take_app_diff in H4.
  apply run_sound in H4 as (p5 & s5 & c5 & Hsep & [= <-]).
  apply sep_re_matches in Hsep as (w2 & w3 & g2 & -> & Hw2 & Hw3 & He & ->).
  exists (c1 :: a), g2, s5. split; [done|]. split; [done|].
  assert (Hr : reading
    (w0 ++ h ++ w1 ++ (c1 :: a) ++ w2 ++ [nl] ++ w3 ++ [nl] ++ g2 ++ s5)
    w1 (c1 :: a) (g2 ++ s5)).
  { exists w0, h, w2, w3. unfold all_space.
    rewrite !(Forall_forallb is_space). done. }
  exists w1. split.
  { simpl app in Hr |- *. exact Hr. }
  intros w1' t' b' Hr'.
  apply reading_inv in Hr' as (v2 & v3 & E & Hv1 & Ht' & Hv2 & Hv3);
    [|done|done].
  destruct (group_sep_matches_inv (last_of (last_of (last_of None w0) h) w1')
              t' v2 v3 b' Ht' Hv2 Hv3) as [pv Hm].
  destruct (Nat.lt_trichotomy (length w1') (length w1)) as [Hlt|[Heq|Hgt]];
    [by left| |].
  - right. split; [done|].
    apply app_inj_1 in E as [-> E]; [|done].
    destruct (Nat.le_gt_cases (length (c1 :: a)) (length t')) as [|Hsh];
      [done|exfalso].
    destruct t' as [|c' a']; [done|].
    injection E as <- E.
    assert (E' : a ++ w2 ++ [nl] ++ w3 ++ [nl] ++ g2 ++ s5
                 = a' ++ v2 ++ [nl] ++ v3 ++ [nl] ++ b') by exact E.
    assert (Hnone := Hmin a' _ E' ltac:(simpl in Hsh; lia)).
    rewrite E' in Hnone.
    change (c1 :: a' ++ v2 ++ [nl] ++ v3 ++ [nl] ++ b')
      with ((c1 :: a') ++ v2 ++ [nl] ++ v3 ++ [nl] ++ b') in Hnone.
    rewrite take_app_diff in Hnone.
    destruct (sep_re_matches_inv (last_of (Some c1) a') v2 v3 b'
                [c1 :: a']) as [pv' Hm'].
    { by apply Forall_forallb. }
    { by apply Forall_forallb. }
    destruct (run_complete sep_re _ _ _ _ _ _ (fun _ _ caps' => Some caps')
                Hm' ltac:(eauto)) as [x Hx].
    congruence.
  - exfalso.
    assert (Hnone := Hmax w1' _ E ltac:(by apply Forall_forallb) Hgt).
    destruct (run_complete _ _ _ _ _ _ _ (fun _ _ caps' => Some caps')
                Hm ltac:(eauto)) as [x Hx].
    congruence.
Qed.

Lemma strip_after_space (p b p' b' : str) :
  p ++ b = p' ++ b' -> forallb is_space p = true ->
  forallb is_space p' = true -> strip b = strip b'.
Proof.
  intros E Hp Hp'.
  rewrite <- (strip_pad p b [] Hp eq_refl).
  rewrite <- (strip_pad p' b' [] Hp' eq_refl).
  by rewrite !app_nil_r, E.
Qed.

(** The first reading is unique up to the whitespace around the body. *)
Lemma first_reading_unique (s t b t' b' : str) :
  first_reading s t b -> first_reading s t' b' ->
  t = t' /\ strip b = strip b'.
Proof.
  intros (w1 & Hr & Hfirst) (w1' & Hr' & Hfirst').
  destruct (Hfirst _ _ _ Hr') as [?|[? ?]];
    destruct (Hfirst' _ _ _ Hr) as [?|[? ?]]; try lia.
  destruct Hr as (w0 & h & w2 & w3 & -> & Hw0 & Hh & Hw1 & Ht & Hw2 & Hw3).
  apply reading_inv in Hr' as (v2 & v3 & E & Hv1 & Ht' & Hv2 & Hv3);
    [|by apply Forall_forallb|done].
  apply app_inj_1 in E as [-> E]; [|done].
  apply app_inj_1 in E as [-> E]; [|lia].
  split; [done|].
  unfold all_space in *. rewrite (Forall_forallb is_space) in *.
  apply (strip_after_space (w2 ++ [nl] ++ w3 ++ [nl])
                           _ (v2 ++ [nl] ++ v3 ++ [nl])).
  - by rewrite <- !app_assoc.
  - rewrite !forallb_app. simpl. by rewrite Hw2, Hw3.
  - rewrite !forallb_app. simpl. by rewrite Hv2, Hv3.
Qed.

(** With the format, the parser returns the first reading. *)
Lemma split_first (title out t b : str) :
  first_reading (strip out) t b ->
  split_title_body title out = (strip t, strip b).
Proof.
  intros Hf. unfold split_title_body.
  destruct (re_match title_re (strip out)) as [groups|] eqn:Hm.
  - apply re_match_first in Hm as (t' & g2 & e & -> & He & Hf').
    destruct (first_reading_unique _ _ _ _ _ Hf Hf') as [-> Hb].
    simpl. f_equal. rewrite Hb.
    rewrite <- (strip_pad [] g2 e); [done|done|].
    by destruct He as [-> | ->].
  - exfalso. apply no_match_no_format in Hm. apply Hm.
    destruct Hf as (w1 & Hr & _). exists t, b.
    apply two_part_reading. by exists w1.
Qed.

(** A text in the format has a first reading. *)
Lemma first_reading_exists (s : str) :
  has_two_part_format s -> exists t b, first_reading s t b.
Proof.
  intros (g1 & g2 & H).
  destruct (title_re_matches_inv _ g1 g2 H) as [prev' Hm].
  apply re_match_complete in Hm as [groups Hg].
  apply re_match_first in Hg as (t & b & e & _ & _ & Hf). eauto.
Qed.

Lemma first_reading_two_part (s t b : str) :
  first_reading s t b -> two_part s t b.
Proof. intros (w1 & Hr & _). apply two_part_reading. by exists w1. Qed.

(** The pattern matches exactly the texts in the two-part format. *)
Lemma title_re_format (s : str) :
  is_Some (re_match title_re s) <-> has_two_part_format s.
Proof.
  split.
  - intros [groups Hm]. apply re_match_sound in Hm as (prev' & s' & Hm).
    apply title_re_matches in Hm as (g1 & g2 & H & _).
    by exists g1, (g2 ++ s').
  - intros (g1 & g2 & H).
    destruct (title_re_matches_inv s g1 g2 H) as [prev' Hm].
    by apply re_match_complete in Hm.
Qed.

(** C5, as the code has it, for outputs on the alphabet of this file
    (code points below 256, first conjunct; beyond it the flag [i] also
    reads U+0130 and U+0131 as the [I] of the header, and of such
    outputs nothing is stated).  Parsing of the model output.  The
    two-part format is what the pattern matches (second conjunct): the
    header [TITLE:] in any letter case, a title text, two line feeds
    that only whitespace separates and precedes, the body.  An output
    in the exact format (the line [TITLE: <text>] with a text that is
    not blank, an empty line, a body that is not blank) is split into
    that title and that body, both stripped; an output without the
    two-part format gives the title handed in and the whole stripped
    output; one with the format gives the title and the body of its
    first reading, both stripped: the reading with the longest
    whitespace after the header and then the shortest title, which
    fixes the title and, up to the whitespace around it, the body.  In
    [deepseek_article] the title handed in is the candidate's title and
    the output is the chat reply, both already stripped, and the body is
    sanitised afterwards; in particular [TITLE: Foo Bar], an empty line
    and [<p>Body</p>] give the title [Foo Bar] and the body
    [<p>Body</p>]. *)
Theorem split_title_body_contract :
  (forall s : str, latin1 s)
  /\ (forall s, is_Some (re_match title_re s) <-> has_two_part_format s)
  /\ (forall title text body,
        single_line text -> strip text <> [] -> strip body <> [] ->
        split_title_body title (exact_format text body)
        = (strip text, strip body))
  /\ (forall title out, ~ has_two_part_format (strip out) ->
        split_title_body title out = (title, strip out))
  /\ (forall title out, has_two_part_format (strip out) ->
        exists t b, first_reading (strip out) t b
                    /\ two_part (strip out) t b
                    /\ split_title_body title out = (strip t, strip b))
  /\ (forall title out t b, first_reading (strip out) t b ->
        split_title_body title out = (strip t, strip b))
  /\ (forall s t b t' b', first_reading s t b -> first_reading s t' b' ->
        t = t' /\ strip b = strip b')
  /\ (forall (Site : Type) chat_completion item raw (w : World (Site:=Site)),
        let title := strip (dget item "title" []) in
        chat_completion title (strip (dget item "link" []))
                        (strip (dget item "summary" [])) = inr raw ->
        (deepseek_article chat_completion item w).2
        = inr (let '(t, h) := split_title_body title (strip raw) in
               (t, sanitize_llm_html h))
        /\ (~ has_two_part_format (strip raw) ->
            split_title_body title (strip raw) = (title, strip raw)))
  /\ (forall title,
        article_of_output title
          (exact_format ("Foo Bar"%string : str) ("<p>Body</p>"%string : str))
        = (("Foo Bar"%string : str), ("<p>Body</p>"%string : str))).
Proof.
  split; [exact latin1_all|]. split; [exact title_re_format|].
  split; [exact split_exact|]. split; [exact split_fallback|].
  split.
  { intros title out Hf.
    destruct (first_reading_exists _ Hf) as (t & b & Hfirst).
    exists t, b. split; [done|].
    split; [by apply first_reading_two_part|by apply split_first]. }
  split; [exact split_first|]. split; [exact first_reading_unique|].
  split; [|reflexivity].
  intros Site chat_completion item raw w title Hc. split.
  - unfold deepseek_article, chat, log, modify, lift, mbind, M_bind, mret,
      M_ret. simpl.
    assert (Hs : str_or (dget item "summary" []) [] = dget item "summary" [])
      by by destruct (dget item "summary" []).
    rewrite Hs. fold title. rewrite Hc. simpl. unfold article_of_output.
    destruct (split_title_body title (strip raw)) as [t h].
    by destruct h.
  - intros Hno. rewrite <- (strip_idem raw) in Hno.
    rewrite (split_fallback _ _ Hno). by rewrite strip_idem.
Qed.

Lemma split_title_body_contract_witness :
  split_title_body ("Old title"%string : str)
    (exact_format ("Foo Bar"%string : str) ("<p>Body</p>"%string : str))
  = (("Foo Bar"%string : str), ("<p>Body</p>"%string : str))
  /\ split_title_body ("Old title"%string : str)
       ("Sorry, I cannot write this."%string : str)
     = (("Old title"%string : str), ("Sorry, I cannot write this."%string : str)).
Proof.
  destruct split_title_body_contract as (_ & _ & H1 & H2 & _). split.
  - apply (H1 _ ("Foo Bar"%string : str) ("<p>Body</p>"%string : str)).
    + unfold single_line. vm_compute. set_solver.
    + vm_compute. discriminate.
    + vm_compute. discriminate.
  - apply (H2 _ ("Sorry, I cannot write this."%string : str)).
    apply no_match_no_format. vm_compute. reflexivity.
Defined.

(** C5 as stated fails: an output whose second line is not empty is not
    in the exact format, yet the parser does not fall back; it takes the
    lines up to the first empty line as the title. *)
Lemma split_title_body_multiline_title :
  let out := ("TITLE: a"%string : str) ++ [nl] ++ ("b"%string : str)
             ++ [nl; nl] ++ ("c"%string : str) in
  ~ in_exact_format out
  /\ split_title_body ("Old title"%string : str) out
     = (("a"%string : str) ++ [nl] ++ ("b"%string : str), ("c"%string : str))
  /\ split_title_body ("Old title"%string : str) out
     <> (("Old title"%string : str), out).
Proof.
  split; [|split; [by vm_compute|by vm_compute]].
  intros (text & body & Hline & E). unfold exact_format in E.
  simpl in E. injection E as E.
  destruct text as [|c text]; [discriminate|]. injection E as <- E.
  destruct text as [|d text]; [discriminate|]. injection E as <- E.
  apply Hline. set_solver.
Qed.

End ParseFacts.

(* ===================================================================== *)
(** * Related articles                                                    *)
(* ===================================================================== *)

Module RelatedFacts.
Import Text Util Generate Spec Samples.

(** ** The stable descending sort *)

Lemma insert_desc_perm {A} (x : Qc * A) (l : list (Qc * A)) :
  insert_desc x l ≡ₚ x :: l.
Proof.
  induction l as [|y l IH]; simpl; [done|].
  case_bool_decide; [|done]. rewrite IH. apply Permutation_swap.
Qed.

Lemma sort_desc_perm {A} (l : list (Qc * A)) : sort_desc l ≡ₚ l.
Proof.
  induction l as [|x l IH]; simpl; [done|].
  by rewrite insert_desc_perm, IH.
Qed.

Lemma insert_desc_map {A B} (h : Qc * A -> Qc * B) x l :
  (forall y, (h y).1 = y.1) ->
  insert_desc (h x) (map h l) = map h (insert_desc x l).
Proof.
  intros Hh. induction l as [|y l IH]; simpl; [done|].
  rewrite !Hh. case_bool_decide; simpl; by rewrite ?IH.
Qed.

Lemma sort_desc_map {A B} (h : Qc * A -> Qc * B) l :
  (forall y, (h y).1 = y.1) ->
  sort_desc (map h l) = map h (sort_desc l).
Proof.
  intros Hh. induction l as [|x l IH]; simpl; [done|].
  fold (sort_desc (map h l)). fold (sort_desc l).
  by rewrite IH, insert_desc_map.
Qed.

Lemma insert_desc_sorted (x : Qc * (nat * dict)) l :
  StronglySorted scored_before l ->
  Forall (fun y => x.2.1 < y.2.1) l ->
  StronglySorted scored_before (insert_desc x l).
Proof.
  induction 1 as [|y l Hl IH Hy]; intros Hx; simpl.
  - repeat constructor.
  - apply Forall_cons in Hx as [Hxy Hx].
    case_bool_decide as Hlt.
    + constructor; [by apply IH|].
      rewrite insert_desc_perm. constructor; [by left|done].
    + apply Qcnot_lt_le in Hlt. constructor; [by constructor|].
      constructor.
      * apply Qcle_lt_or_eq in Hlt as [Hlt|Heq]; [by left|by right].
      * rewrite Forall_forall in Hy, Hx |- *. intros z Hz.
        destruct (Hy z Hz) as [Hzy|[Hzy _]].
        -- left. by eapply Qclt_le_trans.
        -- rewrite Hzy in Hlt.
           apply Qcle_lt_or_eq in Hlt as [Hlt|Heq]; [by left|].
           right. split; [done|]. by apply Hx.
Qed.

Lemma sort_desc_sorted (l : list (Qc * (nat * dict))) :
  StronglySorted (fun x y => x.2.1 < y.2.1) l ->
  StronglySorted scored_before (sort_desc l).
Proof.
  induction 1 as [|x l Hl IH Hx]; simpl; [constructor|].
  apply insert_desc_sorted; [done|].
  fold (sort_desc l). by rewrite sort_desc_perm.
Qed.

(** ** Positions *)

Lemma indexed_from_lookup (l : list dict) : forall n i a,
  (i, a) ∈ indexed_from n l -> n <= i /\ l !! (i - n) = Some a.
Proof.
  induction l as [|b l IH]; intros n i a; simpl.
  - by intros ?%elem_of_nil.
  - intros [[= -> ->]|Hin]%elem_of_cons.
    + split; [done|]. by rewrite Nat.sub_diag.
    + apply IH in Hin as [Hle Hl]. split; [lia|].
      replace (i - n) with (S (i - S n)) by lia. done.
Qed.

Lemma indexed_from_sorted (l : list dict) : forall n,
  StronglySorted (fun x y => x.1 < y.1) (indexed_from n l).
Proof.
  induction l as [|b l IH]; intros n; simpl; constructor; [apply IH|].
  apply Forall_forall. intros [i a] [Hle _]%indexed_from_lookup. simpl. lia.
Qed.

Lemma scored_sorted current (l : list (nat * dict)) :
  StronglySorted (fun x y => x.1 < y.1) l ->
  StronglySorted (fun x y : Qc * (nat * dict) => x.2.1 < y.2.1)
                 (omap (score_indexed current) l).
Proof.
  induction 1 as [|x l Hl IH Hx]; simpl; [constructor|].
  unfold score_indexed at 1. destruct (same_id x.2 current); [done|].
  constructor; [done|]. apply Forall_forall.
  intros y (z & Hz & Hy)%list_elem_of_omap. unfold score_indexed in Hy.
  destruct (same_id z.2 current); [done|]. injection Hy as <-. simpl.
  rewrite Forall_forall in Hx. by apply Hx.
Qed.

Lemma scored_forget current (l : list dict) : forall n,
  omap (fun a => if same_id a current then None
                 else Some (jaccard (title_tokens current) (title_tokens a), a))
       l
  = map forget_index (omap (score_indexed current) (indexed_from n l)).
Proof.
  induction l as [|a l IH]; intros n; simpl; [done|].
  unfold score_indexed at 1. simpl.
  destruct (same_id a current); simpl; [apply (IH (S n))|].
  f_equal. apply (IH (S n)).
Qed.

Lemma keep_forget (l : list (Qc * (nat * dict))) :
  omap (fun sa : Qc * dict =>
          if bool_decide (Q2Qc (5 # 100) < sa.1)%Qc then Some sa.2 else None)
       (map forget_index l)
  = map snd (omap keep_indexed l).
Proof.
  induction l as [|x l IH]; simpl; [done|]. unfold keep_indexed at 1.
  case_bool_decide; simpl; [f_equal|]; apply IH.
Qed.

Lemma take_map {A B} (f : A -> B) (k : nat) (l : list A) :
  take k (map f l) = map f (take k l).
Proof. revert k. induction l as [|x l IH]; intros [|k]; simpl; by rewrite ?IH. Qed.

(** [related_articles] is the indexed ranking without the positions. *)
Lemma related_articles_indexed current articles k :
  related_articles current articles k
  = map snd (related_indexed current articles k).
Proof.
  unfold related_articles, related_indexed.
  rewrite (scored_forget current articles 0).
  rewrite sort_desc_map by done. by rewrite take_map, keep_forget.
Qed.

Lemma related_indexed_elem current articles k i a :
  (i, a) ∈ related_indexed current articles k ->
  articles !! i = Some a /\ same_id a current = false
  /\ (Q2Qc (5 # 100) < similarity current a)%Qc.
Proof.
  unfold related_indexed.
  intros (x & Hx & Hk)%list_elem_of_omap.
  unfold keep_indexed in Hk. case_bool_decide as Hlt; [|done].
  injection Hk as Hk.
  apply elem_of_take in Hx as (j & Hx%list_elem_of_lookup_2 & _).
  rewrite sort_desc_perm in Hx.
  apply list_elem_of_omap in Hx as ([i' a'] & Hin & Hs).
  unfold score_indexed in Hs. simpl in Hs.
  destruct (same_id a' current) eqn:Hid; [done|]. injection Hs as <-.
  simpl in *. injection Hk as -> ->.
  apply indexed_from_lookup in Hin as [_ Hl].
  rewrite Nat.sub_0_r in Hl. done.
Qed.

Lemma related_indexed_sorted current articles k :
  StronglySorted scored_before
    (take k (sort_desc (omap (score_indexed current)
                             (indexed_from 0 articles)))).
Proof.
  eapply StronglySorted_app_1_l. rewrite take_drop.
  apply sort_desc_sorted, scored_sorted, indexed_from_sorted.
Qed.

Lemma scored_similarity current articles k x :
  x ∈ take k (sort_desc (omap (score_indexed current)
                              (indexed_from 0 articles))) ->
  x.1 = similarity current x.2.2 /\ articles !! x.2.1 = Some x.2.2.
Proof.
  intros (j & Hx%list_elem_of_lookup_2 & _)%elem_of_take.
  rewrite sort_desc_perm in Hx.
  apply list_elem_of_omap in Hx as ([i' a'] & Hin & Hs).
  unfold score_indexed in Hs. simpl in Hs.
  destruct (same_id a' current); [done|]. injection Hs as <-. simpl.
  apply indexed_from_lookup in Hin as [_ Hl].
  rewrite Nat.sub_0_r in Hl. done.
Qed.

Lemma ranked_of_scored current articles (l : list (Qc * (nat * dict))) :
  StronglySorted scored_before l ->
  Forall (fun x => x.1 = similarity current x.2.2
                   /\ articles !! x.2.1 = Some x.2.2) l ->
  StronglySorted (ranked_before current articles)
                 (map fst (omap keep_indexed l)).
Proof.
  induction 1 as [|x l Hl IH Hx]; intros Hinv; simpl; [constructor|].
  apply Forall_cons in Hinv as [[Hsx Hax] Hinv].
  unfold keep_indexed at 1. case_bool_decide; simpl; [|by apply IH].
  constructor; [by apply IH|]. apply Forall_forall.
  intros j ([j' b] & -> & (y & Hy & Hk)%list_elem_of_omap)%list_elem_of_fmap.
  unfold keep_indexed in Hk. case_bool_decide; [|done].
  injection Hk as Hk. rewrite Forall_forall in Hx, Hinv.
  destruct (Hinv y Hy) as [Hsy Hay]. pose proof (Hx y Hy) as Hxy.
  rewrite Hk in Hsy, Hay. simpl in *.
  exists x.2.2, b. split; [done|]. split; [done|].
  unfold scored_before in Hxy. rewrite Hsx, Hsy, Hk in Hxy. done.
Qed.


Lemma omap_length_le {A B} (f : A -> option B) (l : list A) :
  length (omap f l) <= length l.
Proof.
  induction l as [|x l IH]; simpl; [done|].
  fold (omap f l). destruct (f x); simpl; lia.
Qed.

(** C6.  The related articles of [current], at most [k] of them ([k] is
    6 in the site builder): none has the id of [current], each has a
    title similarity above 0.05, and they are the articles at some
    positions of the archive that are ordered by descending similarity
    and, among equal similarities, by archive position. *)
Theorem related_articles_ranking (current : dict) (articles : list dict)
    (k : nat) :
  let r := related_articles current articles k in
  (forall a, a ∈ r -> a !! "id"%string <> current !! "id"%string)
  /\ (current ∉ r)
  /\ (forall a, a ∈ r -> (Q2Qc (5 # 100) < similarity current a)%Qc)
  /\ length r <= k
  /\ exists idxs,
       Forall2 (fun i a => articles !! i = Some a) idxs r
       /\ StronglySorted (ranked_before current articles) idxs.
Proof.
  intros r. subst r. rewrite related_articles_indexed.
  assert (Hel : forall a, a ∈ map snd (related_indexed current articles k) ->
            exists i, (i, a) ∈ related_indexed current articles k).
  { intros a ([i b] & -> & Hin)%list_elem_of_fmap. by exists i. }
  assert (Hid : forall a, a ∈ map snd (related_indexed current articles k) ->
            a !! "id"%string <> current !! "id"%string).
  { intros a [i Hin]%Hel.
    apply related_indexed_elem in Hin as (_ & Hid & _).
    by apply bool_decide_eq_false in Hid. }
  split; [exact Hid|]. split; [intros Hin; by apply (Hid current Hin)|].
  split.
  { intros a [i Hin]%Hel. by apply related_indexed_elem in Hin as (_ & _ & ?). }
  split.
  { rewrite length_map. unfold related_indexed.
    etransitivity; [apply omap_length_le|]. rewrite length_take. lia. }
  exists (map fst (related_indexed current articles k)). split.
  - apply Forall2_fmap, Forall_Forall2_diag, Forall_forall.
    intros [i a] Hin. by apply related_indexed_elem in Hin as (? & _).
  - apply ranked_of_scored; [apply related_indexed_sorted|].
    apply Forall_forall. intros x Hx. by eapply scored_similarity.
Qed.

Lemma related_articles_ranking_witness :
  related_articles art_rocket archive 6 = [art_rocket2]
  /\ art_rocket2 !! "id"%string <> art_rocket !! "id"%string
  /\ (Q2Qc (5 # 100) < similarity art_rocket art_rocket2)%Qc.
Proof.
  assert (Hr : related_articles art_rocket archive 6 = [art_rocket2])
    by (vm_compute; reflexivity).
  destruct (related_articles_ranking art_rocket archive 6)
    as (H1 & _ & H3 & _).
  rewrite Hr in H1, H3. split; [done|].
  split; [apply H1|apply H3]; apply list_elem_of_here.
Defined.

End RelatedFacts.

(* ===================================================================== *)
(** * Candidate picking                                                   *)
(* ===================================================================== *)

Module PickFacts.
Import Text Util Generate Spec Samples TextFacts.

Lemma str_or_nil (x : str) : str_or x [] = x.
Proof. by destruct x. Qed.

Lemma nonempty_false (x : str) : nonempty x = false <-> x = [].
Proof. by destruct x. Qed.

Lemma nonempty_true (x : str) : nonempty x = true <-> x <> [].
Proof. by destruct x. Qed.

(** ** The decision on one entry *)

Lemma is_blocked_spec (title : str) (kws : list str) :
  is_blocked title kws = true <->
  exists kw, kw ∈ kws /\ substring_ci kw title.
Proof.
  unfold is_blocked, substring_ci. rewrite existsb_exists.
  split; intros (kw & Hin & Hc); exists kw;
    (split; [by apply list_elem_of_In|by apply contains_spec]).
Qed.

Lemma too_similar_spec (tok : gset str) (articles : list dict) :
  existsb (fun pt => bool_decide (Q2Qc (78 # 100) <= jaccard tok pt)%Qc)
    (map simple_tokens
       (filter (fun t => nonempty t = true)
               (map (fun a => dget a "title" []) articles))) = true
  <-> exists a, a ∈ articles /\ dget a "title" [] <> []
                /\ (Q2Qc (78 # 100) <= jaccard tok (title_tokens a))%Qc.
Proof.
  rewrite existsb_exists. split.
  - intros (pt & Hin & Hle). apply bool_decide_eq_true in Hle.
    apply list_elem_of_In, list_elem_of_fmap in Hin as (t & -> & Hin).
    apply list_elem_of_filter in Hin as [Ht Hin].
    apply list_elem_of_fmap in Hin as (a & -> & Hin).
    exists a. split; [done|]. split; [by apply nonempty_true|done].
  - intros (a & Hin & Ht & Hle). exists (title_tokens a). split.
    + apply list_elem_of_In, list_elem_of_fmap.
      exists (dget a "title" []). split; [done|].
      apply list_elem_of_filter. split; [by apply nonempty_true|].
      apply list_elem_of_fmap. by exists a.
    + by apply bool_decide_eq_true.
Qed.

Lemma consider_spec (cfg : Config) (processed : gset str)
    (articles : list dict) (e : dict) :
  let prev_tok :=
    map simple_tokens
        (filter (fun t => nonempty t = true)
                (map (fun a => dget a "title" []) articles)) in
  (excluded cfg processed articles e
   /\ consider (default [] (blocked_keywords cfg)) processed prev_tok e = None)
  \/ (~ excluded cfg processed articles e
      /\ consider (default [] (blocked_keywords cfg)) processed prev_tok e
         = Some (with_image e)).
Proof.
  intros prev_tok. unfold consider, excluded, link_seen, keyword_blocked,
    near_duplicate_titled.
  set (link := normalize_url (dget e "link" [])).
  set (title := dget e "title" []).
  destruct (negb (nonempty link) || bool_decide (link ∈ processed)) eqn:Hl.
  { left. split; [|done]. left.
    apply orb_true_iff in Hl as [Hl|Hl].
    - left. apply negb_true_iff in Hl. by apply nonempty_false.
    - right. by apply bool_decide_eq_true in Hl. }
  apply orb_false_iff in Hl as [Hl1 Hl2].
  apply negb_false_iff, nonempty_true in Hl1.
  apply bool_decide_eq_false in Hl2.
  destruct (is_blocked title (default [] (blocked_keywords cfg))) eqn:Hb.
  { left. split; [|done]. right. left. by apply is_blocked_spec. }
  assert (Hnb : ~ exists kw, kw ∈ default [] (blocked_keywords cfg)
                             /\ substring_ci kw title).
  { intros H%is_blocked_spec. congruence. }
  destruct (existsb _ prev_tok) eqn:Hs.
  { left. split; [|done]. right. right. by apply too_similar_spec. }
  assert (Hns : ~ exists a, a ∈ articles /\ dget a "title" [] <> []
              /\ (Q2Qc (78 # 100) <= jaccard (simple_tokens title)
                                              (title_tokens a))%Qc).
  { intros H%too_similar_spec. unfold prev_tok in Hs. congruence. }
  right. split; [intros [[?|?]|[?|?]]; done|].
  unfold with_image. by rewrite str_or_nil.
Qed.

Lemma scan_entries_omap bk processed prev_tok (es : list dict) :
  forall cands,
    scan_entries bk processed prev_tok cands es
    = cands ++ omap (consider bk processed prev_tok) es.
Proof.
  induction es as [|e es IH]; intros cands; simpl.
  - by rewrite app_nil_r.
  - fold (omap (consider bk processed prev_tok) es).
    destruct (consider bk processed prev_tok e); rewrite IH; [|done].
    by rewrite <- app_assoc.
Qed.

(** The first entry that is kept. *)
Lemma head_omap_first (P : dict -> Prop) (f : dict -> option dict)
    (g : dict -> dict) (l : list dict) :
  (forall e, P e -> f e = None) ->
  (forall e, ~ P e -> f e = Some (g e)) ->
  (forall e, P e \/ ~ P e) ->
  exists r, head (omap f l) = g <$> r /\ first_surviving P l r.
Proof.
  intros HP HnP Hdec. induction l as [|e l (r & Hr & Hf)]; simpl.
  - exists None. split; [done|]. left. by split.
  - fold (omap f l). destruct (Hdec e) as [He|He].
    + rewrite (HP e He). exists r. split; [done|].
      destruct Hf as [[-> Hall]|(pre & x & post & -> & Hpre & Hx & ->)].
      * left. split; [done|]. by constructor.
      * right. exists (e :: pre), x, post. split; [done|].
        split; [by constructor|done].
    + rewrite (HnP e He). exists (Some e). split; [done|].
      right. exists [], e, l. by repeat split.
Qed.

Section Pick.
Context {Site : Type}.
Variable http_feed : str -> result (list Reddit.RawEntry).
Variable random_index : nat -> nat.

Implicit Types (w : World (Site:=Site)).

Lemma add_events_app (a b : list Event) w :
  add_events b (add_events a w) = add_events (a ++ b) w.
Proof. unfold add_events. simpl. by rewrite app_assoc. Qed.

Lemma add_events_nil w : add_events [] w = w.
Proof. destruct w. unfold add_events. simpl. by rewrite app_nil_r. Qed.

Lemma scan_feeds_ok bk processed prev_tok (feeds : list str) :
  forall (ess : list (list dict)) cands w,
    Forall2 (fun rss es =>
               Reddit.fetch_rss_entries (http_feed rss) rss 25 = inr es)
            feeds ess ->
    scan_feeds http_feed bk processed prev_tok cands feeds w
    = (add_events (map EvHttpGet feeds) w,
       inr (cands ++ omap (consider bk processed prev_tok) (concat ess))).
Proof.
  induction feeds as [|rss feeds IH]; intros ess cands w Hall.
  - apply Forall2_nil_inv_l in Hall as ->. simpl.
    by rewrite add_events_nil, app_nil_r.
  - apply Forall2_cons_inv_l in Hall as (es & ess' & Hes & Hall & ->).
    simpl. unfold mbind, M_bind, fetch_rss_entries, log, modify, lift.
    simpl. rewrite Hes. rewrite (IH ess' _ _ Hall).
    rewrite add_events_app, scan_entries_omap, omap_app.
    by rewrite <- app_assoc.
Qed.

(** C1, as the code has it.  With random pick disabled, a non-empty
    feed list and every feed fetched, [pick_candidate] downloads the
    feeds in order and returns the first entry, in feed-then-entry
    order, that is not excluded, with the keys [image_url] and
    [image_kind] added; an entry is excluded exactly when its
    normalized link is empty or in the processed set, or its title
    contains a blocked keyword as a case-insensitive substring, or the
    token set of its title has Jaccard similarity at least 0.78 with
    that of the non-empty title of a past article; it returns none
    when every entry is excluded. *)
Theorem pick_candidate_first_surviving (cfg : Config)
    (processed : gset str) (articles : list dict)
    (feeds : list str) (ess : list (list dict)) w :
  pick_random cfg = false ->
  reddit_rss cfg = Some feeds -> feeds <> [] ->
  Forall2 (fun rss es =>
             Reddit.fetch_rss_entries (http_feed rss) rss 25 = inr es)
          feeds ess ->
  exists r,
    pick_candidate http_feed random_index cfg processed articles w
    = (add_events (map EvHttpGet feeds) w, inr (with_image <$> r))
    /\ first_surviving (excluded cfg processed articles) (concat ess) r.
Proof.
  intros Hrand Hfeeds Hne Hall. unfold pick_candidate.
  rewrite Hfeeds.
  destruct feeds as [|rss feeds]; [done|].
  change (default [] (Some (rss :: feeds))) with (rss :: feeds).
  cbv beta iota.
  unfold mbind, M_bind. rewrite (scan_feeds_ok _ _ _ _ ess [] w Hall).
  rewrite app_nil_l.
  destruct (head_omap_first (excluded cfg processed articles)
    (consider (default [] (blocked_keywords cfg)) processed
       (map simple_tokens
          (filter (fun t => nonempty t = true)
                  (map (fun a => dget a "title" []) articles))))
    with_image (concat ess)) as (r & Hr & Hf).
  - intros e He.
    by destruct (consider_spec cfg processed articles e) as [[_ ?]|[? _]].
  - intros e He.
    by destruct (consider_spec cfg processed articles e) as [[? _]|[_ ?]].
  - intros e.
    destruct (consider_spec cfg processed articles e) as [[? _]|[? _]];
      [by left|by right].
  - exists r. split; [|done].
    destruct (omap _ (concat ess)) as [|first rest] eqn:Ho.
    + simpl in Hr. destruct r; [done|]. done.
    + simpl in Hr. rewrite Hrand. destruct r; [|done].
      simpl in Hr. injection Hr as ->. done.
Qed.

(** C10.  With an empty or missing feed list [pick_candidate] raises
    an error, before any download, instead of returning none. *)
Theorem pick_candidate_no_feeds (cfg : Config) (processed : gset str)
    (articles : list dict) w :
  reddit_rss cfg = None \/ reddit_rss cfg = Some [] ->
  pick_candidate http_feed random_index cfg processed articles w
  = (w, inl (RuntimeError
       "config.feeds.reddit_rss is empty. Add at least one RSS URL.")).
Proof. intros [H|H]; unfold pick_candidate; by rewrite H. Qed.
End Pick.

Lemma pick_candidate_first_surviving_witness :
  exists r,
    pick_candidate (feed_of [short_post]) first_index cfg_one_feed ∅ archive
                   (fresh cfg_one_feed)
    = (add_events [EvHttpGet feed_url] (fresh cfg_one_feed),
       inr (with_image <$> r))
    /\ first_surviving (excluded cfg_one_feed ∅ archive)
         (concat [Reddit.collect_entries feed_url 25 [] [short_post]]) r.
Proof.
  apply (pick_candidate_first_surviving (feed_of [short_post]) first_index
           cfg_one_feed ∅ archive [feed_url]
           [Reddit.collect_entries feed_url 25 [] [short_post]]).
  - reflexivity.
  - reflexivity.
  - discriminate.
  - repeat constructor.
Defined.

Lemma pick_candidate_no_feeds_witness :
  pick_candidate (feed_of [short_post]) first_index cfg_no_feed ∅ archive
                 (fresh cfg_no_feed)
  = (fresh cfg_no_feed,
     inl (RuntimeError
       "config.feeds.reddit_rss is empty. Add at least one RSS URL.")).
Proof. apply pick_candidate_no_feeds. right. reflexivity. Defined.

(** C1 as stated fails: an entry whose title has no token is excluded by
    the specification's rule when a past article has no title (both
    token sets are empty, similarity 1), yet it is the entry returned;
    and with an empty feed list, where every entry is excluded because
    there is none, the result is an error and not none. *)
Lemma pick_candidate_ignores_untitled :
  (exists e,
     Reddit.make_entry feed_url short_post = Some e
     /\ excluded_spec cfg_one_feed ∅ [untitled] e
     /\ (pick_candidate (feed_of [short_post]) first_index cfg_one_feed ∅
                        [untitled] (fresh cfg_one_feed)).2
        = inr (Some (with_image e)))
  /\ (pick_candidate (feed_of []) first_index cfg_no_feed ∅ []
                     (fresh cfg_no_feed)).2
     <> inr None.
Proof.
  split; [|discriminate].
  eexists. split; [reflexivity|]. split.
  - right. right. exists untitled. split; [set_solver|].
    by vm_compute.
  - vm_compute; reflexivity.
Qed.

End PickFacts.

(* ===================================================================== *)
(** * The processed-link file                                             *)
(* ===================================================================== *)

Module ProcessedFacts.
Import Text Util Generate Spec TextFacts.

Lemma linebreak_space (c : ascii) : is_linebreak c = true -> is_space c = true.
Proof. destruct c as [[] [] [] [] [] [] [] []]; vm_compute; congruence. Qed.

Lemma processed_of_lines_app (a b : list str) :
  processed_of_lines (a ++ b) = processed_of_lines a ∪ processed_of_lines b.
Proof.
  unfold processed_of_lines. rewrite filter_app, map_app.
  apply list_to_set_app_L.
Qed.

Lemma processed_of_lines_cons (l : str) (ls : list str) :
  processed_of_lines (l :: ls) = processed_of_lines [l] ∪ processed_of_lines ls.
Proof. apply (processed_of_lines_app [l] ls). Qed.

Lemma processed_of_blank (l : str) :
  forallb is_space l = true -> processed_of_lines [l] = ∅.
Proof.
  intros Hl. unfold processed_of_lines.
  rewrite filter_cons_False; [done|].
  apply strip_nil_iff in Hl. by rewrite Hl.
Qed.

Lemma processed_of_line (l : str) :
  strip l <> [] -> processed_of_lines [l] = {[ normalize_url l ]}.
Proof.
  intros Hl. unfold processed_of_lines.
  rewrite filter_cons_True by by destruct (strip l).
  simpl. set_solver.
Qed.

Lemma normalize_pad (l w : str) :
  forallb is_space w = true -> normalize_url (l ++ w) = normalize_url l.
Proof.
  intros Hw. unfold normalize_url.
  pose proof (strip_pad [] l w eq_refl Hw) as H. simpl in H. by rewrite H.
Qed.

(** A blank at the end of a line changes neither whether the line counts
    nor the link it stands for. *)
Lemma processed_of_padded (l : str) (c : ascii) :
  is_space c = true -> processed_of_lines [l ++ [c]] = processed_of_lines [l].
Proof.
  intros Hc. assert (Hw : forallb is_space [c] = true) by (simpl; by rewrite Hc).
  pose proof (strip_pad [] l [c] eq_refl Hw) as Hs. simpl app in Hs.
  destruct (strip l) as [|x u] eqn:E.
  - rewrite !processed_of_blank; [done|by apply strip_nil_iff..].
  - rewrite !processed_of_line by congruence. by rewrite normalize_pad.
Qed.

Lemma processed_of_rest (cur : str) :
  processed_of_lines (lines_from cur []) = processed_of_lines [cur].
Proof. destruct cur; [|done]. simpl. by rewrite processed_of_blank. Qed.

Lemma processed_of_lines_tail (l : str) (xs ys : list str) :
  processed_of_lines xs = processed_of_lines ys ->
  processed_of_lines (l :: xs) = processed_of_lines (l :: ys).
Proof.
  intros H. rewrite (processed_of_lines_cons l xs), (processed_of_lines_cons l ys).
  by rewrite H.
Qed.

(** Whitespace at the end of the file does not change the set. *)
Lemma processed_snoc (c : ascii) (k : nat) : forall s cur,
  length s <= k -> is_space c = true ->
  processed_of_lines (lines_from cur (s ++ [c]))
  = processed_of_lines (lines_from cur s).
Proof.
  induction k as [|k IH]; intros s cur Hk Hc.
  - destruct s; [|simpl in Hk; lia]. simpl app.
    rewrite processed_of_rest. simpl.
    destruct (is_linebreak c); [done|].
    destruct (cur ++ [c]) as [|x u] eqn:E; [by destruct cur|].
    rewrite <- E. by apply processed_of_padded.
  - destruct s as [|d s]; [apply (IH [] cur); [simpl; lia|done]|].
    simpl in Hk. simpl. destruct (is_linebreak d); [|apply IH; [lia|done]].
    apply processed_of_lines_tail.
    destruct s as [|c' s]; simpl app; cbv beta iota.
    + destruct (_ && _).
      * reflexivity.
      * apply (IH [] []); [simpl; lia|done].
    + destruct (_ && _).
      * apply IH; [simpl in Hk; lia|done].
      * apply (IH (c' :: s)); [simpl in *; lia|done].
Qed.

Lemma processed_trailing (s w : str) :
  forallb is_space w = true ->
  processed_of_text (s ++ w) = processed_of_text s.
Proof.
  induction w as [|c w IH] using rev_ind; [by rewrite app_nil_r|].
  rewrite forallb_app. simpl.
  intros [Hw [Hc _]%andb_true_iff]%andb_true_iff.
  rewrite app_assoc. unfold processed_of_text, splitlines.
  rewrite (processed_snoc c (length (s ++ w))) by done. by apply IH.
Qed.

(** A line feed closes the lines before it. *)
Lemma lines_from_break (cur : str) (d : ascii) (s : str) :
  is_linebreak d = true ->
  lines_from cur (d :: s)
  = cur :: match s with
           | c' :: s'' =>
               if ascii_eqb d cr && ascii_eqb c' nl
               then lines_from [] s'' else lines_from [] s
           | [] => []
           end.
Proof. simpl. by intros ->. Qed.

Lemma lines_from_char (cur : str) (d : ascii) (s : str) :
  is_linebreak d = false ->
  lines_from cur (d :: s) = lines_from (cur ++ [d]) s.
Proof. simpl. by intros ->. Qed.

Lemma lines_from_nl (cur t : str) :
  lines_from cur (nl :: t) = cur :: lines_from [] t.
Proof. rewrite lines_from_break by done. by destruct t. Qed.

Lemma lines_feed (t : str) (k : nat) : forall r cur,
  length r <= k ->
  lines_from cur (r ++ nl :: t)
  = lines_from cur (r ++ [nl]) ++ lines_from [] t.
Proof.
  induction k as [|k IH]; intros r cur Hk.
  - destruct r; [|simpl in Hk; lia]. simpl app. by rewrite !lines_from_nl.
  - destruct r as [|d r]; [apply (IH [] cur); simpl; lia|].
    simpl in Hk. simpl app. destruct (is_linebreak d) eqn:Hd.
    + rewrite !lines_from_break by done. simpl app. f_equal.
      destruct r as [|c' r]; simpl app; cbv beta iota.
      * destruct (_ && _); [done|]. by rewrite !lines_from_nl.
      * destruct (_ && _).
        -- apply IH. simpl in Hk. lia.
        -- apply (IH (c' :: r)). simpl in *. lia.
    + rewrite !lines_from_char by done. apply IH. lia.
Qed.

Lemma lines_single (n : str) : forall cur,
  Forall (fun c => is_linebreak c = false) n ->
  lines_from cur (n ++ [nl]) = [cur ++ n].
Proof.
  induction n as [|d n IH]; intros cur Hn; simpl.
  - by rewrite app_nil_r.
  - apply Forall_cons in Hn as [Hd Hn]. rewrite Hd, IH by done.
    by rewrite <- app_assoc.
Qed.

(** The text written for a storable link holds the old set and the
    link. *)
Lemma appended_text_set (old n : str) :
  storable n ->
  processed_of_text (appended_text old n) = processed_of_text old ∪ {[ n ]}.
Proof.
  intros (Hline & Hne & Hnorm). unfold appended_text, rstrip.
  destruct (rstrip_split is_space old) as (w & Hold & Hw).
  remember (rstrip_by is_space old) as r eqn:Hr'.
  assert (Ho : processed_of_text old = processed_of_text r)
    by (rewrite Hold; by apply processed_trailing).
  rewrite Ho. clear Ho.
  assert (Hn : processed_of_lines (lines_from [] (n ++ [nl])) = {[ n ]}).
  { rewrite lines_single by done. simpl.
    rewrite processed_of_line by done. by rewrite Hnorm. }
  destruct (strip r) as [|x u] eqn:Hr; simpl nonempty; cbv iota.
  - assert (r = []) as ->.
    { apply strip_nil_iff in Hr. rewrite Hr'. apply rstrip_nil_iff.
      rewrite Hold, forallb_app. by rewrite Hr, Hw. }
    simpl app. unfold processed_of_text, splitlines. rewrite Hn.
    simpl. unfold processed_of_lines. simpl. set_solver.
  - unfold processed_of_text, splitlines.
    rewrite <- app_assoc. simpl app.
    rewrite (lines_feed _ (length r)) by done.
    rewrite processed_of_lines_app, Hn.
    by rewrite (processed_snoc nl (length r)).
Qed.

Section Append.
Context {Site : Type}.
Implicit Types (w : World (Site:=Site)).

(** What [append_processed] leaves in the processed file. *)
Lemma append_processed_text (url : str) w :
  let n := normalize_url url in
  let text := default [] (processed_txt w) in
  (append_processed url w).2 = inr tt
  /\ processed_txt (append_processed url w).1
     = if bool_decide (n ∈ processed_of_text text) then processed_txt w
       else Some (appended_text text n).
Proof.
  intros n text. unfold append_processed, load_processed, read_processed_text,
    mbind, M_bind, mret, M_ret, gets, log, modify. subst text. fold n.
  destruct (processed_txt w) as [t|] eqn:Ht; simpl; rewrite ?Ht; simpl;
    case_bool_decide; simpl; rewrite ?Ht; done.
Qed.

(** Marking a storable link adds it to the set, which otherwise keeps its
    elements; when the link is in the set already the file is not
    touched. *)
Lemma append_processed_storable (url : str) w :
  let n := normalize_url url in
  let text := default [] (processed_txt w) in
  let text' := default [] (processed_txt (append_processed url w).1) in
  storable n ->
  processed_of_text text' = processed_of_text text ∪ {[ n ]}
  /\ (n ∈ processed_of_text text ->
      processed_txt (append_processed url w).1 = processed_txt w).
Proof.
  intros n text text' Hn.
  destruct (append_processed_text url w) as [_ Ht]. fold n text in Ht.
  subst text'. rewrite Ht. case_bool_decide as Hin.
  - fold text. split; [set_solver|done].
  - simpl. split; [by apply appended_text_set|done].
Qed.

(** For a storable link the invariant survives the insertion of the new
    article. *)
Lemma links_recorded_created (articles : list dict) (entry : dict)
    (link : str) w :
  let text := default [] (processed_txt w) in
  let text' := default [] (processed_txt (append_processed link w).1) in
  storable (normalize_url link) ->
  dget entry "source_url" [] = link ->
  links_recorded articles text ->
  links_recorded (entry :: articles) text'.
Proof.
  intros text text' Hst Hsrc Hinv a Ha.
  destruct (append_processed_storable link w Hst) as [Hset _].
  fold text text' in Hset. rewrite Hset.
  apply elem_of_cons in Ha as [-> |Ha].
  - rewrite Hsrc. set_solver.
  - apply elem_of_union_l. by apply Hinv.
Qed.
End Append.

(** An ordinary link is storable, so marking it records it. *)
Lemma ordinary_link_storable :
  storable (normalize_url ("https://example.com/post/?ref=rss#top"%string : str)).
Proof.
  split; [|split].
  - vm_compute. repeat constructor.
  - vm_compute. discriminate.
  - vm_compute. reflexivity.
Qed.

End ProcessedFacts.

(* ===================================================================== *)
(** * The run controller                                                  *)
(* ===================================================================== *)

Module RunFacts.
Import Text Util Generate Spec Samples.

Section Controller.
Context {Site : Type}.
Variable http_feed : str -> result (list Reddit.RawEntry).
Variable chat_completion : str -> str -> str -> result str.
Variable clock : nat -> Time.
Variable slugify : str -> str.
Variable random_index : nat -> nat.
Variable render_site : Config -> list dict -> Site -> Site * result unit.

(** C7.  When the one-shot marker is present the run raises the
    re-entrancy error at once and leaves the world as it was: every
    file, the site and the record of effects (reads, writes,
    downloads, generation calls, site builds) are unchanged. *)
Theorem main_refuses_second_run (w : World (Site:=Site)) (stamp : str) :
  lite_ran w = Some stamp ->
  main http_feed chat_completion clock slugify random_index render_site w
  = (w, inl (RuntimeError
       "Lite edition: this repository can only be executed once.")).
Proof.
  intros H. unfold main, mbind, M_bind, gets. by rewrite H.
Qed.
End Controller.

Lemma main_refuses_second_run_witness :
  main (feed_of [spaced_post]) reply noon slug first_index render_nothing
       (already_ran cfg_one_feed)
  = (already_ran cfg_one_feed,
     inl (RuntimeError
       "Lite edition: this repository can only be executed once.")).
Proof.
  apply (main_refuses_second_run _ _ _ _ _ _ _
           ("2024-01-01T12:00:00+00:00"%string : str)).
  reflexivity.
Defined.

(** The same deployment without the marker: the run has effects. *)
Lemma first_run_effects :
  first_run.2 = inr tt
  /\ trace first_run.1
     = [EvRead CONFIG_PATH; EvHttpGet feed_url;
        EvChat ("A post about rockets"%string : str);
        EvWrite PROCESSED_PATH; EvWrite ARTICLES_PATH; EvBuildSite;
        EvWrite LAST_RUN_PATH; EvWrite LITE_RAN_FLAG].
Proof. split; vm_compute; reflexivity. Qed.

(** C8 fails on the code.  A first run on a feed whose post has the
    link [https://example.com/post ?ref=rss] completes; the archive then
    holds the new article, whose normalized source URL ends with a
    blank, while the set read back from the processed file holds the
    link without it: the article's normalized source URL is not in the
    processed-link set. *)
Theorem first_run_breaks_link_invariant :
  first_run.2 = inr tt
  /\ exists entry text,
       articles_json first_run.1 = Some [entry]
       /\ processed_txt first_run.1 = Some text
       /\ dget entry "source_url" [] = spaced_link
       /\ normalize_url spaced_link = ("https://example.com/post "%string : str)
       /\ processed_of_text text
          = {[ ("https://example.com/post"%string : str) ]}
       /\ ~ links_recorded [entry] text.
Proof.
  split; [vm_compute; reflexivity|].
  set (text := ("https://example.com/post "%string : str) ++ [nl]).
  assert (Hset : processed_of_text text
          = {[ ("https://example.com/post"%string : str) ]}).
  { unfold processed_of_text, processed_of_lines.
    set (l := map _ _). vm_compute in l. subst l.
    apply set_eq. intros x. set_solver. }
  exists (default ∅ (head (default [] (articles_json first_run.1)))), text.
  split; [vm_compute; reflexivity|]. split; [vm_compute; reflexivity|].
  split; [vm_compute; reflexivity|]. split; [vm_compute; reflexivity|].
  split; [exact Hset|].
  intros Hinv. specialize (Hinv _ (list_elem_of_here _ _)).
  rewrite Hset in Hinv. apply elem_of_singleton in Hinv.
  vm_compute in Hinv. discriminate.
Qed.

End RunFacts.

(* ===================================================================== *)
(** * Normalization of links                                            *)
(* ===================================================================== *)

Module UrlFacts.
Import Text Regex Util Spec TextFacts RegexFacts Terms Cases.

Lemma query_re_local : local_pattern query_re.
Proof.
  intros prev prev' s. unfold match_len, query_re. simpl.
  destruct s as [|c s]; [done|]. destruct (_ || _); done.
Qed.

(** A match of the pattern starts with [?] or [#], runs over characters
    other than the line feed and stops at the end of the text or before
    its final line feed. *)
Lemma query_match_shape prev s n :
  match_len query_re prev s = Some n ->
  exists c a e, s = c :: a ++ e /\ is_query_start c = true
    /\ forallb not_nl a = true /\ (e = [] \/ e = [nl]) /\ n = S (length a).
Proof.
  intros (m & s' & prev' & caps' & -> & -> & H)%match_len_sound.
  unfold query_re in H. simpl in H.
  destruct H as (pm & sm & cm & (c & Hs & Hc & -> & ->) & H).
  destruct H as (pm & sm' & cm' & (a & -> & Ha & -> & ->) & (He & _ & <- & _)).
  destruct m as [|c' m]; simpl in Hs.
  - exfalso. apply (f_equal length) in Hs. simpl in Hs.
    rewrite length_app in Hs. lia.
  - injection Hs as -> Hs. apply app_inv_tail in Hs as ->.
    exists c, a, s'. done.
Qed.

Lemma not_nl_snoc (a : str) : forallb not_nl (a ++ [nl]) = false.
Proof.
  rewrite forallb_app. change (forallb not_nl [nl]) with false.
  apply andb_false_r.
Qed.

Lemma query_match_at prev c a :
  is_query_start c = true -> forallb not_nl a = true ->
  match_len query_re prev (c :: a) = Some (S (length a)).
Proof.
  intros Hc Ha.
  assert (is_Some (match_len query_re prev (c :: a))) as [n Hn].
  { apply (match_len_complete _ _ _ (last_of (Some c) a) [] []).
    unfold query_re. simpl.
    exists (Some c), a, []. split; [by exists c|].
    exists (last_of (Some c) a), [], []. split.
    - exists a. rewrite app_nil_r. by repeat split.
    - split; [by left|by repeat split]. }
  rewrite Hn. f_equal.
  destruct (query_match_shape _ _ _ Hn) as (c' & a' & e & Hs & _ & Ha' & He & ->).
  injection Hs as <- ->. destruct He as [->| ->].
  - by rewrite app_nil_r.
  - by rewrite not_nl_snoc in Ha.
Qed.

Lemma query_no_match prev c s :
  is_query_start c = false -> match_len query_re prev (c :: s) = None.
Proof.
  intros Hc. destruct (match_len query_re prev (c :: s)) as [n|] eqn:Hn; [|done].
  destruct (query_match_shape _ _ _ Hn) as (c' & a' & e & Hs & Hc' & _).
  injection Hs as <- _. congruence.
Qed.

Lemma sub_query_all (t : str) :
  t <> [] -> match_len query_re None t = Some (length t) ->
  re_sub query_re [] t = [].
Proof.
  intros Ht Hm.
  pose proof (re_sub_match _ [] query_re_local t [] Ht) as H.
  rewrite app_nil_r in H. by apply H.
Qed.

(** On a text that does not end with a line feed the removal cuts a
    suffix. *)
Lemma sub_query_prefix (t : str) :
  last t <> Some nl -> exists suf, t = re_sub query_re [] t ++ suf.
Proof.
  induction t as [|c t IH]; intros Hl; [by exists []|].
  destruct (match_len query_re None (c :: t)) as [n|] eqn:Hn.
  - destruct (query_match_shape _ _ _ Hn) as (c' & a & e & Hs & Hc & Ha & He & ->).
    destruct He as [->| ->].
    + rewrite app_nil_r in Hs. rewrite sub_query_all; [by exists (c :: t)|done|].
      by rewrite Hn, Hs.
    + exfalso. apply Hl. rewrite Hs.
      change (c' :: a ++ [nl]) with ((c' :: a) ++ [nl]). by rewrite last_snoc.
  - rewrite (re_sub_keep _ _ query_re_local) by done.
    destruct IH as [suf Hsuf].
    + destruct t as [|d t]; [done|]. by rewrite last_cons_cons in Hl.
    + exists suf. simpl. by rewrite <- Hsuf.
Qed.

(** On a single line nothing is left of a query or a fragment. *)
Lemma sub_query_clean (t : str) :
  forallb not_nl t = true -> no_query (re_sub query_re [] t).
Proof.
  induction t as [|c t IH]; simpl; [constructor|].
  intros [Hc Ht]%andb_true_iff.
  destruct (is_query_start c) eqn:Hq.
  - rewrite sub_query_all; [constructor|done|]. by apply query_match_at.
  - rewrite (re_sub_keep _ _ query_re_local) by by apply query_no_match.
    constructor; [done|]. by apply IH.
Qed.

Lemma sub_query_plain (t : str) : no_query t -> re_sub query_re [] t = t.
Proof.
  induction 1 as [|c t Hc Ht IH]; [done|].
  rewrite (re_sub_keep _ _ query_re_local) by by apply query_no_match.
  by rewrite IH.
Qed.

Lemma sub_query_cut (u q : str) (c : ascii) :
  no_query u -> is_query_start c = true -> forallb not_nl q = true ->
  re_sub query_re [] (u ++ c :: q) = u.
Proof.
  intros Hu Hc Hq. induction Hu as [|d u Hd Hu IH]; simpl.
  - rewrite sub_query_all; [done|done|]. by apply query_match_at.
  - rewrite (re_sub_keep _ _ query_re_local) by by apply query_no_match.
    by rewrite IH.
Qed.

Lemma space_not_nl (c : ascii) : is_space c = false -> not_nl c = true.
Proof.
  intros Hc. unfold not_nl. destruct (ascii_eqb nl c) eqn:E; [|done].
  apply ascii_eqb_eq in E as <-. done.
Qed.

Lemma no_space_not_nl (u : str) : no_space u -> forallb not_nl u = true.
Proof.
  intros H. apply Forall_forallb. eapply Forall_impl; [exact H|].
  intros c. apply space_not_nl.
Qed.

Lemma no_space_trimmed (u : str) : no_space u -> trimmed u.
Proof.
  intros H. split.
  - destruct H; done.
  - destruct (last u) as [c|] eqn:E; [|done].
    apply last_Some_elem_of in E. by apply (proj1 (Forall_forall _ _) H).
Qed.

Lemma no_space_strip (u : str) : no_space u -> strip u = u.
Proof. intros H. by apply trimmed_strip, no_space_trimmed. Qed.

Lemma rstrip_prefix (p : ascii -> bool) (s : str) :
  exists w, s = rstrip_by p s ++ w.
Proof. destruct (rstrip_split p s) as (w & H & _). eauto. Qed.

Lemma slash_not_space : is_space "/" = false.
Proof. reflexivity. Qed.

Lemma last_not_slash (s : str) : last (rstrip_char "/" s) <> Some "/"%char.
Proof.
  intros H. apply rstrip_last in H. by rewrite ascii_eqb_refl in H.
Qed.

Lemma normalize_url_cut (u : str) :
  (exists rest, strip u = normalize_url u ++ rest)
  /\ last (normalize_url u) <> Some "/"%char
  /\ match normalize_url u with [] => True | c :: _ => is_space c = false end.
Proof.
  unfold normalize_url. split; [|split].
  - destruct (sub_query_prefix (strip u)) as [suf Hsuf].
    { intros H. destruct (strip_trimmed u) as [_ Hl]. by rewrite H in Hl. }
    destruct (rstrip_prefix (ascii_eqb "/") (re_sub query_re [] (strip u)))
      as [w Hw].
    exists (w ++ suf). rewrite app_assoc. unfold rstrip_char. by rewrite <- Hw.
  - apply last_not_slash.
  - destruct (sub_query_prefix (strip u)) as [suf Hsuf].
    { intros H. destruct (strip_trimmed u) as [_ Hl]. by rewrite H in Hl. }
    destruct (rstrip_prefix (ascii_eqb "/") (re_sub query_re [] (strip u)))
      as [w Hw]. unfold rstrip_char.
    destruct (rstrip_by _ _) as [|c r] eqn:E; [done|].
    destruct (strip_trimmed u) as [Hh _].
    rewrite Hsuf, Hw in Hh. done.
Qed.

Lemma nl_free_not_nl (u : str) : nl ∉ u -> forallb not_nl u = true.
Proof.
  intros H. apply Forall_forallb, Forall_forall. intros c Hc.
  unfold not_nl. destruct (ascii_eqb nl c) eqn:E; [|done].
  apply ascii_eqb_eq in E as <-. done.
Qed.

Lemma normalize_no_query_aux (u : str) :
  nl ∉ u -> no_query (normalize_url u).
Proof.
  intros Hu. unfold normalize_url.
  assert (nl ∉ strip u) as Hs.
  { destruct (strip_decompose u) as (w & w' & Hd & _). intros H. apply Hu.
    rewrite Hd. set_solver. }
  apply nl_free_not_nl, sub_query_clean in Hs.
  destruct (rstrip_prefix (ascii_eqb "/") (re_sub query_re [] (strip u)))
    as [w Hw]. unfold rstrip_char. unfold no_query in *.
  rewrite Hw in Hs. by apply Forall_app in Hs as [Hs _].
Qed.

Lemma normalize_no_space (u : str) :
  no_space u ->
  normalize_url u = rstrip_char "/" (re_sub query_re [] u)
  /\ no_space (normalize_url u) /\ no_query (normalize_url u).
Proof.
  intros Hu. split; [|split].
  - unfold normalize_url. by rewrite no_space_strip.
  - destruct (normalize_url_cut u) as ([rest Hr] & _).
    rewrite no_space_strip in Hr by done. unfold no_space in *.
    rewrite Hr in Hu. by apply Forall_app in Hu as [Hu _].
  - apply normalize_no_query_aux. intros H.
    by apply (proj1 (Forall_forall _ _) Hu) in H.
Qed.

(** X1.  [normalize_url] only cuts at the end: its result is a prefix of
    the stripped link, it never ends with a slash and never begins with
    whitespace. *)
Theorem normalize_url_prefix (u : str) :
  (exists rest, strip u = normalize_url u ++ rest)
  /\ last (normalize_url u) <> Some "/"%char
  /\ match normalize_url u with [] => True | c :: _ => is_space c = false end.
Proof. apply normalize_url_cut. Qed.

(** X2.  For a link without a line feed nothing of a query string or of
    a fragment is left: the result contains neither [?] nor [#]. *)
Theorem normalize_url_no_query (u : str) :
  nl ∉ u -> no_query (normalize_url u).
Proof. apply normalize_no_query_aux. Qed.

Lemma normalize_url_no_query_witness :
  no_query (normalize_url query_link).
Proof.
  apply normalize_url_no_query. unfold query_link.
  apply (bool_decide_unpack _). vm_compute. reflexivity.
Defined.

(** X3.  On a link without whitespace [normalize_url] is idempotent:
    normalizing a normalized link changes nothing. *)
Theorem normalize_url_idempotent (u : str) :
  no_space u -> normalize_url (normalize_url u) = normalize_url u.
Proof.
  intros Hu. destruct (normalize_no_space u Hu) as (_ & Hs & Hq).
  destruct (normalize_no_space _ Hs) as (-> & _).
  rewrite sub_query_plain by done.
  apply rstrip_fixed. destruct (last (normalize_url u)) as [c|] eqn:E; [|done].
  apply ascii_eqb_neq. intros <-. by apply (last_not_slash _ E).
Qed.

Lemma normalize_url_idempotent_witness :
  normalize_url (normalize_url query_link) = normalize_url query_link.
Proof.
  apply normalize_url_idempotent. unfold no_space, query_link.
  repeat constructor.
Defined.

(** X4.  Links that differ by a query string, a fragment or a final
    slash have the same normal form: for a link [u] without whitespace,
    [?] and [#], appending [?] or [#] and any text without whitespace,
    or appending a slash, does not change the result. *)
Theorem normalize_url_variants (u q : str) (c : ascii) :
  no_space u -> no_query u -> no_space q -> is_query_start c = true ->
  normalize_url (u ++ c :: q) = normalize_url u
  /\ normalize_url (u ++ ["/"%char]) = normalize_url u.
Proof.
  intros Hu Hn Hq Hc. split.
  - assert (no_space (u ++ c :: q)) as Hall.
    { apply Forall_app. split; [done|]. constructor; [|done].
      unfold is_query_start in Hc. apply orb_true_iff in Hc.
      destruct Hc as [<-%ascii_eqb_eq| <-%ascii_eqb_eq]; done. }
    destruct (normalize_no_space _ Hall) as (-> & _).
    destruct (normalize_no_space _ Hu) as (-> & _).
    rewrite sub_query_cut by (try done; by apply no_space_not_nl).
    by rewrite sub_query_plain.
  - assert (no_space (u ++ ["/"%char])) as Hall.
    { apply Forall_app. split; [done|]. by constructor. }
    assert (no_query (u ++ ["/"%char])) as Hnq.
    { apply Forall_app. split; [done|]. by constructor. }
    destruct (normalize_no_space _ Hall) as (-> & _).
    destruct (normalize_no_space _ Hu) as (-> & _).
    rewrite !sub_query_plain by done.
    unfold rstrip_char. by rewrite rstrip_snoc, ascii_eqb_refl.
Qed.

Lemma normalize_url_variants_witness :
  normalize_url query_link
  = normalize_url ("https://x.com/a/"%string : str).
Proof.
  apply (proj1 (normalize_url_variants ("https://x.com/a/"%string : str)
                  ("q=1#frag"%string : str) "?"%char
                  ltac:(repeat constructor) ltac:(repeat constructor)
                  ltac:(repeat constructor) eq_refl)).
Defined.
End UrlFacts.

(* ===================================================================== *)
(** * The entries of a feed                                             *)
(* ===================================================================== *)

Module FeedFacts.
Import Text Regex Util Reddit Spec Samples TextFacts Terms Cases.

Lemma collect_entries_take (rss : str) (max_items : Z) (ents : list RawEntry) :
  forall entries,
    length entries < entry_limit max_items ->
    collect_entries rss max_items entries ents
    = take (entry_limit max_items) (entries ++ omap (make_entry rss) ents).
Proof.
  unfold entry_limit.
  induction ents as [|ent ents IH]; intros entries Hlen.
  - simpl. rewrite app_nil_r, take_ge; [done|lia].
  - destruct (make_entry rss ent) as [d|] eqn:Hd.
    + assert (omap (make_entry rss) (ent :: ents)
              = d :: omap (make_entry rss) ents) as ->
        by (simpl; by rewrite Hd).
      replace (entries ++ d :: omap (make_entry rss) ents)
        with ((entries ++ [d]) ++ omap (make_entry rss) ents)
        by (by rewrite <- app_assoc).
      cbn [collect_entries]. rewrite Hd. cbv zeta.
      destruct (Z.leb_spec max_items (Z.of_nat (length (entries ++ [d]))))
        as [Hle|Hgt]; rewrite length_app in *; simpl in *.
      * assert (Z.to_nat (Z.max 1 max_items) = length (entries ++ [d])) as ->.
        { rewrite length_app. simpl. lia. }
        by rewrite take_app_length.
      * apply IH. rewrite length_app. simpl. lia.
    + assert (omap (make_entry rss) (ent :: ents)
              = omap (make_entry rss) ents) as ->
        by (simpl; by rewrite Hd).
      cbn [collect_entries]. rewrite Hd. by apply IH.
Qed.

Lemma fetch_rss_entries_take_aux (rss : str) (max_items : Z)
    (ents : list RawEntry) :
  fetch_rss_entries (inr ents) rss max_items
  = inr (take (entry_limit max_items) (omap (make_entry rss) ents)).
Proof.
  simpl. f_equal. apply (collect_entries_take rss max_items ents []).
  unfold entry_limit. simpl. lia.
Qed.

(** X5.  [fetch_rss_entries] hands on the error of the download, and
    otherwise returns, in the order of the document, the first
    [max_items] of the entries that have a title and a link; the length
    is tested after an entry is added, so with a bound below 1 one
    entry is still returned. *)
Theorem fetch_rss_entries_take (rss : str) (max_items : Z)
    (doc : result (list RawEntry)) :
  fetch_rss_entries doc rss max_items
  = match doc with
    | inl e => inl e
    | inr ents =>
        inr (take (entry_limit max_items) (omap (make_entry rss) ents))
    end.
Proof. destruct doc; [done|]. apply fetch_rss_entries_take_aux. Qed.

Lemma make_entry_fields (rss : str) (ent : RawEntry) (d : dict) :
  make_entry rss ent = Some d ->
  dom d = entry_keys
  /\ d !! "title"%string = Some (strip (default [] (ent_title ent)))
  /\ d !! "link"%string = Some (strip (default [] (ent_href ent)))
  /\ strip (default [] (ent_title ent)) <> []
  /\ strip (default [] (ent_href ent)) <> []
  /\ d !! "rss"%string = Some rss.
Proof.
  unfold make_entry, text_of.
  destruct (strip (default [] (ent_title ent))) as [|c t] eqn:Ht; [done|].
  destruct (strip (default [] (ent_href ent))) as [|c' l] eqn:Hl; [done|].
  simpl. intros [= <-]. by repeat split.
Qed.

(** X6.  What [fetch_rss_entries] returns is bounded and well formed: at
    most [max_items] entries (one when the bound is below 1), each with
    exactly the seven keys, a title and a link that are not empty and
    have no surrounding whitespace, and the URL of the feed under
    [rss]. *)
Theorem fetch_rss_entries_well_formed (rss : str) (max_items : Z)
    (doc : result (list RawEntry)) (entries : list dict) :
  fetch_rss_entries doc rss max_items = inr entries ->
  length entries <= entry_limit max_items
  /\ Forall (fun d =>
       dom d = entry_keys
       /\ dget d "title" [] <> [] /\ trimmed (dget d "title" [])
       /\ dget d "link" [] <> [] /\ trimmed (dget d "link" [])
       /\ dget d "rss" [] = rss) entries.
Proof.
  destruct doc as [e|ents]; [done|].
  rewrite fetch_rss_entries_take_aux. intros [= <-]. split.
  - rewrite length_take. lia.
  - apply Forall_forall. intros d Hd.
    apply elem_of_take in Hd as (i & Hd & _).
    apply list_elem_of_lookup_2 in Hd.
    apply list_elem_of_omap in Hd as (ent & _ & Hent).
    destruct (make_entry_fields _ _ _ Hent) as (Hdom & Ht & Hl & Htn & Hln & Hr).
    unfold dget. rewrite Ht, Hl, Hr. simpl.
    repeat split; try done; apply strip_trimmed.
Qed.

Lemma fetch_rss_entries_well_formed_witness :
  length (collect_entries feed_url 25 [] [short_post; sample_entry])
  <= entry_limit 25.
Proof.
  apply (fetch_rss_entries_well_formed feed_url 25
           (inr [short_post; sample_entry])).
  reflexivity.
Defined.
End FeedFacts.

(* ===================================================================== *)
(** * Tokens, similarity and blocked keywords                           *)
(* ===================================================================== *)

Module SimilarityFacts.
Import Text Regex Util Generate Spec Samples TextFacts TokenFacts JaccardFacts PickFacts Terms Cases.

Lemma quot_bounds (i u : nat) :
  0 < u -> i <= u -> (0 <= quot i u)%Qc /\ (quot i u <= 1)%Qc.
Proof.
  intros Hu Hi. unfold quot, Qcle, Qcdiv, Qcmult, Qcinv. simpl.
  rewrite !Qred_correct.
  assert (0 < inject_Z (Z.of_nat u))%Q as Hpos
    by (unfold Qlt; simpl; lia).
  split.
  - apply Qle_shift_div_l; [done|]. unfold Qle. simpl. lia.
  - apply Qle_shift_div_r; [done|]. unfold Qle. simpl. lia.
Qed.

Lemma quot_one (i u : nat) : 0 < u -> quot i u = 1%Qc <-> i = u.
Proof.
  intros Hu. unfold quot.
  assert (Q2Qc (inject_Z (Z.of_nat u)) <> Q2Qc 0) as Hnz.
  { intros H. apply Q2Qc_eq_iff in H. unfold Qeq in H. simpl in H. lia. }
  split.
  - intros H.
    assert (Q2Qc (inject_Z (Z.of_nat i)) = Q2Qc (inject_Z (Z.of_nat u))) as E.
    { rewrite <- (Qcmult_div_r _ (Q2Qc (inject_Z (Z.of_nat u))) Hnz) at 1.
      rewrite H. apply Qcmult_1_r. }
    apply Q2Qc_eq_iff in E. unfold Qeq in E. simpl in E. lia.
  - intros ->. unfold Qcdiv. by apply Qcmult_inv_r.
Qed.

Lemma jaccard_quot (a b : gset str) :
  a <> ∅ -> b <> ∅ -> jaccard a b = quot (size (a ∩ b)) (size (a ∪ b)).
Proof.
  intros Ha Hb. unfold jaccard.
  rewrite decide_False by tauto. rewrite decide_False by tauto.
  rewrite decide_False; [done|]. by apply union_nonempty_size.
Qed.

Lemma jaccard_sym (a b : gset str) : jaccard a b = jaccard b a.
Proof.
  unfold jaccard.
  destruct (decide (a = ∅ /\ b = ∅)) as [H|H].
  { rewrite decide_True by tauto. done. }
  rewrite (decide_False (P := b = ∅ /\ a = ∅)) by tauto.
  destruct (decide (a = ∅ \/ b = ∅)) as [H'|H'].
  { rewrite decide_True by tauto. done. }
  rewrite (decide_False (P := b = ∅ \/ a = ∅)) by tauto.
  assert (a ∩ b = b ∩ a) as -> by set_solver.
  assert (a ∪ b = b ∪ a) as -> by set_solver. done.
Qed.

Lemma jaccard_range (a b : gset str) :
  (0 <= jaccard a b)%Qc /\ (jaccard a b <= 1)%Qc.
Proof.
  destruct (decide (a = ∅)) as [Ha|Ha]; [|destruct (decide (b = ∅)) as [Hb|Hb]].
  - unfold jaccard. destruct (decide (a = ∅ /\ b = ∅)); [done|].
    rewrite decide_True by tauto. done.
  - unfold jaccard. rewrite decide_False by tauto.
    rewrite decide_True by tauto. done.
  - rewrite jaccard_quot by done. apply quot_bounds.
    + pose proof (union_nonempty_size a b Ha). lia.
    + apply subseteq_size. set_solver.
Qed.

Lemma jaccard_one (a b : gset str) : jaccard a b = 1%Qc <-> a = b.
Proof.
  destruct (decide (a = ∅)) as [Ha|Ha]; [|destruct (decide (b = ∅)) as [Hb|Hb]].
  - unfold jaccard. destruct (decide (a = ∅ /\ b = ∅)) as [[_ Hb]|H].
    + split; [congruence|done].
    + rewrite decide_True by tauto. split; [done|]. intros <-. tauto.
  - unfold jaccard. rewrite decide_False by tauto.
    rewrite decide_True by tauto. split; [done|]. congruence.
  - rewrite jaccard_quot by done.
    rewrite quot_one by (pose proof (union_nonempty_size a b Ha); lia).
    split.
    + intros H.
      assert (a ∩ b = a ∪ b) as E.
      { apply set_subseteq_size_eq; [set_solver|lia]. }
      apply set_eq. intros x. split; intros Hx.
      * assert (x ∈ a ∪ b) as Hx' by set_solver. rewrite <- E in Hx'. set_solver.
      * assert (x ∈ a ∪ b) as Hx' by set_solver. rewrite <- E in Hx'. set_solver.
    + intros <-. f_equal; set_solver.
Qed.

(** X7.  [jaccard] is symmetric, its value lies between 0 and 1, and it
    is 1 exactly when the two sets are equal. *)
Theorem jaccard_properties (a b : gset str) :
  jaccard a b = jaccard b a
  /\ (0 <= jaccard a b)%Qc /\ (jaccard a b <= 1)%Qc
  /\ (jaccard a b = 1%Qc <-> a = b).
Proof.
  split; [apply jaccard_sym|]. split; [apply jaccard_range|].
  split; [apply jaccard_range|apply jaccard_one].
Qed.

(** ** Tokens *)

Lemma lower_char_idem (c : ascii) : lower_char (lower_char c) = lower_char c.
Proof. destruct c as [[] [] [] [] [] [] [] []]; vm_compute; reflexivity. Qed.

Lemma lower_idem (s : str) : lower (lower s) = lower s.
Proof.
  unfold lower. rewrite map_map. apply map_ext. intros c. apply lower_char_idem.
Qed.

(** The words of [split] are non-empty runs of characters of the text
    that are not whitespace. *)
Lemma split_words (s : str) :
  Forall (fun w => w <> [] /\ Forall (fun c => is_space c = false /\ c ∈ s) w)
         (split s).
Proof.
  induction s as [|c s IH]; [constructor|].
  assert (Forall (fun w => w <> []
            /\ Forall (fun x => is_space x = false /\ x ∈ c :: s) w) (split s))
    as IH'.
  { eapply Forall_impl; [exact IH|]. intros w [Hw Hall]. split; [done|].
    eapply Forall_impl; [exact Hall|]. intros x [? ?]. split; [done|].
    by right. }
  destruct (is_space c) eqn:Hc.
  - by rewrite split_space.
  - assert (Forall (fun x => is_space x = false /\ x ∈ c :: s) [c]) as Hone.
    { constructor; [|constructor]. split; [done|by left]. }
    rewrite split_cons by done. destruct (sp_head s).
    + constructor; [|done]. by split.
    + destruct (split s) as [|w ws]; [constructor; [by split|constructor]|].
      apply Forall_cons in IH' as [[Hw Hall] IH'].
      constructor; [|done]. split; [done|].
      constructor; [split; [done|by left]|done].
Qed.

Lemma blank_chars (c : ascii) :
  is_space (blank c) = false -> is_az09 (blank c) = true.
Proof.
  unfold blank. destruct (is_az09 c) eqn:Ha; simpl; [done|].
  destruct (is_space c) eqn:Hs; simpl; [congruence|]. done.
Qed.

Lemma simple_tokens_shape_aux (s t : str) :
  t ∈ simple_tokens s ->
  2 < length t /\ Forall (fun c => is_az09 c = true) t.
Proof.
  rewrite simple_tokens_ref. unfold tokens_ref.
  rewrite elem_of_list_to_set, list_elem_of_filter. intros [Hlen Hin].
  split; [done|].
  pose proof (split_words (map blank (lower s))) as Hw.
  apply (proj1 (Forall_forall _ _) Hw) in Hin as [_ Hall].
  eapply Forall_impl; [exact Hall|]. intros c [Hsp Hc].
  apply list_elem_of_fmap in Hc as (d & -> & _). by apply blank_chars.
Qed.

(** X8.  Every token of [simple_tokens] is longer than two characters
    and consists of the characters a-z and 0-9 only, and the token set
    does not depend on the letter case of the text. *)
Theorem simple_tokens_shape (s : str) :
  (forall t, t ∈ simple_tokens s ->
     2 < length t /\ Forall (fun c => is_az09 c = true) t)
  /\ simple_tokens (lower s) = simple_tokens s.
Proof.
  split; [intros t; apply simple_tokens_shape_aux|].
  unfold simple_tokens. by rewrite lower_idem.
Qed.

(** ** Blocked keywords *)

Lemma contains_nil (h : str) : contains [] h = true.
Proof. by destruct h. Qed.

(** X9.  [is_blocked] at its edges: without keywords no title is
    blocked; the letter case of the title and of the keywords does not
    matter; and an empty keyword in the list blocks every title. *)
Theorem is_blocked_edges (title : str) (kws : list str) :
  is_blocked title [] = false
  /\ is_blocked (lower title) (map lower kws) = is_blocked title kws
  /\ ([] ∈ kws -> is_blocked title kws = true).
Proof.
  split; [done|]. split.
  - unfold is_blocked. rewrite lower_idem. induction kws as [|k kws IH]; [done|].
    simpl. by rewrite lower_idem, IH.
  - intros Hin. apply is_blocked_spec. exists []. split; [done|].
    apply contains_spec. apply contains_nil.
Qed.

(** ** An entry with the title of a past article *)

(** X10.  An entry whose title has the token set of the non-empty title
    of a past article is never kept as a candidate: the similarity is 1,
    above the threshold 0.78, whatever its link and the keywords. *)
Theorem consider_same_tokens_excluded (bk : list str) (processed : gset str)
    (articles : list dict) (e a : dict) :
  a ∈ articles -> dget a "title" [] <> [] ->
  simple_tokens (dget e "title" []) = simple_tokens (dget a "title" []) ->
  consider bk processed
    (map simple_tokens
       (filter (fun t => nonempty t = true)
               (map (fun a => dget a "title" []) articles))) e = None.
Proof.
  intros Ha Ht Htok. unfold consider.
  destruct (negb _ || bool_decide _); [done|].
  destruct (is_blocked _ _); [done|].
  assert (existsb
    (fun pt => bool_decide
       (Q2Qc (78 # 100) <= jaccard (simple_tokens (dget e "title" [])) pt)%Qc)
    (map simple_tokens
       (filter (fun t => nonempty t = true)
               (map (fun a => dget a "title" []) articles))) = true) as ->; [|done].
  apply too_similar_spec. exists a. split; [done|]. split; [done|].
  unfold title_tokens. rewrite Htok.
  rewrite (proj2 (jaccard_one _ _) eq_refl). done.
Qed.

Lemma consider_same_tokens_excluded_witness :
  consider [] ∅
    (map simple_tokens
       (filter (fun t => nonempty t = true)
               (map (fun a => dget a "title" []) archive))) art_rocket = None.
Proof.
  apply (consider_same_tokens_excluded [] ∅ archive art_rocket art_rocket).
  - apply list_elem_of_here.
  - vm_compute. discriminate.
  - reflexivity.
Defined.
End SimilarityFacts.

(* ===================================================================== *)
(** * The generated article                                             *)
(* ===================================================================== *)

Module GenerationFacts.
Import Text Regex Util Generate Spec Samples TextFacts SanitizeFacts ParseFacts PickFacts Terms Cases.

Lemma sanitize_clean (s : str) : ~ has_script_opener (sanitize_llm_html s).
Proof. by apply (sanitize_clean_aux (length s)). Qed.

(** X11.  [sanitize_llm_html] is idempotent: a sanitised text is left as
    it is. *)
Theorem sanitize_llm_html_idempotent (s : str) :
  sanitize_llm_html (sanitize_llm_html s) = sanitize_llm_html s.
Proof. apply sanitize_unchanged, sanitize_clean. Qed.

Lemma split_title_trimmed (title out : str) :
  trimmed title -> trimmed (split_title_body title out).1.
Proof.
  intros Ht. unfold split_title_body.
  destruct (re_match title_re (strip out)); simpl; [apply strip_trimmed|done].
Qed.

Lemma article_of_output_clean (title out : str) :
  trimmed title ->
  trimmed (article_of_output title out).1
  /\ ~ has_script_opener (article_of_output title out).2.
Proof.
  intros Ht. unfold article_of_output.
  pose proof (split_title_trimmed title out Ht) as H.
  destruct (split_title_body title out) as [t b]. simpl in *.
  split; [done|apply sanitize_clean].
Qed.

Lemma article_of_blank (title out : str) :
  forallb is_space out = true -> article_of_output title out = (title, []).
Proof.
  intros H. apply strip_nil_iff in H.
  unfold article_of_output, split_title_body. rewrite H. reflexivity.
Qed.

Section Generation.
Context {Site : Type}.
Variable chat_completion : str -> str -> str -> result str.
Implicit Types (w : World (Site:=Site)).

(** X12.  Whatever the generation service replies, the title that
    [deepseek_article] returns has no surrounding whitespace, the body
    holds no script tag opener, and the only effect is the one call of
    the service. *)
Theorem deepseek_article_result (item : dict) w w' (t body : str) :
  deepseek_article chat_completion item w = (w', inr (t, body)) ->
  trimmed t /\ ~ has_script_opener body
  /\ w' = add_events [EvChat (strip (dget item "title" []))] w.
Proof.
  unfold deepseek_article, chat, mbind, M_bind, log, modify, lift, mret, M_ret.
  simpl. destruct (chat_completion _ _ _) as [e|out]; [done|].
  intros [= <- Ha].
  destruct (article_of_output_clean (strip (dget item "title" [])) (strip out)
              (strip_trimmed _)) as [H1 H2].
  rewrite Ha in H1, H2. done.
Qed.

(** X13.  A reply that is empty or blank is no error: the article gets
    the stripped title of the feed entry and an empty body. *)
Theorem deepseek_article_blank_reply (item : dict) (out : str) w :
  chat_completion (strip (dget item "title" [])) (strip (dget item "link" []))
                  (strip (str_or (dget item "summary" []) [])) = inr out ->
  forallb is_space out = true ->
  deepseek_article chat_completion item w
  = (add_events [EvChat (strip (dget item "title" []))] w,
     inr (strip (dget item "title" []), [])).
Proof.
  intros Hc Hb.
  unfold deepseek_article, chat, mbind, M_bind, log, modify, lift, mret, M_ret.
  simpl. rewrite Hc. f_equal. f_equal. apply article_of_blank.
  apply strip_nil_iff. rewrite strip_idem. by apply strip_nil_iff.
Qed.

End Generation.

Lemma deepseek_article_result_witness :
  trimmed ("Rockets"%string : str)
  /\ ~ has_script_opener ("<p>Body</p>"%string : str).
Proof.
  destruct (deepseek_article_result reply post_item (fresh cfg_one_feed)
              (add_events [EvChat ("A post about rockets"%string : str)]
                          (fresh cfg_one_feed))
              ("Rockets"%string : str) ("<p>Body</p>"%string : str))
    as (H1 & H2 & _); [vm_compute; reflexivity|].
  by split.
Defined.

Lemma deepseek_article_blank_reply_witness :
  deepseek_article blank_reply post_item (fresh cfg_one_feed)
  = (add_events [EvChat ("A post about rockets"%string : str)]
                (fresh cfg_one_feed),
     inr (("A post about rockets"%string : str), [])).
Proof.
  apply (deepseek_article_blank_reply blank_reply post_item (" "%char :: [nl])).
  - reflexivity.
  - reflexivity.
Defined.
End GenerationFacts.

(* ===================================================================== *)
(** * Related articles: cut and completeness                            *)
(* ===================================================================== *)

Module RelatedMore.
Import Text Util Generate Spec Samples RelatedFacts Terms Cases.

Lemma scored_before_le (x y : Qc * (nat * dict)) :
  scored_before x y -> (y.1 <= x.1)%Qc.
Proof.
  intros [H|[-> _]]; [by apply Qclt_le_weak|apply Qcle_refl].
Qed.

Lemma keep_none_below (x y : Qc * (nat * dict)) :
  keep_indexed x = None -> (y.1 <= x.1)%Qc -> keep_indexed y = None.
Proof.
  unfold keep_indexed. case_bool_decide as Hx; [done|]. intros _ Hle.
  case_bool_decide as Hy; [|done]. exfalso. apply Hx.
  by eapply Qclt_le_trans.
Qed.

Lemma omap_all_none {A B} (f : A -> option B) (l : list A) :
  Forall (fun x => f x = None) l -> omap f l = [].
Proof.
  induction 1 as [|x l Hx _ IH]; [done|]. simpl. rewrite Hx. apply IH.
Qed.

(** In a list sorted by descending score, cutting before or after the
    threshold filter gives the same list. *)
Lemma keep_take_sorted (l : list (Qc * (nat * dict))) :
  StronglySorted scored_before l ->
  forall k, omap keep_indexed (take k l) = take k (omap keep_indexed l).
Proof.
  induction 1 as [|x l Hl IH Hx]; intros k; [by destruct k|].
  destruct k as [|k]; [done|]. simpl.
  fold (omap keep_indexed (take k l)). fold (omap keep_indexed l).
  destruct (keep_indexed x) as [ia|] eqn:Hk.
  - simpl. f_equal. apply IH.
  - assert (Forall (fun y => keep_indexed y = None) l) as Hnone.
    { eapply Forall_impl; [exact Hx|]. intros y Hy.
      apply (keep_none_below x); [done|by apply scored_before_le]. }
    rewrite (omap_all_none _ l Hnone).
    rewrite omap_all_none; [by destruct k|].
    apply Forall_forall. intros y Hy. apply (proj1 (Forall_forall _ _) Hnone).
    apply elem_of_take in Hy as (i & Hy & _). by eapply list_elem_of_lookup_2.
Qed.

Lemma indexed_from_length (l : list dict) : forall n,
  length (indexed_from n l) = length l.
Proof. induction l as [|a l IH]; intros n; simpl; [done|]. by rewrite IH. Qed.

Lemma indexed_from_elem (l : list dict) : forall n i a,
  l !! i = Some a -> (n + i, a) ∈ indexed_from n l.
Proof.
  induction l as [|b l IH]; intros n i a; [done|].
  destruct i as [|i]; simpl.
  - intros [= ->]. rewrite Nat.add_0_r. by left.
  - intros H. right. replace (n + S i) with (S n + i) by lia. by apply IH.
Qed.

Lemma scored_length current (articles : list dict) :
  length (sort_desc (omap (score_indexed current) (indexed_from 0 articles)))
  <= length articles.
Proof.
  rewrite sort_desc_perm. etransitivity; [apply omap_length_le|].
  by rewrite indexed_from_length.
Qed.

(** X14.  The limit [k] only cuts the list: the related articles for
    [k] are the first [k] of the related articles without a limit, so
    an article below the threshold never takes the place of one above
    it. *)
Theorem related_articles_truncation (current : dict) (articles : list dict)
    (k : nat) :
  related_articles current articles k
  = take k (related_articles current articles (length articles)).
Proof.
  rewrite !related_articles_indexed. unfold related_indexed.
  set (L := sort_desc _).
  assert (StronglySorted scored_before L) as Hs.
  { pose proof (related_indexed_sorted current articles (length articles)) as H.
    fold L in H. rewrite take_ge in H by apply scored_length. done. }
  rewrite (take_ge L (length articles)) by apply scored_length.
  rewrite keep_take_sorted by done. by rewrite take_map.
Qed.

(** X15.  Without a limit the related articles are exactly the articles
    of the archive with another id and a similarity above 0.05. *)
Theorem related_articles_complete (current a : dict) (articles : list dict) :
  a ∈ related_articles current articles (length articles)
  <-> a ∈ articles
      /\ a !! "id"%string <> current !! "id"%string
      /\ (Q2Qc (5 # 100) < similarity current a)%Qc.
Proof.
  rewrite related_articles_indexed. split.
  - intros ([i b] & -> & Hin)%list_elem_of_fmap. simpl.
    apply related_indexed_elem in Hin as (Hl & Hid & Hs).
    split; [by eapply list_elem_of_lookup_2|]. split; [|done].
    by apply bool_decide_eq_false in Hid.
  - intros (Hin & Hid & Hs). apply list_elem_of_lookup_1 in Hin as [i Hi].
    apply list_elem_of_fmap. exists (i, a). split; [done|].
    unfold related_indexed. rewrite take_ge by apply scored_length.
    apply list_elem_of_omap. exists (similarity current a, (i, a)). split.
    + rewrite sort_desc_perm. apply list_elem_of_omap. exists (i, a). split.
      * by apply (indexed_from_elem articles 0 i a).
      * unfold score_indexed. simpl.
        assert (same_id a current = false) as ->
          by by apply bool_decide_eq_false.
        done.
    + unfold keep_indexed. simpl. by rewrite bool_decide_eq_true_2.
Qed.
End RelatedMore.

(* ===================================================================== *)
(** * The helpers of the site build                                     *)
(* ===================================================================== *)

Module SiteFacts.
Import Text Regex Util Generate Spec Samples TextFacts RegexFacts PickFacts SiteBuild Terms Cases.

(** ** The order on timestamps *)

Lemma str_ltb_irrefl (a : str) : str_ltb a a = false.
Proof.
  induction a as [|x a IH]; [done|]. simpl.
  rewrite N.ltb_irrefl, N.eqb_refl. done.
Qed.

Lemma str_ltb_asym (a b : str) : str_ltb a b = true -> str_ltb b a = false.
Proof.
  revert b. induction a as [|x a IH]; intros [|y b]; simpl; try done.
  intros H. apply orb_true_iff in H as [H|[H1 H2]%andb_true_iff].
  - apply N.ltb_lt in H.
    rewrite (proj2 (N.ltb_ge _ _)) by lia.
    rewrite (proj2 (N.eqb_neq _ _)) by lia. done.
  - apply N.eqb_eq in H1. rewrite H1, N.ltb_irrefl, N.eqb_refl. simpl.
    by apply IH.
Qed.

(** [>=] is transitive. *)
Lemma str_geb_trans (a b c : str) :
  str_ltb a b = false -> str_ltb b c = false -> str_ltb a c = false.
Proof.
  revert b c. induction a as [|x a IH]; intros [|y b] [|z c]; simpl; try done.
  intros H1 H2.
  apply orb_false_iff in H1 as [H1 H1'], H2 as [H2 H2'].
  apply N.ltb_ge in H1, H2.
  apply orb_false_iff. split; [apply N.ltb_ge; lia|].
  destruct (N.eqb_spec (code x) (code z)) as [E|E]; [|done]. simpl.
  assert (code x = code y) as Exy by lia.
  assert (code y = code z) as Eyz by lia.
  rewrite (proj2 (N.eqb_eq _ _) Exy) in H1'.
  rewrite (proj2 (N.eqb_eq _ _) Eyz) in H2'. simpl in *.
  by apply (IH b c).
Qed.

Lemma insert_recent_perm (x : dict) (l : list dict) :
  insert_recent x l ≡ₚ x :: l.
Proof.
  induction l as [|y l IH]; simpl; [done|].
  destruct (str_ltb _ _); [|done]. rewrite IH. apply Permutation_swap.
Qed.

Lemma compute_rankings_perm (l : list dict) : compute_rankings l ≡ₚ l.
Proof.
  induction l as [|x l IH]; simpl; [done|].
  fold (compute_rankings l). by rewrite insert_recent_perm, IH.
Qed.

Lemma insert_recent_sorted (x : dict) (l : list dict) :
  StronglySorted recent_first l -> StronglySorted recent_first (insert_recent x l).
Proof.
  induction 1 as [|y l Hl IH Hy]; simpl; [repeat constructor|].
  destruct (str_ltb (published_ts x) (published_ts y)) eqn:Hxy.
  - constructor; [done|]. rewrite insert_recent_perm.
    constructor; [by apply str_ltb_asym|done].
  - constructor; [by constructor|]. constructor; [done|].
    eapply Forall_impl; [exact Hy|]. intros z Hz.
    by apply (str_geb_trans _ (published_ts y)).
Qed.

Lemma compute_rankings_sorted (l : list dict) :
  StronglySorted recent_first (compute_rankings l).
Proof.
  induction l as [|x l IH]; simpl; [constructor|].
  by apply insert_recent_sorted.
Qed.

Lemma insert_recent_filter (t : str) (x : dict) (l : list dict) :
  filter (fun a => published_ts a = t) (insert_recent x l)
  = filter (fun a => published_ts a = t) (x :: l).
Proof.
  induction l as [|y l IH]; simpl; [done|].
  destruct (str_ltb (published_ts x) (published_ts y)) eqn:Hxy; [|done].
  rewrite (filter_cons _ y), IH, !(filter_cons _ x), !(filter_cons _ y).
  destruct (decide (published_ts x = t)) as [Hx|Hx];
    destruct (decide (published_ts y = t)) as [Hy|Hy]; try done.
  rewrite Hx, Hy, str_ltb_irrefl in Hxy. done.
Qed.

Lemma compute_rankings_stable (t : str) (l : list dict) :
  filter (fun a => published_ts a = t) (compute_rankings l)
  = filter (fun a => published_ts a = t) l.
Proof.
  induction l as [|x l IH]; simpl; [done|]. fold (compute_rankings l).
  by rewrite insert_recent_filter, !(filter_cons _ x), IH.
Qed.

(** X16.  [compute_rankings] sorts: the result is a permutation of the
    archive in which no article stands before one with a later
    timestamp (as Python orders strings), and articles with the same
    timestamp keep the order of the archive. *)
Theorem compute_rankings_sorts (articles : list dict) :
  compute_rankings articles ≡ₚ articles
  /\ StronglySorted recent_first (compute_rankings articles)
  /\ (forall t, filter (fun a => published_ts a = t) (compute_rankings articles)
                = filter (fun a => published_ts a = t) articles).
Proof.
  split; [apply compute_rankings_perm|].
  split; [apply compute_rankings_sorted|].
  intros t. apply compute_rankings_stable.
Qed.

(** X17.  The feed, like the two lists of the home page, holds the
    [limit] most recent articles: as many as the limit or the archive
    allows, most recent first, and none of the articles left out is more
    recent than one that is in. *)
Theorem feed_items_most_recent (articles : list dict) (limit : nat) :
  length (feed_items articles limit) = min limit (length articles)
  /\ StronglySorted recent_first (feed_items articles limit)
  /\ exists rest,
       feed_items articles limit ++ rest ≡ₚ articles
       /\ forall a b, a ∈ feed_items articles limit -> b ∈ rest ->
                      recent_first a b.
Proof.
  unfold feed_items. split; [|split].
  - rewrite length_take, compute_rankings_perm. lia.
  - eapply StronglySorted_app_1_l. rewrite take_drop.
    apply compute_rankings_sorted.
  - exists (drop limit (compute_rankings articles)). split.
    + rewrite take_drop. apply compute_rankings_perm.
    + intros a b Ha Hb.
      eapply (StronglySorted_app_1_elem_of recent_first); [|exact Ha|exact Hb].
      rewrite take_drop. apply compute_rankings_sorted.
Qed.

(** ** Image extension and image cache *)

Lemma find_image_ext (f : str -> bool) :
  default (".jpg"%string : str) (List.find f image_exts) ∈ image_exts
  /\ (default (".jpg"%string : str) (List.find f image_exts)
        <> (".jpg"%string : str) ->
      f (default (".jpg"%string : str) (List.find f image_exts)) = true).
Proof.
  unfold image_exts. cbn [List.find].
  destruct (f (".jpg"%string : str)) eqn:H1;
    [split; [by left|done]|].
  destruct (f (".jpeg"%string : str)) eqn:H2;
    [split; [right; by left|by intros _]|].
  destruct (f (".png"%string : str)) eqn:H3;
    [split; [right; right; by left|by intros _]|].
  destruct (f (".webp"%string : str)) eqn:H4;
    [split; [right; right; right; by left|by intros _]|].
  split; [by left|done].
Qed.

Section OgFacts.
Variable url_path : str -> option str.
Variable urlopen : str -> result str.

(** X18.  [_guess_ext_from_url] returns one of the four extensions, and
    one other than [.jpg] only when the path of the URL ends with it in
    some letter case; a URL that cannot be parsed gets [.jpg]. *)
Theorem guess_ext_cases (u : str) :
  let ext := _guess_ext_from_url url_path u in
  ext ∈ image_exts
  /\ (ext <> (".jpg"%string : str) ->
      exists p, url_path u = Some p /\ ends_with ext (lower p) = true).
Proof.
  intros ext. subst ext. unfold _guess_ext_from_url.
  destruct (url_path u) as [p|].
  - destruct (find_image_ext (fun ext => ends_with ext (lower p))) as [H1 H2].
    split; [done|]. intros H. exists p. split; [done|]. by apply H2.
  - split; [by left|]. intros H. by destruct H.
Qed.

Lemma cache_og_image_eq (base_url src_url article_id : str) (d : OgDisk) :
  let src := strip src_url in
  let name := article_id ++ _guess_ext_from_url url_path src in
  let url := rstrip_char "/" base_url ++ ("/og/"%string : str) ++ name in
  cache_og_image url_path urlopen base_url src_url article_id d
  = match src with
    | [] => (d, [])
    | _ =>
        match og_files d !! name with
        | Some _ => (og_log (OgMkdir name) d, url)
        | None =>
            match urlopen src with
            | inl _ => (og_log (OgDownload src) (og_log (OgMkdir name) d), [])
            | inr data =>
                ((if nonempty data
                  then og_write name data
                         (og_log (OgDownload src) (og_log (OgMkdir name) d))
                  else og_log (OgDownload src) (og_log (OgMkdir name) d)),
                 url)
            end
        end
    end.
Proof.
  intros src name url. unfold cache_og_image.
  rewrite str_or_nil. fold src.
  destruct src as [|c s] eqn:Hsrc; [done|]. reflexivity.
Qed.

(** X19.  [cache_og_image] never removes or overwrites a cached file and
    returns the empty text or the public URL of the file: for an empty
    source nothing happens; a file that is cached is not downloaded
    again; otherwise there is one download, whose failure gives the
    empty text and leaves the files as they were, and whose data are
    written when they are not empty (the URL is returned for empty data
    too). *)
Theorem cache_og_image_cases (base_url src_url article_id : str) (d : OgDisk) :
  let res := cache_og_image url_path urlopen base_url src_url article_id d in
  let src := strip src_url in
  let name := article_id ++ _guess_ext_from_url url_path src in
  let url := rstrip_char "/" base_url ++ ("/og/"%string : str) ++ name in
  og_files d ⊆ og_files res.1
  /\ (res.2 = [] \/ res.2 = url)
  /\ (src = [] -> res = (d, []))
  /\ (src <> [] -> is_Some (og_files d !! name) ->
      res = (og_log (OgMkdir name) d, url))
  /\ (src <> [] -> og_files d !! name = None ->
      match urlopen src with
      | inl _ => res.2 = [] /\ og_files res.1 = og_files d
      | inr data =>
          res.2 = url
          /\ og_files res.1
             = if nonempty data then <[name := data]> (og_files d)
               else og_files d
      end).
Proof.
  intros res src name url. subst res. rewrite cache_og_image_eq.
  fold src name url.
  destruct src as [|c s] eqn:Hsrc.
  { repeat split; try done; by left. }
  destruct (og_files d !! name) as [old|] eqn:Hold.
  { repeat split; try done; try (by right); by intros _ [? ?]. }
  destruct (urlopen (c :: s)) as [e|data] eqn:Hopen.
  { repeat split; try done; try (by left); by intros _ [? ?]. }
  assert (og_files d ⊆ og_files
            (if nonempty data
             then og_write name data
                    (og_log (OgDownload (c :: s)) (og_log (OgMkdir name) d))
             else og_log (OgDownload (c :: s)) (og_log (OgMkdir name) d)))
    as Hsub.
  { destruct (nonempty data); simpl; [|done]. by apply insert_subseteq. }
  repeat split; try done; try (by right); try (by intros _ [? ?]).
  by destruct (nonempty data).
Qed.

End OgFacts.

(** ** The site directory *)

Lemma drop_while_prefix (p : ascii -> bool) (s : str) :
  exists pre, s = pre ++ drop_while p s
              /\ Forall (fun c => p c = true) pre.
Proof.
  destruct (drop_while_split p s) as (a & Ha & Hp).
  exists a. split; [done|]. by apply Forall_forallb.
Qed.

(** X20.  The site directory that is joined to the root is the
    configured value, or [docs] when there is none or an empty one,
    stripped of the whitespace around it and then of every dot and slash
    at its head.  So it never begins with a dot or a slash, and a value
    that does not begin with one is taken as it is.  Nothing else is
    removed: a blank value gives the empty path, which is the root
    itself, and segments [..] after the head are kept, so that the
    directory need not lie below the root. *)
Theorem get_site_dir_relative (site_dir : option str) :
  let v := strip (str_or (default [] site_dir) "docs"%string) in
  (exists pre, v = pre ++ get_site_dir site_dir
               /\ Forall (fun c => c = "."%char \/ c = "/"%char) pre)
  /\ match get_site_dir site_dir with
     | [] => True
     | c :: _ => c <> "."%char /\ c <> "/"%char
     end
  /\ (match v with
      | [] => True
      | c :: _ => c <> "."%char /\ c <> "/"%char
      end -> get_site_dir site_dir = v)
  /\ (site_dir = None \/ site_dir = Some [] ->
      get_site_dir site_dir = ("docs"%string : str))
  /\ (forall w, site_dir = Some w -> w <> [] -> forallb is_space w = true ->
      get_site_dir site_dir = [])
  /\ get_site_dir (Some ("x/../../etc"%string : str))
     = ("x/../../etc"%string : str)
  /\ get_site_dir (Some ("../../etc"%string : str)) = ("etc"%string : str)
  /\ get_site_dir (Some (" ./"%string : str)) = [].
Proof.
  intros v. split; [|split; [|split; [|split; [|split]]]].
  - unfold get_site_dir, lstrip_by. fold v.
    destruct (drop_while_prefix
                (fun c => ascii_eqb "." c || ascii_eqb "/" c) v)
      as (pre & Hv & Hpre).
    exists pre. split; [done|].
    eapply Forall_impl; [exact Hpre|]. intros c Hc. simpl in Hc.
    apply orb_true_iff in Hc as [Hc|Hc]; apply ascii_eqb_eq in Hc; auto.
  - unfold get_site_dir, lstrip_by.
    pose proof (drop_while_head (fun c => ascii_eqb "." c || ascii_eqb "/" c)
      (strip (str_or (default [] site_dir) "docs"%string))) as H.
    destruct (drop_while _ _) as [|c r]; [done|].
    apply orb_false_iff in H as [H1 H2].
    apply ascii_eqb_neq in H1, H2. split; congruence.
  - unfold get_site_dir, lstrip_by. fold v.
    destruct v as [|c r]; [done|]. intros [H1 H2]. simpl.
    assert (ascii_eqb "." c = false) as -> by (apply ascii_eqb_neq; congruence).
    assert (ascii_eqb "/" c = false) as -> by (apply ascii_eqb_neq; congruence).
    done.
  - intros [-> | ->]; reflexivity.
  - intros w -> Hne Hw. unfold get_site_dir. simpl default.
    assert (str_or w ("docs"%string : str) = w) as ->
      by (by destruct w).
    assert (strip w = []) as ->; [|done].
    rewrite <- (app_nil_r w). exact (strip_pad w [] [] Hw eq_refl).
  - repeat split; reflexivity.
Qed.

(** ** The description of a feed item *)

Lemma ws_re_len (prev : option ascii) (c : ascii) (s : str) :
  match_len ws_re prev (c :: s) =
    if is_space c then Some (length (c :: s) - length (drop_while is_space s))
    else None.
Proof.
  unfold match_len, ws_re. simpl run.
  destruct (is_space c); [|done].
  destruct (drop_while_split is_space s) as (a & Hs & Ha).
  rewrite Hs at 1. apply star_first; [done|apply drop_while_head|done].
Qed.

Lemma ws_re_local : local_pattern ws_re.
Proof. intros prev prev' [|c s]; [done|]. by rewrite !ws_re_len. Qed.

Lemma sub_ws_run (c : ascii) (s : str) :
  is_space c = true ->
  re_sub ws_re " "%string (c :: s)
  = " "%char :: re_sub ws_re " "%string (drop_while is_space s).
Proof.
  intros Hc. destruct (drop_while_split is_space s) as (a & Hs & Ha).
  rewrite Hs at 1.
  apply (re_sub_match ws_re " "%string ws_re_local (c :: a)); [done|].
  simpl app. rewrite <- Hs, ws_re_len, Hc. f_equal.
  apply (f_equal length) in Hs. rewrite length_app in Hs. simpl. lia.
Qed.

Lemma sub_ws_keep (c : ascii) (s : str) :
  is_space c = false ->
  re_sub ws_re " "%string (c :: s) = c :: re_sub ws_re " "%string s.
Proof.
  intros Hc. apply re_sub_keep; [apply ws_re_local|].
  by rewrite ws_re_len, Hc.
Qed.

Lemma sub_ws_spaced (n : nat) : forall t,
  length t <= n -> single_spaced (re_sub ws_re " "%string t) = true.
Proof.
  induction n as [|n IH]; intros t Hn.
  - destruct t; [done|simpl in Hn; lia].
  - destruct t as [|c t]; [done|]. simpl in Hn.
    destruct (is_space c) eqn:Hc.
    + rewrite sub_ws_run by done.
      pose proof (drop_while_head is_space t) as Hh.
      pose proof (drop_while_length is_space t) as Hl.
      destruct (drop_while is_space t) as [|d r] eqn:Hr; [done|].
      assert (single_spaced (re_sub ws_re " "%string (d :: r)) = true) as Hs
        by (apply IH; simpl in *; lia).
      rewrite sub_ws_keep in Hs |- * by done.
      simpl. simpl in Hs. rewrite Hh in Hs |- *. simpl in *. exact Hs.
    + rewrite sub_ws_keep by done. simpl. rewrite Hc. simpl.
      apply IH. lia.
Qed.

Lemma single_spaced_suffix (a b : str) :
  single_spaced (a ++ b) = true -> single_spaced b = true.
Proof.
  induction a as [|c a IH]; [done|]. simpl.
  intros [_ H]%andb_true_iff. auto.
Qed.

Lemma single_spaced_prefix (a b : str) :
  single_spaced (a ++ b) = true -> single_spaced a = true.
Proof.
  induction a as [|c a IH]; [done|]. simpl.
  intros [Hc H]%andb_true_iff. rewrite (IH H), andb_true_r.
  destruct (is_space c); [|done].
  apply andb_true_iff in Hc as [Hc1 Hc2]. rewrite Hc1. simpl.
  destruct a as [|d a]; [done|]. done.
Qed.

(** X21.  For an article without a summary the description of its feed
    item has at most 240 characters, does not begin with whitespace, and
    holds whitespace only as single blanks. *)
Theorem feed_summary_derived (a : dict) :
  dget a "summary" [] = [] ->
  length (feed_summary a) <= 240
  /\ single_spaced (feed_summary a) = true
  /\ match feed_summary a with [] => True | c :: _ => is_space c = false end.
Proof.
  intros Hs. unfold feed_summary. rewrite Hs. simpl str_or. cbv iota.
  simpl nonempty. cbv iota.
  set (t := re_sub ws_re " "%string _).
  assert (single_spaced t = true) as Ht by (by eapply sub_ws_spaced).
  repeat split.
  - rewrite length_take. lia.
  - destruct (strip_decompose t) as (w & w' & Hd & _).
    rewrite Hd in Ht. apply single_spaced_suffix, single_spaced_prefix in Ht.
    rewrite <- (take_drop 240 (strip t)) in Ht.
    by apply single_spaced_prefix in Ht.
  - destruct (strip_trimmed t) as [Hh _].
    destruct (strip t) as [|c r]; [done|]. done.
Qed.

Lemma feed_summary_derived_witness :
  length (feed_summary plain_article) <= 240.
Proof.
  apply (feed_summary_derived plain_article). reflexivity.
Defined.

End SiteFacts.

(* ===================================================================== *)
(** * The run as a whole                                                *)
(* ===================================================================== *)

Module RunMore.
Import Text Regex Util Reddit Generate Spec Samples TextFacts PickFacts ProcessedFacts Terms Cases.



(** The text written by [append_processed] keeps every link of the old
    text, whatever is appended. *)
Lemma appended_text_union (old n : str) :
  processed_of_text (appended_text old n)
  = processed_of_text old ∪ processed_of_text (n ++ [nl]).
Proof.
  unfold appended_text, rstrip.
  destruct (rstrip_split is_space old) as (w & Hold & Hw).
  remember (rstrip_by is_space old) as r eqn:Hr'.
  assert (Ho : processed_of_text old = processed_of_text r)
    by (rewrite Hold; by apply processed_trailing).
  rewrite Ho. clear Ho.
  destruct (strip r) as [|x u] eqn:Hr; simpl nonempty; cbv iota.
  - assert (r = []) as ->.
    { apply strip_nil_iff in Hr. rewrite Hr'. apply rstrip_nil_iff.
      rewrite Hold, forallb_app. by rewrite Hr, Hw. }
    simpl app. unfold processed_of_text at 2, splitlines. simpl.
    change (processed_of_lines []) with (∅ : gset str). set_solver.
  - unfold processed_of_text, splitlines.
    rewrite <- app_assoc. simpl app.
    rewrite (lines_feed _ (length r)) by done.
    rewrite processed_of_lines_app.
    by rewrite (processed_snoc nl (length r)).
Qed.

Section Controller.
Context {Site : Type}.
Variable http_feed : str -> result (list Reddit.RawEntry).
Variable chat_completion : str -> str -> str -> result str.
Variable clock : nat -> Time.
Variable slugify : str -> str.
Variable random_index : nat -> nat.
Variable render_site : Config -> list dict -> Site -> Site * result unit.
Implicit Types (w : World (Site:=Site)).
#[local] Existing Instance M_bind.
#[local] Existing Instance M_ret.











Lemma append_processed_frame url w :
  let w1 := (append_processed url w).1 in
  lite_ran w1 = lite_ran w /\ config_json w1 = config_json w
  /\ articles_json w1 = articles_json w
  /\ last_run_json w1 = last_run_json w /\ site w1 = site w.
Proof.
  unfold append_processed, load_processed, read_processed_text,
    mbind, M_bind, mret, M_ret, gets, log, modify.
  destruct (processed_txt w) as [t|] eqn:Ht; simpl; rewrite ?Ht; simpl;
    case_bool_decide; simpl; rewrite ?Ht; done.
Qed.


(** A feed that cannot be fetched ends the scan: the feeds after it
    are not requested. *)
Lemma scan_feeds_failure bk processed prev_tok (pre : list str) :
  forall rss post e cands w,
    Forall (fun f => exists es,
              Reddit.fetch_rss_entries (http_feed f) f 25 = inr es) pre ->
    Reddit.fetch_rss_entries (http_feed rss) rss 25 = inl e ->
    scan_feeds http_feed bk processed prev_tok cands (pre ++ rss :: post) w
    = (add_events (map EvHttpGet (pre ++ [rss])) w, inl e).
Proof.
  induction pre as [|f pre IH]; intros rss post e cands w Hpre Hrss.
  - simpl. unfold mbind, M_bind, fetch_rss_entries, log, modify, lift. simpl.
    by rewrite Hrss.
  - apply Forall_cons in Hpre as [[es Hes] Hpre].
    simpl. unfold mbind, M_bind, fetch_rss_entries, log, modify, lift. simpl.
    rewrite Hes.
    rewrite (IH rss post e _ _ Hpre Hrss). by rewrite add_events_app.
Qed.

(** X22.  One feed that cannot be fetched ends [pick_candidate] with
    its error: the feeds before it have been requested, the feeds after
    it are not, and no candidate is returned. *)
Theorem pick_candidate_feed_failure cfg processed articles
    (pre post : list str) (rss : str) (e : exn) w :
  reddit_rss cfg = Some (pre ++ rss :: post) ->
  Forall (fun f => exists es,
            Reddit.fetch_rss_entries (http_feed f) f 25 = inr es) pre ->
  Reddit.fetch_rss_entries (http_feed rss) rss 25 = inl e ->
  pick_candidate http_feed random_index cfg processed articles w
  = (add_events (map EvHttpGet (pre ++ [rss])) w, inl e).
Proof.
  intros Hf Hpre Hrss. unfold pick_candidate. rewrite Hf.
  change (default [] (Some (pre ++ rss :: post))) with (pre ++ rss :: post).
  destruct (pre ++ rss :: post) as [|x l] eqn:E; [by destruct pre|].
  rewrite <- E. unfold mbind, M_bind.
  by rewrite (scan_feeds_failure _ _ _ pre rss post e [] w Hpre Hrss).
Qed.

(** X23.  With or without random pick, [pick_candidate] returns none
    exactly when every entry is excluded, and otherwise an entry of the
    feeds that is not excluded, with the two image keys added. *)
Theorem pick_candidate_never_excluded cfg processed articles
    (feeds : list str) (ess : list (list dict)) w :
  reddit_rss cfg = Some feeds -> feeds <> [] ->
  Forall2 (fun rss es =>
             Reddit.fetch_rss_entries (http_feed rss) rss 25 = inr es)
          feeds ess ->
  exists r,
    pick_candidate http_feed random_index cfg processed articles w
    = (add_events (map EvHttpGet feeds) w, inr r)
    /\ match r with
       | None => Forall (excluded cfg processed articles) (concat ess)
       | Some c =>
           exists e, e ∈ concat ess
             /\ ~ excluded cfg processed articles e /\ c = with_image e
       end.
Proof.
  intros Hfeeds Hne Hall. unfold pick_candidate. rewrite Hfeeds.
  destruct feeds as [|rss feeds]; [done|].
  change (default [] (Some (rss :: feeds))) with (rss :: feeds).
  cbv beta iota. unfold mbind, M_bind.
  rewrite (scan_feeds_ok _ _ _ _ _ ess [] w Hall). rewrite app_nil_l.
  set (f := consider _ _ _).
  assert (Hsome : forall c, c ∈ omap f (concat ess) ->
    exists e, e ∈ concat ess
      /\ ~ excluded cfg processed articles e /\ c = with_image e).
  { intros c (e & He & Hc)%list_elem_of_omap. exists e. split; [done|].
    destruct (consider_spec cfg processed articles e) as [[_ H]|[Hn H]];
      fold f in H; rewrite H in Hc; [done|]. by injection Hc as <-. }
  destruct (omap f (concat ess)) as [|first rest] eqn:Ho.
  - exists None. split; [done|]. apply Forall_forall. intros e He.
    destruct (consider_spec cfg processed articles e) as [[H _]|[_ H]]; [done|].
    fold f in H. assert (with_image e ∈ omap f (concat ess)) as Hin
      by (apply list_elem_of_omap; eauto).
    rewrite Ho in Hin. by apply elem_of_nil in Hin.
  - destruct (pick_random cfg).
    + destruct (lookup_lt_is_Some_2 (first :: rest)
        (random_index (length (first :: rest)) `mod` length (first :: rest)))
        as [c Hc].
      { apply Nat.mod_upper_bound. simpl. lia. }
      exists (Some c). split; [by rewrite Hc|].
      apply Hsome. by eapply list_elem_of_lookup_2.
    + exists (Some first). split; [done|]. apply Hsome. by left.
Qed.

Abbreviation run :=
  (main http_feed chat_completion clock slugify random_index render_site).





End Controller.

Lemma pick_candidate_feed_failure_witness :
  pick_candidate flaky_feed first_index cfg_two_feeds ∅ []
                 (fresh cfg_two_feeds)
  = (add_events [EvHttpGet feed_url; EvHttpGet broken_url]
                (fresh cfg_two_feeds),
     inl (TransportError "503")).
Proof.
  apply (pick_candidate_feed_failure flaky_feed first_index cfg_two_feeds ∅ []
           [feed_url] [] broken_url (TransportError "503")).
  - reflexivity.
  - constructor; [|constructor]. eexists. reflexivity.
  - reflexivity.
Defined.

Lemma pick_candidate_never_excluded_witness :
  exists r,
    pick_candidate (feed_of [short_post; sample_entry]) first_index cfg_random
                   ∅ archive (fresh cfg_random)
    = (add_events [EvHttpGet feed_url] (fresh cfg_random), inr r)
    /\ match r with
       | None =>
           Forall (excluded cfg_random ∅ archive)
             (concat [Reddit.collect_entries feed_url 25 []
                        [short_post; sample_entry]])
       | Some c =>
           exists e,
             e ∈ concat [Reddit.collect_entries feed_url 25 []
                           [short_post; sample_entry]]
             /\ ~ excluded cfg_random ∅ archive e /\ c = with_image e
       end.
Proof.
  apply (pick_candidate_never_excluded (feed_of [short_post; sample_entry])
           first_index cfg_random ∅ archive [feed_url]
           [Reddit.collect_entries feed_url 25 [] [short_post; sample_entry]]).
  - reflexivity.
  - discriminate.
  - repeat constructor.
Defined.




End RunMore.

(* ===================================================================== *)
(** * The processed file and the generation client                      *)
(* ===================================================================== *)

Module ProcessedMore.
Import Text Regex Util Generate Spec Samples TextFacts PickFacts ProcessedFacts Deepseek Terms Cases RunMore.

Section Append.
Context {Site : Type}.
Implicit Types (w : World (Site:=Site)).

(** X28.  [append_processed] never fails and never forgets: every link
    of the processed set is still in it afterwards, the file is not
    touched when the normalized link is in the set already, and no
    other file changes. *)
Theorem append_processed_grows (url : str) w :
  let w' := (append_processed url w).1 in
  (append_processed url w).2 = inr tt
  /\ processed_in w ⊆ processed_in w'
  /\ (normalize_url url ∈ processed_in w -> processed_txt w' = processed_txt w)
  /\ lite_ran w' = lite_ran w /\ config_json w' = config_json w
  /\ articles_json w' = articles_json w
  /\ last_run_json w' = last_run_json w /\ site w' = site w.
Proof.
  intros w'. subst w'.
  destruct (append_processed_text url w) as [Hok Ht].
  split; [done|]. split; [|split; [|apply append_processed_frame]].
  - unfold processed_in. rewrite Ht. case_bool_decide; [done|]. simpl.
    rewrite appended_text_union. set_solver.
  - intros Hin. rewrite Ht. by rewrite bool_decide_eq_true_2.
Qed.

(** X29.  Marking a storable link twice is marking it once: after the
    first call the link is in the processed set and a second call
    leaves the file as it is. *)
Theorem append_processed_idempotent (url : str) w :
  storable (normalize_url url) ->
  let w1 := (append_processed url w).1 in
  normalize_url url ∈ processed_in w1
  /\ processed_txt (append_processed url w1).1 = processed_txt w1.
Proof.
  intros Hst w1.
  destruct (append_processed_storable url w Hst) as [Hset _].
  assert (normalize_url url ∈ processed_in w1) as Hin.
  { unfold processed_in. subst w1. rewrite Hset. set_solver. }
  split; [done|].
  destruct (append_processed_text url w1) as [_ Ht]. rewrite Ht.
  by rewrite bool_decide_eq_true_2.
Qed.

End Append.

Lemma append_processed_idempotent_witness :
  normalize_url ordinary_link
    ∈ processed_in (append_processed ordinary_link (fresh cfg_one_feed)).1.
Proof.
  apply (append_processed_idempotent ordinary_link (fresh cfg_one_feed)).
  apply ordinary_link_storable.
Defined.

(** ** The client of the generation service *)

(** X30.  The client of the generation service: the key is missing
    exactly when neither the argument nor the environment gives a
    non-empty one, and then [chat] raises without a request; otherwise
    there is one request, to the base URL without its final slashes
    followed by [/chat/completions], and a content that is returned has
    no surrounding whitespace. *)
Theorem client_chat_contract (post : str -> result (option str))
    (key env_key : option str) (base_url : str) :
  let c := new_client key env_key base_url in
  let res := client_chat post c in
  (api_key c = [] <-> (key = None \/ key = Some [])
                      /\ (env_key = None \/ env_key = Some []))
  /\ (api_key c = [] -> res.1 = [] /\ exists msg, res.2 = inl (RuntimeError msg))
  /\ (api_key c <> [] ->
      res.1 = [rstrip_char "/" base_url ++ ("/chat/completions"%string : str)]
      /\ last (rstrip_char "/" base_url) <> Some "/"%char
      /\ forall out, res.2 = inr out -> trimmed out).
Proof.
  intros c res. subst c res. unfold new_client, client_chat. simpl.
  split; [|split].
  - destruct key as [[|x k]|], env_key as [[|y e]|]; simpl; naive_solver.
  - intros ->. simpl. eauto.
  - intros Hk. destruct (str_or _ _) as [|x k]; [done|]. simpl.
    destruct (post _) as [e|content]; simpl.
    + split; [done|]. split; [|done].
      intros H. apply rstrip_last in H. by rewrite ascii_eqb_refl in H.
    + split; [done|]. split.
      * intros H. apply rstrip_last in H. by rewrite ascii_eqb_refl in H.
      * intros out [= <-]. apply strip_trimmed.
Qed.
End ProcessedMore.

